(** * ynal: content negotiation for license texts

    A shallow embedding of [main.go]: the [Accept] header negotiator
    [mostAcceptable], the per-license handler built by [handlerFor], the
    JSON rendering [toJSON], the start-up construction [appHandler], the
    listening address [addr] and the logging wrapper [withLogging].

    Go strings are byte sequences and are modelled by [string] (a list of
    8-bit [ascii]); [float64] by the IEEE-754 binary64 instance of
    [spec_float]; [map[string]string] by [gmap string string]. *)

From Stdlib Require Import ZArith Lia Ascii String List Bool.
From Stdlib Require Import Floats.SpecFloat.
From Stdlib Require Import Sorting.Permutation.
From stdpp Require Import base list gmap strings.

Local Open Scope string_scope.

(** ** Bytes *)

Definition byte := ascii.

Definition byte_val (c : byte) : Z := Z.of_N (N_of_ascii c).

Definition byte_of (z : Z) : byte := ascii_of_N (Z.to_N (z mod 256)).

(** The double quote and the backslash. *)
Definition quote : byte := "034"%char.
Definition backslash : byte := "092"%char.

(** ** float64 *)

Definition float64 := spec_float.

Definition prec64 : Z := 53.
Definition emax64 : Z := 1024.

(** [a < b] and [a > b] of Go on float64: false as soon as one side is NaN. *)
Definition f64_lt (a b : float64) : bool := SFltb a b.
Definition f64_gt (a b : float64) : bool := SFltb b a.

Definition f64_of_Z (m e : Z) : float64 := binary_normalize prec64 emax64 m e false.

Definition f64_one : float64 := Eval vm_compute in f64_of_Z 1 0.

Definition is_nan (f : float64) : bool :=
  match f with S754_nan => true | _ => false end.

(** ** Strings as byte sequences *)

Fixpoint string_drop (n : nat) (s : string) : string :=
  match n, s with
  | O, _ => s
  | S n', String _ s' => string_drop n' s'
  | S _, EmptyString => EmptyString
  end.

Fixpoint string_take (n : nat) (s : string) : string :=
  match n, s with
  | S n', String c s' => String c (string_take n' s')
  | _, _ => EmptyString
  end.

Fixpoint string_rev_app (s acc : string) : string :=
  match s with
  | EmptyString => acc
  | String c s' => string_rev_app s' (String c acc)
  end.

Definition string_rev (s : string) : string := string_rev_app s EmptyString.

Fixpoint string_forallb (p : byte -> bool) (s : string) : bool :=
  match s with
  | EmptyString => true
  | String c s' => p c && string_forallb p s'
  end.

Fixpoint string_of_bytes (l : list Z) : string :=
  match l with
  | [] => EmptyString
  | z :: l' => String (byte_of z) (string_of_bytes l')
  end.

(** ** Package unicode/utf8 *)

Module utf8.

Definition RuneError : Z := 65533.
Definition RuneSelf : Z := 128.
Definition MaxRune : Z := 1114111.
Definition UTFMax : nat := 4.

(** The accept range of the second byte, by first byte. *)
Definition acceptRange (b0 : Z) : Z * Z :=
  if (b0 =? 224)%Z then (160, 191)%Z
  else if (b0 =? 237)%Z then (128, 159)%Z
  else if (b0 =? 240)%Z then (144, 191)%Z
  else if (b0 =? 244)%Z then (128, 143)%Z
  else (128, 191)%Z.

Definition isCont (b : Z) : bool := ((128 <=? b) && (b <=? 191))%Z.

(** [utf8.DecodeRuneInString]: the first rune of [s] and its width in
    bytes; [(RuneError, 0)] on the empty string and [(RuneError, 1)] on
    an invalid encoding. *)
Definition DecodeRuneInString (s : string) : Z * nat :=
  match s with
  | EmptyString => (RuneError, 0)
  | String c0 s1 =>
      let b0 := byte_val c0 in
      if (b0 <? RuneSelf)%Z then (b0, 1)
      else if ((b0 <? 194) || (244 <? b0))%Z then (RuneError, 1)
      else
        let '(lo, hi) := acceptRange b0 in
        match s1 with
        | EmptyString => (RuneError, 1)
        | String c1 s2 =>
            let b1 := byte_val c1 in
            if (b0 <? 224)%Z then
              if ((b1 <? lo) || (hi <? b1))%Z then (RuneError, 1)
              else (Z.lor (Z.shiftl (Z.land b0 31) 6) (Z.land b1 63), 2)
            else
              match s2 with
              | EmptyString => (RuneError, 1)
              | String c2 s3 =>
                  let b2 := byte_val c2 in
                  if (b0 <? 240)%Z then
                    if ((b1 <? lo) || (hi <? b1))%Z then (RuneError, 1)
                    else if negb (isCont b2) then (RuneError, 1)
                    else (Z.lor (Z.lor (Z.shiftl (Z.land b0 15) 12)
                                       (Z.shiftl (Z.land b1 63) 6))
                                (Z.land b2 63), 3)
                  else
                    match s3 with
                    | EmptyString => (RuneError, 1)
                    | String c3 _ =>
                        let b3 := byte_val c3 in
                        if ((b1 <? lo) || (hi <? b1))%Z then (RuneError, 1)
                        else if negb (isCont b2) then (RuneError, 1)
                        else if negb (isCont b3) then (RuneError, 1)
                        else (Z.lor (Z.lor (Z.lor (Z.shiftl (Z.land b0 7) 18)
                                                  (Z.shiftl (Z.land b1 63) 12))
                                           (Z.shiftl (Z.land b2 63) 6))
                                    (Z.land b3 63), 4)
                    end
              end
        end
  end.

(** [utf8.RuneStart]. *)
Definition RuneStart (b : Z) : bool := negb (Z.land b 192 =? 128)%Z.

(** [utf8.DecodeLastRuneInString], on the reversed string [r] (last byte
    first): it looks back over at most [UTFMax] bytes for a start byte
    and decodes from there. *)
Fixpoint lastStart (r : string) (back : nat) (k : nat) : nat :=
  match back, r with
  | S back', String c r' =>
      if RuneStart (byte_val c) then k else lastStart r' back' (S k)
  | O, String _ _ => k
  | _, EmptyString => k - 1
  end.

Definition DecodeLastRuneInString (s : string) : Z * nat :=
  match string_rev s with
  | EmptyString => (RuneError, 0)
  | String c r' =>
      let b := byte_val c in
      if (b <? RuneSelf)%Z then (b, 1)
      else
        (* [n] bytes are taken from the end: back to the nearest start
           byte among the three before the last, one byte further when
           there is none, the whole string when it is shorter *)
        let n := S (lastStart r' (UTFMax - 1) 1) in
        let n := Nat.min n (String.length s) in
        let '(r, size) := DecodeRuneInString (string_drop (String.length s - n) s) in
        if Nat.eqb size n then (r, size) else (RuneError, 1)
  end.

(** [utf8.AppendRune] / [utf8.EncodeRune]: the UTF-8 bytes of a rune;
    surrogates and out-of-range values encode [RuneError]. *)
Definition EncodeRune (r : Z) : string :=
  if ((0 <=? r) && (r <=? 127))%Z then string_of_bytes [r]
  else if ((0 <=? r) && (r <=? 2047))%Z then
    string_of_bytes [Z.lor 192 (Z.shiftr r 6); Z.lor 128 (Z.land r 63)]
  else if ((r <? 0) || (MaxRune <? r) || ((55296 <=? r) && (r <=? 57343)))%Z then
    string_of_bytes [239; 191; 189]%Z
  else if (r <=? 65535)%Z then
    string_of_bytes [Z.lor 224 (Z.shiftr r 12);
                     Z.lor 128 (Z.land (Z.shiftr r 6) 63);
                     Z.lor 128 (Z.land r 63)]
  else
    string_of_bytes [Z.lor 240 (Z.shiftr r 18);
                     Z.lor 128 (Z.land (Z.shiftr r 12) 63);
                     Z.lor 128 (Z.land (Z.shiftr r 6) 63);
                     Z.lor 128 (Z.land r 63)].

End utf8.

(** ** Package unicode *)

Module unicode.

(** [unicode.IsSpace]: the Latin-1 spaces and the [White_Space] table. *)
Definition IsSpace (r : Z) : bool :=
  ((r =? 9) || (r =? 10) || (r =? 11) || (r =? 12) || (r =? 13) || (r =? 32)
   || (r =? 133) || (r =? 160) || (r =? 5760)
   || ((8192 <=? r) && (r <=? 8202))
   || (r =? 8232) || (r =? 8233) || (r =? 8239) || (r =? 8287) || (r =? 12288))%Z.

(** [unicode.ToLower].  Upper-case ASCII letters and the two runes
    whose lower case is an ASCII letter (U+0130, U+212A) are mapped as
    the library does; the case table of the other non-ASCII runes is not
    reproduced: their lower case is again a non-ASCII rune. *)
Definition ToLower (r : Z) : Z :=
  if ((65 <=? r) && (r <=? 90))%Z then (r + 32)%Z
  else if (r =? 304)%Z then 105%Z
  else if (r =? 8490)%Z then 107%Z
  else r.

End unicode.

(** ** Package strings (the part the program and the parsers call) *)

Module strings.

Definition lowerByte (c : byte) : byte :=
  let v := byte_val c in
  if ((65 <=? v) && (v <=? 90))%Z then byte_of (v + 32) else c.

Definition isASCII (s : string) : bool :=
  string_forallb (fun c => (byte_val c <? utf8.RuneSelf)%Z) s.

Fixpoint mapBytes (f : byte -> byte) (s : string) : string :=
  match s with
  | EmptyString => EmptyString
  | String c s' => String (f c) (mapBytes f s')
  end.

(** [strings.Map(mapping, s)]: rune by rune, an invalid byte reads as
    [RuneError]. *)
Fixpoint Map (fuel : nat) (mapping : Z -> Z) (s : string) : string :=
  match fuel, s with
  | S fuel', String _ _ =>
      let '(r, size) := utf8.DecodeRuneInString s in
      utf8.EncodeRune (mapping r) ++ Map fuel' mapping (string_drop size s)
  | _, _ => EmptyString
  end.

(** [strings.ToLower]. *)
Definition ToLower (s : string) : string :=
  if isASCII s then mapBytes lowerByte s
  else Map (String.length s) unicode.ToLower s.

(** [strings.TrimLeftFunc(s, f)]. *)
Fixpoint TrimLeftFunc (fuel : nat) (s : string) (f : Z -> bool) : string :=
  match fuel, s with
  | S fuel', String _ _ =>
      let '(r, size) := utf8.DecodeRuneInString s in
      if f r then TrimLeftFunc fuel' (string_drop size s) f else s
  | _, _ => s
  end.

(** [strings.TrimRightFunc(s, f)]. *)
Fixpoint TrimRightFunc (fuel : nat) (s : string) (f : Z -> bool) : string :=
  match fuel, s with
  | S fuel', String _ _ =>
      let '(r, size) := utf8.DecodeLastRuneInString s in
      if f r then TrimRightFunc fuel' (string_take (String.length s - size) s) f else s
  | _, _ => s
  end.

(** [strings.TrimSpace]. *)
Definition TrimSpace (s : string) : string :=
  let s := TrimLeftFunc (String.length s) s unicode.IsSpace in
  TrimRightFunc (String.length s) s unicode.IsSpace.

(** [strings.Cut(s, sep)] at a one-byte separator. *)
Fixpoint Cut (s : string) (sep : byte) : string * string * bool :=
  match s with
  | EmptyString => (EmptyString, EmptyString, false)
  | String c s' =>
      if Ascii.eqb c sep then (EmptyString, s', true)
      else let '(before, after, found) := Cut s' sep in
           if found then (String c before, after, true)
           else (s, EmptyString, false)
  end.

(** [strings.HasPrefix(s, prefix)] at a one-byte prefix. *)
Definition HasPrefix (s : string) (prefix : byte) : bool :=
  match s with
  | String c _ => Ascii.eqb c prefix
  | EmptyString => false
  end.

(** [strings.Split(s, sep)] at a one-byte separator: the pieces between
    the occurrences of [sep]; never empty (an empty [s] gives one empty
    piece). *)
Fixpoint Split (s : string) (sep : byte) : list string :=
  match s with
  | EmptyString => [EmptyString]
  | String c s' =>
      if Ascii.eqb c sep then EmptyString :: Split s' sep
      else match Split s' sep with
           | t :: ts => String c t :: ts
           | [] => [String c EmptyString]
           end
  end.

(** [strings.Join(elems, sep)] at a one-byte separator. *)
Fixpoint Join (elems : list string) (sep : byte) : string :=
  match elems with
  | [] => EmptyString
  | [e] => e
  | e :: rest => e ++ String sep (Join rest sep)
  end.

Arguments Split s sep%_char.
Arguments Join elems sep%_char.
Arguments Cut s sep%_char.
Arguments HasPrefix s prefix%_char.

End strings.

(** ** Package mime: [ParseMediaType] *)

Definition error := string.

Module mime.

Definition isTSpecial (c : byte) : bool :=
  existsb (Ascii.eqb c)
    ["("; ")"; "<"; ">"; "@"; ","; ";"; ":"; backslash; quote; "/"; "["; "]"; "?"; "="]%char.

Definition isTokenChar (c : byte) : bool :=
  let v := byte_val c in
  ((32 <? v) && (v <? 127))%Z && negb (isTSpecial c).

(** [consumeToken]: the longest prefix of token characters and the rest. *)
Fixpoint consumeToken (v : string) : string * string :=
  match v with
  | EmptyString => (EmptyString, EmptyString)
  | String c v' =>
      if isTokenChar c then
        let '(token, rest) := consumeToken v' in (String c token, rest)
      else (EmptyString, v)
  end.

Definition checkMediaTypeDisposition (s : string) : option error :=
  let '(typ, rest) := consumeToken s in
  if typ =? "" then Some "mime: no media type"
  else if rest =? "" then None
  else if negb (strings.HasPrefix rest "/") then
    Some "mime: expected slash after first token"
  else
    let '(subtype, rest) := consumeToken (string_drop 1 rest) in
    if subtype =? "" then Some "mime: expected token after slash"
    else if negb (rest =? "") then
      Some "mime: unexpected content after media subtype"
    else None.

(** The quoted-string loop of [consumeValue], after the opening quote;
    [buffer] is kept reversed.  [None] is the failure return. *)
Fixpoint consumeQuoted (v : string) (buffer : string) : option (string * string) :=
  match v with
  | EmptyString => None
  | String r v' =>
      if Ascii.eqb r quote then Some (string_rev buffer, v')
      else
        let plain :=
          if Ascii.eqb r "013" || Ascii.eqb r "010" then None
          else consumeQuoted v' (String r buffer) in
        if Ascii.eqb r backslash then
          match v' with
          | String n v'' =>
              if isTSpecial n then consumeQuoted v'' (String n buffer) else plain
          | EmptyString => plain
          end
        else plain
  end.

Definition consumeValue (v : string) : string * string :=
  match v with
  | EmptyString => (EmptyString, EmptyString)
  | String c v' =>
      if negb (Ascii.eqb c quote) then consumeToken v
      else match consumeQuoted v' EmptyString with
           | Some res => res
           | None => (EmptyString, v)
           end
  end.

Definition trimLeftSpace (v : string) : string :=
  strings.TrimLeftFunc (String.length v) v unicode.IsSpace.

Definition consumeMediaParam (v : string) : string * string * string :=
  let rest := trimLeftSpace v in
  if negb (strings.HasPrefix rest ";") then (EmptyString, EmptyString, v)
  else
    let rest := string_drop 1 rest in
    let rest := trimLeftSpace rest in
    let '(param, rest) := consumeToken rest in
    let param := strings.ToLower param in
    if param =? "" then (EmptyString, EmptyString, v)
    else
      let rest := trimLeftSpace rest in
      if negb (strings.HasPrefix rest "=") then (EmptyString, EmptyString, v)
      else
        let rest := string_drop 1 rest in
        let rest := trimLeftSpace rest in
        let '(value, rest2) := consumeValue rest in
        if (value =? "") && (rest2 =? rest) then (EmptyString, EmptyString, v)
        else (param, value, rest2).

Definition ishex (c : byte) : bool :=
  let v := byte_val c in
  (((48 <=? v) && (v <=? 57)) || ((97 <=? v) && (v <=? 102))
   || ((65 <=? v) && (v <=? 70)))%Z.

Definition unhex (c : byte) : Z :=
  let v := byte_val c in
  if ((48 <=? v) && (v <=? 57))%Z then (v - 48)%Z
  else if ((97 <=? v) && (v <=? 102))%Z then (v - 97 + 10)%Z
  else if ((65 <=? v) && (v <=? 70))%Z then (v - 65 + 10)%Z
  else 0%Z.

(** [percentHexUnescape]; [None] is the error return. *)
Fixpoint percentHexUnescape (s : string) : option string :=
  match s with
  | EmptyString => Some EmptyString
  | String c s' =>
      if Ascii.eqb c "%" then
        match s' with
        | String h1 (String h2 s'') =>
            if ishex h1 && ishex h2 then
              option_map (String (byte_of (Z.lor (Z.shiftl (unhex h1) 4) (unhex h2))))
                         (percentHexUnescape s'')
            else None
        | _ => None
        end
      else option_map (String c) (percentHexUnescape s')
  end.

(** [decode2231Enc]: [charset'lang'percent-encoded]. *)
Definition decode2231Enc (v : string) : option string :=
  let '(charset, after, found) := strings.Cut v "'" in
  if negb found then None
  else
    let '(_, encoded, found) := strings.Cut after "'" in
    if negb found then None
    else
      let charset := strings.ToLower charset in
      if charset =? "" then None
      else if negb (charset =? "us-ascii") && negb (charset =? "utf-8") then None
      else percentHexUnescape encoded.

Abbreviation params_t := (gmap string string).

(** The decimal digits of [n], as [%d] prints them. *)
Fixpoint digitsOf (fuel n : nat) (acc : string) : string :=
  match fuel with
  | O => acc
  | S fuel' =>
      let acc := String (byte_of (48 + Z.of_nat (n mod 10)%nat)) acc in
      if (n <? 10)%nat then acc else digitsOf fuel' (n / 10)%nat acc
  end.

Definition itoa (n : nat) : string := digitsOf (S n) n EmptyString.

(** The numbered pieces [key*0], [key*1*], ... of one continuation. *)
Fixpoint stitch (fuel : nat) (key : string) (pieceMap : params_t) (n : nat)
                (valid : bool) (buf : string) : bool * string :=
  match fuel with
  | O => (valid, buf)
  | S fuel' =>
      let simplePart := key ++ "*" ++ itoa n in
      match pieceMap !! simplePart with
      | Some v => stitch fuel' key pieceMap (S n) true (buf ++ v)
      | None =>
          let encodedPart := simplePart ++ "*" in
          match pieceMap !! encodedPart with
          | None => (valid, buf)
          | Some v =>
              let decv :=
                if (n =? 0)%nat then default EmptyString (decode2231Enc v)
                else default EmptyString (percentHexUnescape v) in
              stitch fuel' key pieceMap (S n) true (buf ++ decv)
          end
      end
  end.

Definition stitchOne (key : string) (pieceMap : params_t) (params : params_t)
  : params_t :=
  let singlePartKey := key ++ "*" in
  match pieceMap !! singlePartKey with
  | Some v =>
      match decode2231Enc v with
      | Some decv => <[key := decv]> params
      | None => params
      end
  | None =>
      let '(valid, buf) := stitch (S (size pieceMap)) key pieceMap 0 false EmptyString in
      if valid then <[key := buf]> params else params
  end.

Definition ErrInvalidMediaParameter : error := "mime: invalid media parameter".

(** The parameter loop of [ParseMediaType]. *)
Fixpoint parseParams (fuel : nat) (mediatype v : string) (params : params_t)
                     (continuation : gmap string params_t)
  : string * params_t * option error :=
  match fuel with
  | O => (mediatype, map_fold stitchOne params continuation, None)
  | S fuel' =>
      if v =? "" then (mediatype, map_fold stitchOne params continuation, None)
      else
        let v := trimLeftSpace v in
        if v =? "" then (mediatype, map_fold stitchOne params continuation, None)
        else
          let '(key, value, rest) := consumeMediaParam v in
          if key =? "" then
            if strings.TrimSpace rest =? ";" then
              (mediatype, map_fold stitchOne params continuation, None)
            else (mediatype, ∅, Some ErrInvalidMediaParameter)
          else
            let '(baseName, _, star) := strings.Cut key "*" in
            if star then
              let pmap := default ∅ (continuation !! baseName) in
              match pmap !! key with
              | Some v' =>
                  if negb (v' =? value) then
                    (EmptyString, ∅, Some "mime: duplicate parameter name")
                  else parseParams fuel' mediatype rest params
                         (<[baseName := <[key := value]> pmap]> continuation)
              | None =>
                  parseParams fuel' mediatype rest params
                    (<[baseName := <[key := value]> pmap]> continuation)
              end
            else
              match params !! key with
              | Some v' =>
                  if negb (v' =? value) then
                    (EmptyString, ∅, Some "mime: duplicate parameter name")
                  else parseParams fuel' mediatype rest (<[key := value]> params)
                         continuation
              | None =>
                  parseParams fuel' mediatype rest (<[key := value]> params) continuation
              end
  end.

(** [mime.ParseMediaType].  A [nil] map is returned as the empty map. *)
Definition ParseMediaType (v : string) : string * params_t * option error :=
  let '(base, _, _) := strings.Cut v ";" in
  let mediatype := strings.TrimSpace (strings.ToLower base) in
  match checkMediaTypeDisposition mediatype with
  | Some err => (EmptyString, ∅, Some err)
  | None =>
      let v := string_drop (String.length base) v in
      parseParams (S (String.length v)) mediatype v ∅ ∅
  end.

End mime.

(** ** Package strconv: [ParseFloat] at bit size 64 *)

Module strconv.

Definition ErrSyntax : error := "invalid syntax".
Definition ErrRange : error := "value out of range".

(** [lower(c)] is [c | ('x' ^ 'X')]. *)
Definition lower (c : byte) : Z := Z.lor (byte_val c) 32.

Definition isDigit (c : byte) : bool :=
  let v := byte_val c in ((48 <=? v) && (v <=? 57))%Z.

Definition isHexLetter (c : byte) : bool :=
  ((97 <=? lower c) && (lower c <=? 102))%Z.

Fixpoint commonPrefixLenIgnoreCase (s prefix : string) : nat :=
  match s, prefix with
  | String c s', String p prefix' =>
      if Ascii.eqb (strings.lowerByte c) p
      then S (commonPrefixLenIgnoreCase s' prefix') else 0
  | _, _ => 0
  end.

(** [special]: the infinities and NaN, with the number of bytes read. *)
Definition special (s : string) : option (float64 * nat) :=
  match s with
  | EmptyString => None
  | String c s' =>
      let signed := Ascii.eqb c "+" || Ascii.eqb c "-" in
      let inf (neg : bool) (nsign : nat) (t : string) :=
        let n := commonPrefixLenIgnoreCase t "infinity" in
        let n := if (3 <? n)%nat && (n <? 8)%nat then 3 else n in
        if (n =? 3)%nat || (n =? 8)%nat then Some (S754_infinity neg, nsign + n)
        else None in
      if signed then inf (Ascii.eqb c "-") 1 s'
      else if Ascii.eqb c "i" || Ascii.eqb c "I" then inf false 0 s
      else if Ascii.eqb c "n" || Ascii.eqb c "N" then
        if (commonPrefixLenIgnoreCase s "nan" =? 3)%nat then Some (S754_nan, 3) else None
      else None
  end.

(** The state of the digit loop of [readFloat].  The mantissa is kept
    exactly (the library keeps its first 19 digits and a truncation flag,
    and falls back to a multi-precision decimal when they do not settle
    the rounding). *)
Record digits := {
  mantissa : Z;
  nd : Z;
  dp : Z;
  sawdot : bool;
  sawdigits : bool;
  underscores : bool
}.

Fixpoint readDigits (hex : bool) (s : string) (d : digits) : digits * string :=
  match s with
  | EmptyString => (d, s)
  | String c s' =>
      if Ascii.eqb c "_" then
        readDigits hex s'
          {| mantissa := mantissa d; nd := nd d; dp := dp d; sawdot := sawdot d;
             sawdigits := sawdigits d; underscores := true |}
      else if Ascii.eqb c "." then
        if sawdot d then (d, s)
        else readDigits hex s'
               {| mantissa := mantissa d; nd := nd d; dp := nd d; sawdot := true;
                  sawdigits := sawdigits d; underscores := underscores d |}
      else if isDigit c then
        if Ascii.eqb c "0" && (nd d =? 0)%Z then
          readDigits hex s'
            {| mantissa := mantissa d; nd := nd d; dp := (dp d - 1)%Z;
               sawdot := sawdot d; sawdigits := true; underscores := underscores d |}
        else
          readDigits hex s'
            {| mantissa := (mantissa d * (if hex then 16 else 10) + (byte_val c - 48))%Z;
               nd := (nd d + 1)%Z; dp := dp d; sawdot := sawdot d;
               sawdigits := true; underscores := underscores d |}
      else if hex && isHexLetter c then
        readDigits hex s'
          {| mantissa := (mantissa d * 16 + (lower c - 97 + 10))%Z;
             nd := (nd d + 1)%Z; dp := dp d; sawdot := sawdot d;
             sawdigits := true; underscores := underscores d |}
      else (d, s)
  end.

(** The digits of the exponent; it stops growing at 10000. *)
Fixpoint readExponent (s : string) (e : Z) (us : bool) : Z * bool * string :=
  match s with
  | EmptyString => (e, us, s)
  | String c s' =>
      if Ascii.eqb c "_" then readExponent s' e true
      else if isDigit c then
        readExponent s' (if (e <? 10000)%Z then (e * 10 + (byte_val c - 48))%Z else e) us
      else (e, us, s)
  end.

(** [underscoreOK], after the optional sign and base prefix; [saw] is
    the last character class seen. *)
Fixpoint underscoreLoop (hex : bool) (s : string) (saw : byte) : bool :=
  match s with
  | EmptyString => negb (Ascii.eqb saw "_")
  | String c s' =>
      if isDigit c || (hex && isHexLetter c) then underscoreLoop hex s' "0"%char
      else if Ascii.eqb c "_" then
        if negb (Ascii.eqb saw "0") then false else underscoreLoop hex s' "_"%char
      else if Ascii.eqb saw "_" then false
      else underscoreLoop hex s' "!"%char
  end.

Definition underscoreOK (s : string) : bool :=
  let s := match s with
           | String c s' => if Ascii.eqb c "-" || Ascii.eqb c "+" then s' else s
           | EmptyString => s
           end in
  match s with
  | String c0 (String c1 s') =>
      if Ascii.eqb c0 "0" && ((lower c1 =? 98) || (lower c1 =? 111) || (lower c1 =? 120))%Z
      then underscoreLoop (lower c1 =? 120)%Z s' "0"%char
      else underscoreLoop false s "^"%char
  | _ => underscoreLoop false s "^"%char
  end.

(** What [readFloat] hands to the conversion. *)
Record number := {
  n_mantissa : Z;
  n_exp : Z;       (* the value is [n_mantissa * base ^ n_exp], base 10 or 2 *)
  n_dp : Z;        (* the position of the decimal point *)
  n_neg : bool;
  n_hex : bool
}.

(** [readFloat]: [None] is [ok = false]; the remaining input is returned
    in place of the index [i]. *)
Definition readFloat (s : string) : option (number * string) :=
  match s with
  | EmptyString => None
  | String c0 s0 =>
      let neg := Ascii.eqb c0 "-" in
      let t := if Ascii.eqb c0 "+" || Ascii.eqb c0 "-" then s0 else s in
      let '(hex, t) :=
        match t with
        | String z (String x (String y r)) =>
            if Ascii.eqb z "0" && (lower x =? 120)%Z then (true, String y r)
            else (false, t)
        | _ => (false, t)
        end in
      let '(d, t) :=
        readDigits hex t {| mantissa := 0; nd := 0; dp := 0; sawdot := false;
                            sawdigits := false; underscores := false |} in
      if negb (sawdigits d) then None
      else
        let dp0 := if sawdot d then dp d else nd d in
        let dp0 := if hex then (dp0 * 4)%Z else dp0 in
        let ndMant := if hex then (nd d * 4)%Z else nd d in
        let finish (dp1 : Z) (us : bool) (t : string) :=
          if us && negb (underscoreOK (string_take (String.length s - String.length t) s))
          then None
          else Some ({| n_mantissa := mantissa d;
                        n_exp := if (mantissa d =? 0)%Z then 0%Z else (dp1 - ndMant)%Z;
                        n_dp := dp1; n_neg := neg; n_hex := hex |}, t) in
        match t with
        | String e t' =>
            if (lower e =? (if hex then 112 else 101))%Z then
              match t' with
              | EmptyString => None
              | String sg t'' =>
                  let esign := if Ascii.eqb sg "-" then (-1)%Z else 1%Z in
                  let t' := if Ascii.eqb sg "+" || Ascii.eqb sg "-" then t'' else t' in
                  match t' with
                  | EmptyString => None
                  | String g _ =>
                      if negb (isDigit g) then None
                      else
                        let '(e, us, t') := readExponent t' 0 (underscores d) in
                        finish (dp0 + e * esign)%Z us t'
                  end
              end
            else if hex then None
            else finish dp0 (underscores d) t
        | EmptyString =>
            if hex then None else finish dp0 (underscores d) t
        end
  end.

(** The binary64 nearest to [m * 10 ^ e] or [m * 2 ^ e] (ties to even),
    an infinity when it is out of range. *)
Definition nearest (x : number) : float64 :=
  let m := n_mantissa x in
  if (m =? 0)%Z then S754_zero (n_neg x)
  else if n_hex x then binary_round prec64 emax64 (n_neg x) (Z.to_pos m) (n_exp x)
  else if (310 <? n_dp x)%Z then S754_infinity (n_neg x)
  else if (n_dp x <? -330)%Z then S754_zero (n_neg x)
  else if (0 <=? n_exp x)%Z then
    binary_round prec64 emax64 (n_neg x) (Z.to_pos (m * 10 ^ n_exp x)) 0
  else
    let '(q, e, l) := SFdiv_core_binary prec64 emax64 m 0 (10 ^ (- n_exp x)) 0 in
    binary_round_aux prec64 emax64 (n_neg x) q e l.

(** [strconv.ParseFloat(s, 64)]. *)
Definition ParseFloat (s : string) (bitSize : Z) : float64 * option error :=
  match special s with
  | Some (f, n) =>
      if (n =? String.length s)%nat then (f, None)
      else (S754_zero false, Some ErrSyntax)
  | None =>
      match readFloat s with
      | None => (S754_zero false, Some ErrSyntax)
      | Some (x, rest) =>
          if negb (rest =? "") then (S754_zero false, Some ErrSyntax)
          else
            let f := nearest x in
            match f with
            | S754_infinity _ => (f, Some ErrRange)
            | _ => (f, None)
            end
      end
  end.

End strconv.

(** ** Package slices: [SortStableFunc]

    The slice is a list and the in-place algorithm is followed index by
    index: insertion sort on blocks of 20 elements, then rounds of
    [symMerge] on adjacent blocks.  An index out of range, which panics in
    Go, leaves the list as it is; the algorithm never produces one. *)

Module slices.
Section Sort.
Context {E : Type}.
Variable cmp : E -> E -> Z.

(** [cmp(data[i], data[j]) < 0] *)
Definition lessAt (data : list E) (i j : nat) : bool :=
  match data !! i, data !! j with
  | Some x, Some y => (cmp x y <? 0)%Z
  | _, _ => false
  end.

(** [data[i], data[j] = data[j], data[i]] *)
Definition swap (data : list E) (i j : nat) : list E :=
  match data !! i, data !! j with
  | Some x, Some y => <[j := x]> (<[i := y]> data)
  | _, _ => data
  end.

(** The inner loop of [insertionSortCmpFunc]:
    [for j := i; j > a && cmp(data[j], data[j-1]) < 0; j--]. *)
Fixpoint siftDown (data : list E) (a j : nat) : list E :=
  match j with
  | O => data
  | S j' =>
      if (a <? j)%nat && lessAt data j j' then siftDown (swap data j j') a j'
      else data
  end.

(** [insertionSortCmpFunc(data, a, b, cmp)] *)
Definition insertionSortCmpFunc (data : list E) (a b : nat) : list E :=
  fold_left (fun data i => siftDown data a i) (seq (a + 1) (b - (a + 1))) data.

(** [for i < j { h := int(uint(i+j) >> 1); if up(h) { i = h + 1 } else { j = h } }] *)
Fixpoint search (fuel : nat) (up : nat -> bool) (i j : nat) : nat :=
  match fuel with
  | O => i
  | S fuel' =>
      if (i <? j)%nat then
        let h := ((i + j) / 2)%nat in
        if up h then search fuel' up (h + 1) j else search fuel' up i h
      else i
  end.

(** [swapRangeCmpFunc(data, a, b, n, cmp)] *)
Definition swapRangeCmpFunc (data : list E) (a b n : nat) : list E :=
  fold_left (fun data i => swap data (a + i) (b + i)) (seq 0 n) data.

(** The loop of [rotateCmpFunc] and its final [swapRange]. *)
Fixpoint rotateLoop (fuel : nat) (data : list E) (m i j : nat) : list E :=
  match fuel with
  | O => data
  | S fuel' =>
      if (i =? j)%nat then swapRangeCmpFunc data (m - i) m i
      else if (j <? i)%nat then
        rotateLoop fuel' (swapRangeCmpFunc data (m - i) m j) m (i - j) j
      else
        rotateLoop fuel' (swapRangeCmpFunc data (m - i) (m + j - i) i) m i (j - i)
  end.

(** [rotateCmpFunc(data, a, m, b, cmp)] *)
Definition rotateCmpFunc (data : list E) (a m b : nat) : list E :=
  let i := m - a in
  let j := b - m in
  rotateLoop (S (i + j)) data m i j.

(** [symMergeCmpFunc(data, a, m, b, cmp)]; [fuel] bounds the depth of
    the recursion. *)
Fixpoint symMergeCmpFunc (fuel : nat) (data : list E) (a m b : nat) : list E :=
  match fuel with
  | O => data
  | S fuel' =>
      if (m - a =? 1)%nat then
        let i := search (b - m) (fun h => lessAt data h a) m b in
        (* for k := a; k < i-1; k++ *)
        fold_left (fun data k => swap data k (k + 1)) (seq a (i - 1 - a)) data
      else if (b - m =? 1)%nat then
        let i := search (m - a) (fun h => negb (lessAt data m h)) a m in
        (* for k := m; k > i; k-- *)
        fold_left (fun data k => swap data k (k - 1)) (rev (seq (i + 1) (m - i))) data
      else
        let mid := ((a + b) / 2)%nat in
        let n := mid + m in
        let '(start, r) := if (mid <? m)%nat then (n - b, mid) else (a, m) in
        let p := n - 1 in
        let start :=
          search (r - start) (fun c => negb (lessAt data (p - c) c)) start r in
        let end_ := n - start in
        let data :=
          if (start <? m)%nat && (m <? end_)%nat
          then rotateCmpFunc data start m end_ else data in
        let data :=
          if (a <? start)%nat && (start <? mid)%nat
          then symMergeCmpFunc fuel' data a start mid else data in
        if (mid <? end_)%nat && (end_ <? b)%nat
        then symMergeCmpFunc fuel' data mid end_ b else data
  end.

(** The first loop of [stableCmpFunc]: insertion sort block by block;
    the last, shorter block is sorted when the loop is left. *)
Fixpoint sortBlocks (fuel : nat) (data : list E) (a b n blockSize : nat) : list E :=
  match fuel with
  | O => data
  | S fuel' =>
      if (b <=? n)%nat then
        sortBlocks fuel' (insertionSortCmpFunc data a b) b (b + blockSize) n blockSize
      else insertionSortCmpFunc data a n
  end.

(** One round of merges at a given block size. *)
Fixpoint mergeBlocks (fuel : nat) (data : list E) (a b n blockSize : nat) : list E :=
  match fuel with
  | O => data
  | S fuel' =>
      if (b <=? n)%nat then
        mergeBlocks fuel' (symMergeCmpFunc n data a (a + blockSize) b)
                    b (b + 2 * blockSize) n blockSize
      else
        let m := a + blockSize in
        if (m <? n)%nat then symMergeCmpFunc n data a m n else data
  end.

(** [for blockSize < n { ...; blockSize *= 2 }] *)
Fixpoint mergeRounds (fuel : nat) (data : list E) (n blockSize : nat) : list E :=
  match fuel with
  | O => data
  | S fuel' =>
      if (blockSize <? n)%nat then
        mergeRounds fuel' (mergeBlocks (S n) data 0 (2 * blockSize) n blockSize)
                    n (2 * blockSize)
      else data
  end.

(** [stableCmpFunc(data, n, cmp)] *)
Definition stableCmpFunc (data : list E) (n : nat) : list E :=
  let blockSize := 20 in
  let data := sortBlocks (S n) data 0 blockSize n blockSize in
  mergeRounds n data n blockSize.

End Sort.

(** [slices.SortStableFunc(x, cmp)]; the result is the slice after the
    call. *)
Definition SortStableFunc {E : Type} (x : list E) (cmp : E -> E -> Z) : list E :=
  stableCmpFunc cmp x (length x).

End slices.

(** ** The negotiator *)

Record AcceptType := {
  MediaType : string;
  RelativeWeight : float64
}.

(** The three library routines [mostAcceptable] relies on.  A non-[None]
    last component is Go's [err != nil]. *)
Class GoLibrary := {
  mime_ParseMediaType : string -> string * gmap string string * option error;
  strconv_ParseFloat : string -> Z -> float64 * option error;
  slices_SortStableFunc : forall {E : Type}, list E -> (E -> E -> Z) -> list E
}.

Section Negotiator.
Context `{GoLibrary}.

(** [params["q"]]: a missing key reads as the empty string. *)
Definition param_q (params : gmap string string) : string :=
  default EmptyString (params !! "q").

(** Lines 180-183. *)
Definition weightOf (params : gmap string string) : float64 :=
  let weight := f64_one in
  match strconv_ParseFloat (param_q params) 64 with
  | (val, None) => val
  | (_, Some _) => weight
  end.

(** One iteration of the first loop (lines 174-186). *)
Definition consider (acceptable : list AcceptType) (v : string) : list AcceptType :=
  match mime_ParseMediaType v with
  | (_, _, Some _) => acceptable
  | (mediatype, params, None) =>
      (acceptable ++ [ {| MediaType := mediatype; RelativeWeight := weightOf params |} ])%list
  end.

Definition candidates (accept : string) : list AcceptType :=
  let options := strings.Split accept "," in
  fold_left consider options [].

(** The comparison function handed to the sort (lines 189-197). *)
Definition byWeight (a b : AcceptType) : Z :=
  if f64_gt (RelativeWeight a) (RelativeWeight b) then (-1)%Z
  else if f64_lt (RelativeWeight a) (RelativeWeight b) then 1%Z
  else 0%Z.

(** The [switch] of lines 200-207: [Some t] is [return t], [None] falls
    out of the switch to the next candidate. *)
Definition mapped (a : AcceptType) : option string :=
  let m := MediaType a in
  if (m =? "text/plain") || (m =? "*/*") then Some "text/plain"
  else if (m =? "text/html") || (m =? "application/xhtml+xml") then Some "text/html"
  else if (m =? "application/json") then Some "application/json"
  else None.

(** The second loop with the default of line 211. *)
Fixpoint firstSupported (acceptable : list AcceptType) : string :=
  match acceptable with
  | [] => "text/plain"
  | a :: rest =>
      match mapped a with
      | Some t => t
      | None => firstSupported rest
      end
  end.

Definition mostAcceptable (accept : string) : string :=
  let acceptable := candidates accept in
  let acceptable := slices_SortStableFunc acceptable byWeight in
  firstSupported acceptable.

End Negotiator.

(** The library as modelled above. *)
#[export] Instance go : GoLibrary := {|
  mime_ParseMediaType := mime.ParseMediaType;
  strconv_ParseFloat := strconv.ParseFloat;
  slices_SortStableFunc := @slices.SortStableFunc
|}.

(** ** Package net/http, as far as the handlers use it *)

Module http.

(** A request: the handlers read its path and its header. *)
Record Request := {
  Method : string;
  Path : string;
  Header : gmap string (list string)
}.

(** [Header.Get(key)]: the first value of the key, the empty string when
    there is none. *)
Definition Header_Get (h : gmap string (list string)) (key : string) : string :=
  match h !! key with
  | Some (v :: _) => v
  | _ => EmptyString
  end.

(** What a [ResponseWriter] has been given so far.  [code] is [None]
    until the header is written. *)
Record ResponseWriter := {
  header : gmap string string;
  code : option Z;
  body : string
}.

Definition newRecorder : ResponseWriter :=
  {| header := ∅; code := None; body := EmptyString |}.

Definition StatusOK : Z := 200.
Definition StatusNotAcceptable : Z := 406.

(** [w.Header().Set(key, value)] *)
Definition Header_Set (w : ResponseWriter) (key value : string) : ResponseWriter :=
  {| header := <[key := value]> (header w); code := code w; body := body w |}.

(** [w.Header().Del(key)] *)
Definition Header_Del (w : ResponseWriter) (key : string) : ResponseWriter :=
  {| header := delete key (header w); code := code w; body := body w |}.

(** [w.WriteHeader(code)]: the first call fixes the status. *)
Definition WriteHeader (w : ResponseWriter) (c : Z) : ResponseWriter :=
  {| header := header w;
     code := match code w with Some c0 => Some c0 | None => Some c end;
     body := body w |}.

(** [w.Write(b)]: writes the header with [StatusOK] when it has not been
    written.  (The [Content-Type] that the server derives from the first
    bytes written when the handler has set none is not modelled; the
    license handlers set theirs before they write.) *)
Definition Write (w : ResponseWriter) (b : string) : ResponseWriter :=
  let w := WriteHeader w StatusOK in
  {| header := header w; code := code w; body := body w ++ b |}.

(** [http.Error(w, error, code)] *)
Definition Error (w : ResponseWriter) (msg : string) (c : Z) : ResponseWriter :=
  let w := Header_Del w "Content-Length" in
  let w := Header_Set w "Content-Type" "text/plain; charset=utf-8" in
  let w := Header_Set w "X-Content-Type-Options" "nosniff" in
  let w := WriteHeader w c in
  Write w (msg ++ String "010" EmptyString).

Definition Handler := Request -> ResponseWriter -> ResponseWriter.

End http.

(** ** License data and its renderings *)

Record LicenseData := {
  Title : string;
  Text : string;
  URL : string
}.

(** [fmt.Errorf(msg + ": %w", err)] *)
Definition wrap (msg : string) (err : error) : error := msg ++ ": " ++ err.

(** ** Package encoding/json, at the type [LicenseData] *)

Module json.

Definition hex : string := "0123456789abcdef".

(** A backslash escape. *)
Definition escape (s : string) : string := String backslash s.

(** A member name between quotes. *)
Definition quoted (s : string) : string :=
  String quote (s ++ String quote EmptyString).

Definition hexDigit (z : Z) : byte :=
  match String.get (Z.to_nat z) hex with
  | Some c => c
  | None => "0"%char
  end.

(** [htmlSafeSet[b]] for [b < utf8.RuneSelf]: every ASCII byte but the
    control characters, the quote, the backslash and [<], [>], [&]. *)
Definition htmlSafeSet (b : Z) : bool :=
  ((32 <=? b) && negb ((b =? 34) || (b =? 92) || (b =? 60) || (b =? 62) || (b =? 38)))%Z.

(** The escape written for an ASCII byte outside [htmlSafeSet]. *)
Definition escapeByte (c : byte) : string :=
  let b := byte_val c in
  if ((b =? 92) || (b =? 34))%Z then escape (String c EmptyString)
  else if (b =? 8)%Z then escape "b"
  else if (b =? 12)%Z then escape "f"
  else if (b =? 10)%Z then escape "n"
  else if (b =? 13)%Z then escape "r"
  else if (b =? 9)%Z then escape "t"
  else escape ("u00" ++ String (hexDigit (Z.shiftr b 4))
                             (String (hexDigit (Z.land b 15)) EmptyString)).

(** The loop of [appendString] with [escapeHTML] set, without the
    surrounding quotes.  A byte that starts no valid UTF-8 sequence is
    written as the escape of U+FFFD; an encoder that writes the three
    bytes of U+FFFD in its place is read back to the same string
    ([unquote_replacement] below). *)
Fixpoint appendBody (fuel : nat) (src : string) : string :=
  match fuel, src with
  | S fuel', String c rest =>
      let b := byte_val c in
      if (b <? utf8.RuneSelf)%Z then
        (if htmlSafeSet b then String c EmptyString else escapeByte c)
          ++ appendBody fuel' rest
      else
        let '(r, size) := utf8.DecodeRuneInString src in
        if (r =? utf8.RuneError)%Z && (size =? 1)%nat then
          escape "ufffd" ++ appendBody fuel' (string_drop size src)
        else if ((r =? 8232) || (r =? 8233))%Z then
          escape ("u202" ++ String (hexDigit (Z.land r 15)) EmptyString)
            ++ appendBody fuel' (string_drop size src)
        else string_take size src ++ appendBody fuel' (string_drop size src)
  | _, _ => EmptyString
  end.

Definition appendString (src : string) : string :=
  String quote (appendBody (String.length src) src ++ String quote EmptyString).

(** [json.Marshal(l)] for a [LicenseData]: the fields in declaration
    order under the names of their tags.  No field of the struct can
    fail to encode, so the error is always [nil]. *)
Definition Marshal (l : LicenseData) : string * option error :=
  ("{" ++ quoted "title" ++ ":" ++ appendString (Title l)
     ++ "," ++ quoted "content" ++ ":" ++ appendString (Text l)
     ++ "," ++ quoted "url" ++ ":" ++ appendString (URL l) ++ "}", None).

End json.

Definition toJSON (l : LicenseData) : string * option error :=
  let '(b, err) := json.Marshal l in
  match err with
  | Some err => (EmptyString, Some (wrap "could not marshal JSON" err))
  | None => (b, None)
  end.

(** What a template is executed on: one license (the license page) or the
    list of all of them (the index page). *)
Inductive TemplateData :=
| OneLicense (l : LicenseData)
| AllLicenses (ls : list LicenseData).

(** A parsed template set, by what [ExecuteTemplate(buf, name, data)]
    does: the bytes written to [buf] and the error returned. *)
Record Template := {
  ExecuteTemplate : string -> TemplateData -> string * option error
}.

Definition toHTML (l : LicenseData) (tmpl : Template) : string * option error :=
  let '(buf, err) := ExecuteTemplate tmpl "license.html.tmpl" (OneLicense l) in
  match err with
  | Some err => (EmptyString, Some (wrap "could not render html template" err))
  | None => (buf, None)
  end.

(** ** Package path *)

Module path.

Fixpoint dropTrailingSlashes (r : string) : string :=
  match r with
  | String c r' => if Ascii.eqb c "/" then dropTrailingSlashes r' else r
  | EmptyString => r
  end.

(** The reversed last element of a reversed path. *)
Fixpoint lastElement (r : string) : string :=
  match r with
  | String c r' => if Ascii.eqb c "/" then EmptyString else String c (lastElement r')
  | EmptyString => EmptyString
  end.

(** [path.Base] *)
Definition Base (p : string) : string :=
  if p =? "" then "."
  else
    let r := dropTrailingSlashes (string_rev p) in
    let b := string_rev (lastElement r) in
    if b =? "" then "/" else b.

(** The loop of [path.Ext] on the reversed path; [acc] is the suffix
    scanned so far. *)
Fixpoint extLoop (r : string) (acc : string) : string :=
  match r with
  | String c r' =>
      if Ascii.eqb c "/" then EmptyString
      else if Ascii.eqb c "." then String c acc
      else extLoop r' (String c acc)
  | EmptyString => EmptyString
  end.

(** [path.Ext] *)
Definition Ext (p : string) : string := extLoop (string_rev p) EmptyString.

End path.

(** [strings.TrimSuffix(s, suffix)] *)
Definition TrimSuffix (s suffix : string) : string :=
  let n := String.length s - String.length suffix in
  if (String.length suffix <=? String.length s)%nat && (string_drop n s =? suffix)
  then string_take n s else s.

Definition pathToTitle (lpath : string) : string :=
  TrimSuffix (path.Base lpath) (path.Ext lpath).

Definition pathToURL (lpath : string) : string :=
  "/" ++ strings.ToLower (pathToTitle lpath).

(** ** Handlers and start-up *)

(** The embedded file trees and the template parser, by the results of the
    calls [appHandler] makes on them. *)
Record Embedded := {
  (** [template.ParseFS(templatesFS, "templates/*.tmpl")] *)
  template_ParseFS : Template + error;
  (** [fs.Sub(publicFS, "public")], already wrapped in [http.FileServer] *)
  fs_Sub : http.Handler + error;
  (** [fs.Glob(licensesFS, "licenses/*.txt")] *)
  fs_Glob : list string + error;
  (** [fs.ReadFile(licensesFS, lpath)] *)
  fs_ReadFile : string -> string + error
}.

(** [http.ServeMux]: the registered patterns with their handlers, in the
    order of registration.  ([Handle] panics on a malformed or conflicting
    pattern; a panic is not an error return and is left out.) *)
Definition ServeMux := list (string * http.Handler).

Definition Handle (mux : ServeMux) (pattern : string) (h : http.Handler) : ServeMux :=
  (mux ++ [(pattern, h)])%list.

Section Handlers.
Context `{GoLibrary}.

(** The closure built at lines 118-134. *)
Definition licenseHandler (plainData htmlData jsonData : string) : http.Handler :=
  fun r w =>
    let mediatype := mostAcceptable (http.Header_Get (http.Header r) "Accept") in
    if mediatype =? "text/plain" then
      http.Write (http.Header_Set w "Content-Type" "text/plain") plainData
    else if mediatype =? "text/html" then
      http.Write (http.Header_Set w "Content-Type" "text/html") htmlData
    else if mediatype =? "application/json" then
      http.Write (http.Header_Set w "Content-Type" "application/json") jsonData
    else
      http.Error w ("unrecognized media type: " ++ mediatype) http.StatusNotAcceptable.

Definition handlerFor (lpath : string) (licenses : string -> string + error)
                      (tmpl : Template) : http.Handler * LicenseData + error :=
  match licenses lpath with
  | inr err => inr (wrap "could not read license" err)
  | inl plainData =>
      let l := {| Title := pathToTitle lpath; Text := plainData; URL := pathToURL lpath |} in
      match toHTML l tmpl with
      | (_, Some err) => inr (wrap "could not render HTML" err)
      | (htmlData, None) =>
          match toJSON l with
          | (_, Some err) => inr (wrap "could not render JSON" err)
          | (jsonData, None) => inl (licenseHandler plainData htmlData jsonData, l)
          end
      end
  end.

(** [newPublicHandler]: the error of [ExecuteTemplate] is not looked at. *)
Definition newPublicHandler (fileserver : http.Handler) (tmpl : Template)
                            (supported : list LicenseData) : http.Handler :=
  let '(buf, _) := ExecuteTemplate tmpl "index.html.tmpl" (AllLicenses supported) in
  fun r w =>
    if http.Path r =? "/" then http.Write w buf
    else fileserver r w.

(** The loop of [appHandler] over the license paths. *)
Fixpoint registerLicenses (licenses : list string) (e : Embedded) (tmpl : Template)
                          (mux : ServeMux) (supported : list LicenseData)
  : ServeMux * list LicenseData + error :=
  match licenses with
  | [] => inl (mux, supported)
  | lpath :: rest =>
      match handlerFor lpath (fs_ReadFile e) tmpl with
      | inr err => inr (wrap "could not init handler" err)
      | inl (h, data) =>
          registerLicenses rest e tmpl (Handle mux ("GET " ++ URL data) h)
                           (supported ++ [data])%list
      end
  end.

Definition appHandler (e : Embedded) : ServeMux + error :=
  match template_ParseFS e with
  | inr err => inr (wrap "could not parse templates" err)
  | inl tmpl =>
      match fs_Sub e with
      | inr err => inr (wrap "could not subsystem public assets" err)
      | inl public =>
          match fs_Glob e with
          | inr err => inr (wrap "could not glob licenses" err)
          | inl licenses =>
              match registerLicenses licenses e tmpl [] [] with
              | inr err => inr err
              | inl (mux, supported) =>
                  inl (Handle mux "/" (newPublicHandler public tmpl supported))
              end
          end
      end
  end.

End Handlers.

(** ** What the negotiator is compared with *)

(** The candidate the second loop stops at, when there is one. *)
Definition supported (a : AcceptType) : bool :=
  match mapped a with Some _ => true | None => false end.

Definition winner `{GoLibrary} (accept : string) : option AcceptType :=
  List.find supported (slices_SortStableFunc (candidates accept) byWeight).

(** The choice as the specification words it: among the supported
    candidates the one of highest weight, the earliest listed of them when
    several share it. *)
Fixpoint preferred (l : list AcceptType) (best : option AcceptType) : option AcceptType :=
  match l with
  | [] => best
  | a :: rest =>
      if supported a then
        match best with
        | None => preferred rest (Some a)
        | Some b =>
            if f64_gt (RelativeWeight a) (RelativeWeight b)
            then preferred rest (Some a) else preferred rest best
        end
      else preferred rest best
  end.

Definition resolve_spec (l : list AcceptType) : string :=
  match preferred l None with
  | Some a => default "text/plain" (mapped a)
  | None => "text/plain"
  end.

(** A weight inside the interval [0,1]. *)
Definition f64_zero : float64 := S754_zero false.

Definition inUnitInterval (f : float64) : bool := SFleb f64_zero f && SFleb f f64_one.

Definition noNaN (l : list AcceptType) : Prop :=
  Forall (fun a => is_nan (RelativeWeight a) = false) l.

(** The header with the tokens that do not parse taken out. *)
Definition parses `{GoLibrary} (v : string) : bool :=
  match mime_ParseMediaType v with
  | (_, _, None) => true
  | (_, _, Some _) => false
  end.

Definition withoutUnparseable `{GoLibrary} (accept : string) : string :=
  strings.Join (List.filter parses (strings.Split accept ",")) ",".

(** ** What is assumed of the library, where a statement is made for every
    implementation of it *)

Section Contract.
Context {E : Type} (cmp : E -> E -> Z).

Definition less (a b : E) : bool := (cmp a b <? 0)%Z.

(** Neither is less than the other: the elements a stable sort keeps in
    their original order. *)
Definition equivalent (a b : E) : bool := negb (less a b) && negb (less b a).

(** [cmp] is a strict weak ordering on the elements of [x], the
    requirement [slices.SortFunc] documents. *)
Definition StrictWeakOn (x : list E) : Prop :=
  (forall a, In a x -> less a a = false) /\
  (forall a b c, In a x -> In b x -> In c x ->
     less a b = true -> less b c = true -> less a c = true) /\
  (forall a b c, In a x -> In b x -> In c x ->
     equivalent a b = true -> equivalent b c = true -> equivalent a c = true).

(** No element is less than one before it. *)
Definition Ordered (out : list E) : Prop :=
  forall i j a b, (i < j)%nat -> out !! i = Some a -> out !! j = Some b ->
    less b a = false.

(** [out] is [x] stably sorted. *)
Definition StablySorted (x out : list E) : Prop :=
  Permutation out x /\ Ordered out /\
  forall e, In e x ->
    List.filter (equivalent e) out = List.filter (equivalent e) x.

End Contract.

(** The sort only rearranges. *)
Definition SortPermutes `{GoLibrary} : Prop :=
  forall (E : Type) (x : list E) (cmp : E -> E -> Z),
    Permutation (slices_SortStableFunc x cmp) x.

(** The sort is a stable sort wherever its requirement is met. *)
Definition SortStable `{GoLibrary} : Prop :=
  forall (E : Type) (x : list E) (cmp : E -> E -> Z),
    StrictWeakOn cmp x -> StablySorted cmp x (slices_SortStableFunc x cmp).

(** The empty string is not a media type. *)
Definition EmptyTokenFails `{GoLibrary} : Prop :=
  parses EmptyString = false.

(** The empty string is not a number. *)
Definition EmptyNumberFails `{GoLibrary} : Prop :=
  (strconv_ParseFloat EmptyString 64).2 <> None.

(** [c] does not occur in [s]. *)
Fixpoint noByte (c : byte) (s : string) : bool :=
  match s with
  | EmptyString => true
  | String d s' => negb (Ascii.eqb d c) && noByte c s'
  end.

Arguments noByte c%_char s.

(** What one token contributes to the candidate list. *)
Definition candidateOf `{GoLibrary} (v : string) : list AcceptType := consider [] v.

(** The place of a float64 that is not NaN in the order of [SFcompare]:
    sign class first, then exponent, then mantissa. *)
Definition orderKey (f : float64) : Z * Z * Z :=
  match f with
  | S754_infinity true => (-2, 0, 0)%Z
  | S754_finite true m e => (-1, - e, Z.neg m)%Z
  | S754_zero _ => (0, 0, 0)%Z
  | S754_nan => (0, 0, 0)%Z
  | S754_finite false m e => (1, e, Z.pos m)%Z
  | S754_infinity false => (2, 0, 0)%Z
  end.

Definition keyLt (k1 k2 : Z * Z * Z) : Prop :=
  let '(a1, b1, c1) := k1 in
  let '(a2, b2, c2) := k2 in
  (a1 < a2 \/ (a1 = a2 /\ (b1 < b2 \/ (b1 = b2 /\ c1 < c2))))%Z.

(** ** Functional counterparts of the in-place steps of the sort *)

Section SortSpec.
Context {E : Type} (cmp : E -> E -> Z).

(** Insertion of [x] at the end of a sorted run kept in reverse: [x]
    moves past the elements it is less than. *)
Fixpoint insertRev (r : list E) (x : E) : list E :=
  match r with
  | [] => [x]
  | y :: r' => if less cmp x y then y :: insertRev r' x else x :: r
  end.

(** Stable merge of two runs: the head of the second run goes first only
    when it is less than the head of the first. *)
Fixpoint merge (l1 : list E) : list E -> list E :=
  fix merge_l1 (l2 : list E) : list E :=
    match l1, l2 with
    | [], _ => l2
    | _, [] => l1
    | a :: l1', b :: l2' =>
        if less cmp b a then b :: merge_l1 l2' else a :: merge l1' l2
    end.

(** [data[a:b]] *)
Definition sub (data : list E) (a b : nat) : list E := take (b - a) (drop a data).

(** Insertion sort of one block. *)
Definition insertionSorted (l : list E) : list E :=
  rev (fold_left insertRev l []).

End SortSpec.

(** One round over the runs of a slice: adjacent runs are combined two by
    two, a last full run with the shorter remainder. *)
Fixpoint pairUp {E : Type} (op : list E -> list E -> list E)
                (full : list (list E)) (last : list E) : list (list E) * list E :=
  match full with
  | c1 :: c2 :: rest => let '(f, l) := pairUp op rest last in (op c1 c2 :: f, l)
  | [c] => ([], op c last)
  | [] => ([], last)
  end.

(** [out] is [x] stably sorted, the elements compared being those of [U]. *)
Definition StableWithin {E : Type} (cmp : E -> E -> Z) (U x out : list E) : Prop :=
  Permutation out x /\ Ordered cmp out /\
  forall e, In e U ->
    List.filter (equivalent cmp e) out = List.filter (equivalent cmp e) x.

(** Runs of length [bs] and a shorter remainder, each ordered and made of
    elements of [U]. *)
Definition RunsOk {E : Type} (cmp : E -> E -> Z) (U : list E) (bs : nat)
                  (full : list (list E)) (last : list E) : Prop :=
  Forall (fun c => length c = bs /\ Ordered cmp c /\ forall z, In z c -> In z U) full /\
  (length last < bs)%nat /\ Ordered cmp last /\ (forall z, In z last -> In z U).

(** A request carrying one [Accept] header value. *)
Definition requestAccepting (accept : string) : http.Request :=
  {| http.Method := "GET"; http.Path := "/mit";
     http.Header := {[ "Accept" := [accept] ]} |}.

(** ** A start-up whose index page does not render *)

(** A template set in which [license.html.tmpl] renders and
    [index.html.tmpl] fails during execution. *)
Definition indexFails : Template :=
  {| ExecuteTemplate name data :=
       if name =? "index.html.tmpl" then
         ("<ul>", Some "template: index.html.tmpl: can't evaluate field Name")
       else ("<h1>license</h1>", None) |}.

Definition noFiles : http.Handler :=
  fun r w => http.Error w "404 page not found" 404.

(** One readable license, every other start-up step succeeding. *)
Definition indexFailsStartup : Embedded :=
  {| template_ParseFS := inl indexFails;
     fs_Sub := inl noFiles;
     fs_Glob := inl ["licenses/MIT.txt"];
     fs_ReadFile := fun _ => inl "MIT License text" |}.

(** [err == nil] for the result of [appHandler]. *)
Definition startsServing (res : ServeMux + error) : bool :=
  match res with inl _ => true | inr _ => false end.

(** ** Decoding JSON: an object whose members are strings *)

Module utf16.

(** [utf16.IsSurrogate] *)
Definition IsSurrogate (r : Z) : bool := ((55296 <=? r) && (r <? 57344))%Z.

(** [utf16.DecodeRune] *)
Definition DecodeRune (r1 r2 : Z) : Z :=
  if ((55296 <=? r1) && (r1 <? 56320) && (56320 <=? r2) && (r2 <? 57344))%Z
  then (Z.lor (Z.shiftl (r1 - 55296) 10) (r2 - 56320) + 65536)%Z
  else utf8.RuneError.

End utf16.

Module jsondec.

(** The value of four hexadecimal digits, as [getu4] reads them. *)
Definition hex4 (h1 h2 h3 h4 : byte) : option Z :=
  if mime.ishex h1 && mime.ishex h2 && mime.ishex h3 && mime.ishex h4 then
    Some (((mime.unhex h1 * 16 + mime.unhex h2) * 16 + mime.unhex h3) * 16
          + mime.unhex h4)%Z
  else None.

Definition emit (piece : string) (r : option (string * string)) : option (string * string) :=
  match r with
  | Some (t, rest) => Some (piece ++ t, rest)
  | None => None
  end.

(** The body of a string literal, after its opening quote, decoded as
    [unquote] of encoding/json does: escapes are resolved, a byte that
    does not start a valid UTF-8 sequence becomes U+FFFD.  The result is
    the decoded string and the input after the closing quote; [None] is a
    syntax error. *)
Fixpoint unquoteBody (s : string) : option (string * string) :=
  match s with
  | EmptyString => None
  | String c rest =>
      if Ascii.eqb c quote then Some (EmptyString, rest)
      else if Ascii.eqb c backslash then
        match rest with
        | EmptyString => None
        | String e rest' =>
            if Ascii.eqb e quote || Ascii.eqb e backslash || Ascii.eqb e "/"
               || Ascii.eqb e "'" then emit (String e EmptyString) (unquoteBody rest')
            else if Ascii.eqb e "b" then emit (String "008" EmptyString) (unquoteBody rest')
            else if Ascii.eqb e "f" then emit (String "012" EmptyString) (unquoteBody rest')
            else if Ascii.eqb e "n" then emit (String "010" EmptyString) (unquoteBody rest')
            else if Ascii.eqb e "r" then emit (String "013" EmptyString) (unquoteBody rest')
            else if Ascii.eqb e "t" then emit (String "009" EmptyString) (unquoteBody rest')
            else if Ascii.eqb e "u" then
              match rest' with
              | String h1 (String h2 (String h3 (String h4 rest2))) =>
                  match hex4 h1 h2 h3 h4 with
                  | None => None
                  | Some rr =>
                      if utf16.IsSurrogate rr then
                        let replaced :=
                          emit (utf8.EncodeRune utf8.RuneError) (unquoteBody rest2) in
                        match rest2 with
                        | String b2 (String u2 (String g1 (String g2 (String g3
                            (String g4 rest3))))) =>
                            if Ascii.eqb b2 backslash && Ascii.eqb u2 "u" then
                              match hex4 g1 g2 g3 g4 with
                              | Some rr1 =>
                                  let dec := utf16.DecodeRune rr rr1 in
                                  if negb (dec =? utf8.RuneError)%Z
                                  then emit (utf8.EncodeRune dec) (unquoteBody rest3)
                                  else replaced
                              | None => replaced
                              end
                            else replaced
                        | _ => replaced
                        end
                      else emit (utf8.EncodeRune rr) (unquoteBody rest2)
                  end
              | _ => None
              end
            else None
        end
      else if (byte_val c <? 32)%Z then None
      else if (byte_val c <? utf8.RuneSelf)%Z then
        emit (String c EmptyString) (unquoteBody rest)
      else
        let '(rr, size) := utf8.DecodeRuneInString s in
        match size, rest with
        | 2%nat, String _ t => emit (utf8.EncodeRune rr) (unquoteBody t)
        | 3%nat, String _ (String _ t) => emit (utf8.EncodeRune rr) (unquoteBody t)
        | 4%nat, String _ (String _ (String _ t)) => emit (utf8.EncodeRune rr) (unquoteBody t)
        | _, _ => emit (utf8.EncodeRune rr) (unquoteBody rest)
        end
  end.

Definition isSpace (c : byte) : bool :=
  Ascii.eqb c " " || Ascii.eqb c "009" || Ascii.eqb c "013" || Ascii.eqb c "010".

Fixpoint skipSpace (s : string) : string :=
  match s with
  | String c rest => if isSpace c then skipSpace rest else s
  | EmptyString => s
  end.

(** A string literal at the head of the input, after white space. *)
Definition literal (s : string) : option (string * string) :=
  match skipSpace s with
  | String c rest => if Ascii.eqb c quote then unquoteBody rest else None
  | EmptyString => None
  end.

(** The members of an object after its opening brace, the first one
    being present: [name : value] separated by commas, up to the closing
    brace, which must end the input. *)
Fixpoint members (fuel : nat) (s : string) : option (list (string * string)) :=
  match fuel with
  | O => None
  | S fuel' =>
      match literal s with
      | None => None
      | Some (name, s) =>
          match skipSpace s with
          | String c s =>
              if negb (Ascii.eqb c ":") then None
              else
                match literal s with
                | None => None
                | Some (value, s) =>
                    match skipSpace s with
                    | String d s =>
                        if Ascii.eqb d "," then
                          option_map (cons (name, value)) (members fuel' s)
                        else if Ascii.eqb d "}" then
                          match skipSpace s with
                          | EmptyString => Some [(name, value)]
                          | String _ _ => None
                          end
                        else None
                    | EmptyString => None
                    end
                end
          | EmptyString => None
          end
      end
  end.

(** A JSON text that is an object of strings, as the list of its members
    in order. *)
Definition decodeObject (s : string) : option (list (string * string)) :=
  match skipSpace s with
  | String c rest =>
      if negb (Ascii.eqb c "{") then None
      else
        match skipSpace rest with
        | String d rest' =>
            if Ascii.eqb d "}" then
              match skipSpace rest' with
              | EmptyString => Some []
              | String _ _ => None
              end
            else members (String.length rest) rest
        | EmptyString => None
        end
  | EmptyString => None
  end.

End jsondec.

(** Each byte of [s] that does not start a valid UTF-8 sequence replaced
    by the encoding of U+FFFD: what encoding/json makes of a Go string. *)
Fixpoint coerced (fuel : nat) (s : string) : string :=
  match fuel, s with
  | S fuel', String _ _ =>
      let '(r, size) := utf8.DecodeRuneInString s in
      if (r =? utf8.RuneError)%Z && (size =? 1)%nat then
        utf8.EncodeRune utf8.RuneError ++ coerced fuel' (string_drop size s)
      else string_take size s ++ coerced fuel' (string_drop size s)
  | _, _ => EmptyString
  end.

Definition toValidUTF8 (s : string) : string := coerced (String.length s) s.

(** [utf8.ValidString] *)
Fixpoint validLoop (fuel : nat) (s : string) : bool :=
  match fuel, s with
  | S fuel', String _ _ =>
      let '(r, size) := utf8.DecodeRuneInString s in
      if (r =? utf8.RuneError)%Z && (size =? 1)%nat then false
      else validLoop fuel' (string_drop size s)
  | _, _ => true
  end.

Definition ValidString (s : string) : bool := validLoop (String.length s) s.

(** ** The start-up in closed form *)

(** The data of the license at [lpath], as [handlerFor] builds it from a
    readable file. *)
Definition licenseOf (e : Embedded) (lpath : string) : LicenseData :=
  {| Title := pathToTitle lpath;
     Text := match fs_ReadFile e lpath with inl t => t | inr _ => EmptyString end;
     URL := pathToURL lpath |}.

(** The pattern and the handler registered for it. *)
Definition routeOf `{GoLibrary} (e : Embedded) (tmpl : Template) (lpath : string)
  : string * http.Handler :=
  let l := licenseOf e lpath in
  ("GET " ++ URL l, licenseHandler (Text l) (fst (toHTML l tmpl)) (fst (toJSON l))).

(** The file of the license can be read and its page renders. *)
Definition licenseReady (e : Embedded) (tmpl : Template) (lpath : string) : bool :=
  match fs_ReadFile e lpath with
  | inl _ =>
      match snd (toHTML (licenseOf e lpath) tmpl) with
      | None => true
      | Some _ => false
      end
  | inr _ => false
  end.

(** A template set for the examples: a license page and an index of the
    license URLs. *)
Definition pages : Template :=
  {| ExecuteTemplate name data :=
       match data with
       | OneLicense l => ("<h1>" ++ Title l ++ "</h1><pre>" ++ Text l ++ "</pre>", None)
       | AllLicenses ls => (strings.Join (List.map URL ls) " ", None)
       end |}.

(** Two license files, everything at start-up succeeding. *)
Definition twoLicenses : Embedded :=
  {| template_ParseFS := inl pages;
     fs_Sub := inl noFiles;
     fs_Glob := inl ["licenses/Apache-2.0.txt"; "licenses/MIT.txt"];
     fs_ReadFile := fun lpath =>
       if lpath =? "licenses/MIT.txt" then inl "MIT License text"
       else if lpath =? "licenses/Apache-2.0.txt" then inl "Apache License"
       else inr "file does not exist" |}.

(** A request for [path] carrying one [Accept] header value. *)
Definition requestFor (method path accept : string) : http.Request :=
  {| http.Method := method; http.Path := path;
     http.Header := {[ "Accept" := [accept] ]} |}.

(** ** Bytes that can stand in a script element *)

(** Neither a control character nor one of [<], [>], [&]. *)
Definition htmlSafeByte (c : byte) : bool :=
  let b := byte_val c in
  ((32 <=? b) && negb ((b =? 60) || (b =? 62) || (b =? 38)))%Z.

(** ** The listening address *)

Module os.


End os.


(** ** Logging *)

(** The interface [http.ResponseWriter]: the calls a handler makes on the
    writer it is given ([Header().Set], [Header().Del], [WriteHeader],
    [Write]), each returning the writer after the call. *)
Class Writer (W : Type) := {
  w_HeaderSet : W -> string -> string -> W;
  w_HeaderDel : W -> string -> W;
  w_WriteHeader : W -> Z -> W;
  w_Write : W -> string -> W
}.

(** The writer of the server, as modelled in [http]. *)
#[export] Instance recorder_Writer : Writer http.ResponseWriter := {|
  w_HeaderSet := http.Header_Set;
  w_HeaderDel := http.Header_Del;
  w_WriteHeader := http.WriteHeader;
  w_Write := http.Write
|}.

(** The struct of lines 230-233: the embedded writer and the code. *)
Record loggingResponseWriter (W : Type) := {
  ResponseWriter : W;
  code : Z
}.

Arguments ResponseWriter {W} _.
Arguments code {W} _.

(** The method of lines 235-238. *)
Definition loggingResponseWriter_WriteHeader {W : Type} `{Writer W}
    (l : loggingResponseWriter W) (c : Z) : loggingResponseWriter W :=
  let l := {| ResponseWriter := ResponseWriter l; code := c |} in
  {| ResponseWriter := w_WriteHeader (ResponseWriter l) c; code := code l |}.

(** A method promoted from the embedded writer: the call goes to that
    writer, the code is not touched. *)
Definition promoted {W : Type} (call : W -> W) (l : loggingResponseWriter W)
  : loggingResponseWriter W :=
  {| ResponseWriter := call (ResponseWriter l); code := code l |}.

#[export] Instance logging_Writer {W : Type} `{Writer W}
  : Writer (loggingResponseWriter W) := {|
  w_HeaderSet l key value := promoted (fun w => w_HeaderSet w key value) l;
  w_HeaderDel l key := promoted (fun w => w_HeaderDel w key) l;
  w_WriteHeader := loggingResponseWriter_WriteHeader;
  w_Write l b := promoted (fun w => w_Write w b) l
|}.

(** A handler written against the interface. *)
Definition HandlerOn := forall (W : Type), Writer W -> http.Request -> W -> W.

(** [http.Error] against the interface. *)
Definition ErrorOn {W : Type} `{Writer W} (w : W) (msg : string) (c : Z) : W :=
  let w := w_HeaderDel w "Content-Length" in
  let w := w_HeaderSet w "Content-Type" "text/plain; charset=utf-8" in
  let w := w_HeaderSet w "X-Content-Type-Options" "nosniff" in
  let w := w_WriteHeader w c in
  w_Write w (msg ++ String "010" EmptyString).

(** The closure of lines 118-134 against the interface. *)
Definition licenseHandlerOn `{GoLibrary} (plainData htmlData jsonData : string)
  : HandlerOn :=
  fun W _ r w =>
    let mediatype := mostAcceptable (http.Header_Get (http.Header r) "Accept") in
    if mediatype =? "text/plain" then
      w_Write (w_HeaderSet w "Content-Type" "text/plain") plainData
    else if mediatype =? "text/html" then
      w_Write (w_HeaderSet w "Content-Type" "text/html") htmlData
    else if mediatype =? "application/json" then
      w_Write (w_HeaderSet w "Content-Type" "application/json") jsonData
    else
      ErrorOn w ("unrecognized media type: " ++ mediatype) http.StatusNotAcceptable.

(** [%d] of an [int]. *)
Definition fmt_d (z : Z) : string :=
  if (z <? 0)%Z then "-" ++ mime.itoa (Z.to_nat (- z)) else mime.itoa (Z.to_nat z).

(** The message of [log.Printf("%s [%d] %s", method, code, url)], without
    the time stamp the logger writes before it. *)
Definition logMessage (method : string) (c : Z) (url : string) : string :=
  method ++ " [" ++ fmt_d c ++ "] " ++ url.

(** [withLogging] (lines 240-248).  The messages logged so far are passed
    along; [URL_String] stands for [r.URL.String()]. *)
Definition withLogging (URL_String : http.Request -> string) (next : HandlerOn)
    (W : Type) `{Writer W} (r : http.Request) (w : W) (logged : list string)
  : W * list string :=
  let lrw := {| ResponseWriter := w; code := 200 |} in
  let lrw := next (loggingResponseWriter W) _ r lrw in
  (ResponseWriter lrw,
   (logged ++ [logMessage (http.Method r) (code lrw) (URL_String r)])%list).

(** The calls a handler can make on a writer, and the handler that makes
    a sequence of them chosen by the request. *)
Inductive WriterCall :=
| CallHeaderSet (key value : string)
| CallHeaderDel (key : string)
| CallWriteHeader (c : Z)
| CallWrite (b : string).

Definition call {W : Type} `{Writer W} (w : W) (c : WriterCall) : W :=
  match c with
  | CallHeaderSet key value => w_HeaderSet w key value
  | CallHeaderDel key => w_HeaderDel w key
  | CallWriteHeader c => w_WriteHeader w c
  | CallWrite b => w_Write w b
  end.

Definition calls (cs : http.Request -> list WriterCall) : HandlerOn :=
  fun W _ r w => fold_left call (cs r) w.

(** The argument of the last [WriteHeader] among the calls, [d] when
    there is none. *)
Fixpoint lastCode (cs : list WriterCall) (d : Z) : Z :=
  match cs with
  | [] => d
  | CallWriteHeader c :: cs' => lastCode cs' c
  | _ :: cs' => lastCode cs' d
  end.

(** The error [handlerFor] returns for a license that is not ready: the
    file is read first, the page rendered second. *)
Definition licenseError (e : Embedded) (tmpl : Template) (lpath : string) : error :=
  match fs_ReadFile e lpath with
  | inr err => wrap "could not read license" err
  | inl _ =>
      match snd (ExecuteTemplate tmpl "license.html.tmpl" (OneLicense (licenseOf e lpath))) with
      | Some err => wrap "could not render HTML" (wrap "could not render html template" err)
      | None => EmptyString
      end
  end.

(** A template set whose license page fails for the license [WTFPL]. *)
Definition failsOnWTFPL : Template :=
  {| ExecuteTemplate name data :=
       match data with
       | OneLicense l =>
           if Title l =? "WTFPL" then ("<h1>", Some "template: no such field")
           else ("<h1>" ++ Title l ++ "</h1>", None)
       | AllLicenses ls => (EmptyString, None)
       end |}.

(** Three license files, the second of which cannot be read and the
    third of which does not render. *)
Definition brokenLicenses : Embedded :=
  {| template_ParseFS := inl failsOnWTFPL;
     fs_Sub := inl noFiles;
     fs_Glob := inl ["licenses/MIT.txt"; "licenses/GPL.txt"; "licenses/WTFPL.txt"];
     fs_ReadFile := fun lpath =>
       if lpath =? "licenses/GPL.txt" then inr "permission denied"
       else inl "license text" |}.

(** Every step of the start-up that can return an error succeeds: the
    templates parse, the public tree and the glob are obtained, every
    license of the glob is ready. *)
Definition startupReady (e : Embedded) : bool :=
  match template_ParseFS e, fs_Sub e, fs_Glob e with
  | inl tmpl, inl _, inl licenses => forallb (licenseReady e tmpl) licenses
  | _, _, _ => false
  end.

(** * Properties *)

(** ** Splitting and joining *)

Lemma Split_nonempty s c : strings.Split s c <> [].
Proof.
  destruct s as [|d s]; simpl; [discriminate|].
  destruct (Ascii.eqb d c); [discriminate|].
  destruct (strings.Split s c); discriminate.
Qed.

Lemma Split_noByte s c : Forall (fun t => noByte c t = true) (strings.Split s c).
Proof.
  induction s as [|d s IH]; simpl.
  - repeat constructor.
  - destruct (Ascii.eqb d c) eqn:Hd.
    + constructor; [reflexivity|exact IH].
    + destruct (strings.Split s c) as [|t ts].
      * repeat constructor. simpl. now rewrite Hd.
      * inversion IH; subst. constructor; [|assumption].
        simpl. rewrite Hd. simpl. assumption.
Qed.

Lemma Split_app_sep t c s :
  noByte c t = true ->
  strings.Split (t ++ String c s) c = t :: strings.Split s c.
Proof.
  induction t as [|d t IH]; simpl; intros Ht.
  - now rewrite Ascii.eqb_refl.
  - apply andb_prop in Ht as [Hd Ht]. apply negb_true_iff in Hd.
    rewrite Hd, (IH Ht). reflexivity.
Qed.

Lemma Split_single t c : noByte c t = true -> strings.Split t c = [t].
Proof.
  induction t as [|d t IH]; simpl; intros Ht; [reflexivity|].
  apply andb_prop in Ht as [Hd Ht]. apply negb_true_iff in Hd.
  rewrite Hd, (IH Ht). reflexivity.
Qed.

Lemma Split_Join ts c :
  ts <> [] -> Forall (fun t => noByte c t = true) ts ->
  strings.Split (strings.Join ts c) c = ts.
Proof.
  induction ts as [|t ts IH]; intros Hne Hall; [congruence|].
  inversion Hall as [|? ? Ht Hts]; subst.
  destruct ts as [|u ts].
  - simpl. now apply Split_single.
  - change (strings.Join (t :: u :: ts) c)
      with (t ++ String c (strings.Join (u :: ts) c)).
    rewrite Split_app_sep by assumption.
    rewrite IH; [reflexivity|discriminate|assumption].
Qed.

(** ** The two loops of the negotiator *)

Section NegotiatorFacts.
Context `{GoLibrary}.

Lemma consider_app acc v : consider acc v = (acc ++ candidateOf v)%list.
Proof.
  unfold candidateOf, consider.
  destruct (mime_ParseMediaType v) as [[m ps] [e|]]; simpl; [|reflexivity].
  now rewrite app_nil_r.
Qed.

Lemma fold_consider options acc :
  fold_left consider options acc = (acc ++ flat_map candidateOf options)%list.
Proof.
  revert acc. induction options as [|v vs IH]; intros acc; simpl.
  - now rewrite app_nil_r.
  - rewrite IH, consider_app, <- app_assoc. reflexivity.
Qed.

Lemma candidates_flat_map accept :
  candidates accept = flat_map candidateOf (strings.Split accept ",").
Proof. unfold candidates. now rewrite fold_consider. Qed.

Lemma candidateOf_unparseable v : parses v = false -> candidateOf v = [].
Proof.
  unfold parses, candidateOf, consider.
  destruct (mime_ParseMediaType v) as [[m ps] [e|]]; [reflexivity|discriminate].
Qed.

Lemma flat_map_filter_parses vs :
  flat_map candidateOf (List.filter parses vs) = flat_map candidateOf vs.
Proof.
  induction vs as [|v vs IH]; simpl; [reflexivity|].
  destruct (parses v) eqn:Hv; simpl.
  - now rewrite IH.
  - now rewrite (candidateOf_unparseable v Hv), IH.
Qed.

Lemma flat_map_all_unparseable vs :
  List.filter parses vs = [] -> flat_map candidateOf vs = [].
Proof.
  intros Hf. rewrite <- flat_map_filter_parses, Hf. reflexivity.
Qed.

Lemma candidates_withoutUnparseable accept :
  EmptyTokenFails ->
  candidates (withoutUnparseable accept) = candidates accept.
Proof.
  intros Hempty. rewrite !candidates_flat_map. unfold withoutUnparseable.
  destruct (List.filter parses (strings.Split accept ",")) as [|t ts] eqn:Hf.
  - simpl. rewrite (candidateOf_unparseable _ Hempty).
    now rewrite (flat_map_all_unparseable _ Hf).
  - rewrite Split_Join.
    + rewrite <- Hf. apply flat_map_filter_parses.
    + discriminate.
    + rewrite <- Hf. apply List.Forall_forall. intros u Hu.
      apply List.filter_In in Hu as [Hu _].
      pose proof (Split_noByte accept ","%char) as Hall.
      rewrite List.Forall_forall in Hall. now apply Hall.
Qed.

Lemma mapped_closed a t :
  mapped a = Some t ->
  t = "text/plain" \/ t = "text/html" \/ t = "application/json".
Proof.
  unfold mapped.
  repeat match goal with
         | |- context [if ?b then _ else _] => destruct b
         end; intros [= <-]; auto.
Qed.

Lemma firstSupported_closed l :
  firstSupported l = "text/plain" \/ firstSupported l = "text/html"
  \/ firstSupported l = "application/json".
Proof.
  induction l as [|a l IH]; simpl; [auto|].
  destruct (mapped a) as [t|] eqn:Ha; [|exact IH].
  now apply mapped_closed with a.
Qed.

Lemma firstSupported_find l :
  firstSupported l =
    match List.find supported l with
    | Some a => default "text/plain" (mapped a)
    | None => "text/plain"
    end.
Proof.
  induction l as [|a l IH]; simpl; [reflexivity|].
  unfold supported at 1. destruct (mapped a) as [t|] eqn:Ha; simpl.
  - now rewrite Ha.
  - exact IH.
Qed.

Lemma firstSupported_none l :
  Forall (fun a => mapped a = None) l -> firstSupported l = "text/plain".
Proof.
  induction 1 as [|a l Ha _ IH]; simpl; [reflexivity|]. now rewrite Ha.
Qed.

Lemma mostAcceptable_winner accept :
  mostAcceptable accept =
    match winner accept with
    | Some a => default "text/plain" (mapped a)
    | None => "text/plain"
    end.
Proof. unfold mostAcceptable, winner. apply firstSupported_find. Qed.

End NegotiatorFacts.

(** ** The sort of the library model only swaps *)

Section SortPermutation.
Context {E : Type} (cmp : E -> E -> Z).

Lemma swap_Permutation (data : list E) i j :
  Permutation (slices.swap data i j) data.
Proof.
  unfold slices.swap.
  destruct (data !! i) as [x|] eqn:Hi; [|reflexivity].
  destruct (data !! j) as [y|] eqn:Hj; [|reflexivity].
  now apply Permutation_insert_swap.
Qed.

Lemma fold_Permutation {I : Type} (f : list E -> I -> list E) (ks : list I) :
  (forall data i, Permutation (f data i) data) ->
  forall data, Permutation (fold_left f ks data) data.
Proof.
  intros Hf. induction ks as [|i ks IH]; intros data; simpl; [reflexivity|].
  rewrite IH. apply Hf.
Qed.

Lemma siftDown_Permutation j : forall (data : list E) a,
  Permutation (slices.siftDown cmp data a j) data.
Proof.
  induction j as [|j IH]; intros data a; simpl; [reflexivity|].
  destruct ((a <? S j)%nat && slices.lessAt cmp data (S j) j); [|reflexivity].
  rewrite IH. apply swap_Permutation.
Qed.

Lemma insertionSort_Permutation (data : list E) a b :
  Permutation (slices.insertionSortCmpFunc cmp data a b) data.
Proof.
  unfold slices.insertionSortCmpFunc. apply fold_Permutation.
  intros d i. apply siftDown_Permutation.
Qed.

Lemma swapRange_Permutation (data : list E) a b n :
  Permutation (slices.swapRangeCmpFunc data a b n) data.
Proof.
  unfold slices.swapRangeCmpFunc. apply fold_Permutation.
  intros d i. apply swap_Permutation.
Qed.

Lemma rotateLoop_Permutation fuel : forall (data : list E) m i j,
  Permutation (slices.rotateLoop fuel data m i j) data.
Proof.
  induction fuel as [|fuel IH]; intros data m i j; simpl; [reflexivity|].
  destruct (i =? j)%nat; [apply swapRange_Permutation|].
  destruct (j <? i)%nat; rewrite IH; apply swapRange_Permutation.
Qed.

Lemma symMerge_Permutation fuel : forall (data : list E) a m b,
  Permutation (slices.symMergeCmpFunc cmp fuel data a m b) data.
Proof.
  induction fuel as [|fuel IH]; intros data a m b; simpl; [reflexivity|].
  destruct (m - a =? 1)%nat.
  { apply fold_Permutation. intros d k. apply swap_Permutation. }
  destruct (b - m =? 1)%nat.
  { apply fold_Permutation. intros d k. apply swap_Permutation. }
  destruct ((a + b) / 2 <? m)%nat;
    repeat match goal with
           | |- context [if ?c then _ else _] => destruct c
           end;
    rewrite ?IH; unfold slices.rotateCmpFunc;
    rewrite ?rotateLoop_Permutation; reflexivity.
Qed.

Lemma sortBlocks_Permutation fuel : forall (data : list E) a b n bs,
  Permutation (slices.sortBlocks cmp fuel data a b n bs) data.
Proof.
  induction fuel as [|fuel IH]; intros data a b n bs; simpl; [reflexivity|].
  destruct (b <=? n)%nat; rewrite ?IH; apply insertionSort_Permutation.
Qed.

Lemma mergeBlocks_Permutation fuel : forall (data : list E) a b n bs,
  Permutation (slices.mergeBlocks cmp fuel data a b n bs) data.
Proof.
  induction fuel as [|fuel IH]; intros data a b n bs; simpl; [reflexivity|].
  destruct (b <=? n)%nat.
  - rewrite IH. apply symMerge_Permutation.
  - destruct (a + bs <? n)%nat; [apply symMerge_Permutation|reflexivity].
Qed.

Lemma mergeRounds_Permutation fuel : forall (data : list E) n bs,
  Permutation (slices.mergeRounds cmp fuel data n bs) data.
Proof.
  induction fuel as [|fuel IH]; intros data n bs; cbn [slices.mergeRounds];
    [reflexivity|].
  destruct (bs <? n)%nat; [|reflexivity].
  rewrite IH. apply mergeBlocks_Permutation.
Qed.

Lemma SortStableFunc_Permutation (x : list E) :
  Permutation (slices.SortStableFunc x cmp) x.
Proof.
  unfold slices.SortStableFunc, slices.stableCmpFunc.
  rewrite mergeRounds_Permutation. apply sortBlocks_Permutation.
Qed.

End SortPermutation.

Lemma go_SortPermutes : SortPermutes.
Proof. intros E x cmp. apply SortStableFunc_Permutation. Qed.

(** ** The order of float64 weights *)

Lemma SFltb_orderKey (a b : float64) :
  is_nan a = false -> is_nan b = false ->
  SFltb a b = true <-> keyLt (orderKey a) (orderKey b).
Proof.
  intros Ha Hb. unfold SFltb.
  destruct a as [sa|sa| |sa ma ea], b as [sb|sb| |sb mb eb];
    try discriminate; try destruct sa; try destruct sb; simpl;
    try (split; [discriminate|intros; lia]);
    try (split; [intros _; lia|reflexivity]).
  - destruct (Z.compare_spec ea eb) as [->|Hlt|Hgt]; simpl.
    + rewrite Pos.compare_cont_spec. simpl.
      destruct (Pos.compare_spec ma mb) as [->|Hm|Hm]; simpl;
        (split; [try discriminate; intros _|intros; try reflexivity]); lia.
    + split; [discriminate|intros; lia].
    + split; [intros _; lia|reflexivity].
  - destruct (Z.compare_spec ea eb) as [->|Hlt|Hgt]; simpl.
    + rewrite Pos.compare_cont_spec. simpl.
      destruct (Pos.compare_spec ma mb) as [->|Hm|Hm]; simpl;
        (split; [try discriminate; intros _|intros; try reflexivity]); lia.
    + split; [intros _; lia|reflexivity].
    + split; [discriminate|intros; lia].
Qed.

Lemma SFltb_false_iff (a b : float64) :
  is_nan a = false -> is_nan b = false ->
  SFltb a b = false <-> ~ keyLt (orderKey a) (orderKey b).
Proof.
  intros Ha Hb. rewrite <- (SFltb_orderKey a b Ha Hb).
  destruct (SFltb a b); split; congruence.
Qed.

Lemma SFltb_irrefl (a : float64) : SFltb a a = false.
Proof.
  destruct (is_nan a) eqn:Ha.
  - destruct a; try discriminate. reflexivity.
  - apply SFltb_false_iff; [assumption..|].
    destruct (orderKey a) as [[k1 k2] k3]. simpl. lia.
Qed.

Lemma SFltb_trans (a b c : float64) :
  is_nan a = false -> is_nan b = false -> is_nan c = false ->
  SFltb a b = true -> SFltb b c = true -> SFltb a c = true.
Proof.
  intros Ha Hb Hc. rewrite !SFltb_orderKey by assumption.
  destruct (orderKey a) as [[a1 a2] a3], (orderKey b) as [[b1 b2] b3],
           (orderKey c) as [[c1 c2] c3]. simpl. lia.
Qed.

Lemma SFltb_incomparable_trans (a b c : float64) :
  is_nan a = false -> is_nan b = false -> is_nan c = false ->
  SFltb a b = false -> SFltb b a = false ->
  SFltb b c = false -> SFltb c b = false ->
  SFltb a c = false /\ SFltb c a = false.
Proof.
  intros Ha Hb Hc. rewrite !SFltb_false_iff by assumption.
  destruct (orderKey a) as [[a1 a2] a3], (orderKey b) as [[b1 b2] b3],
           (orderKey c) as [[c1 c2] c3]. simpl. lia.
Qed.

Lemma SFltb_le_lt_trans (a b c : float64) :
  is_nan a = false -> is_nan b = false -> is_nan c = false ->
  SFltb b a = false -> SFltb b c = true -> SFltb a c = true.
Proof.
  intros Ha Hb Hc. rewrite SFltb_false_iff, !SFltb_orderKey by assumption.
  destruct (orderKey a) as [[a1 a2] a3], (orderKey b) as [[b1 b2] b3],
           (orderKey c) as [[c1 c2] c3]. simpl. lia.
Qed.

Lemma less_byWeight (a b : AcceptType) :
  less byWeight a b = f64_gt (RelativeWeight a) (RelativeWeight b).
Proof.
  unfold less, byWeight.
  destruct (f64_gt (RelativeWeight a) (RelativeWeight b)); [reflexivity|].
  destruct (f64_lt (RelativeWeight a) (RelativeWeight b)); reflexivity.
Qed.

Lemma byWeight_StrictWeakOn (l : list AcceptType) :
  noNaN l -> StrictWeakOn byWeight l.
Proof.
  intros Hl. unfold noNaN in Hl. rewrite List.Forall_forall in Hl.
  unfold StrictWeakOn, equivalent. repeat split.
  - intros a _. rewrite less_byWeight. apply SFltb_irrefl.
  - intros a b c Ha Hb Hc. rewrite !less_byWeight. unfold f64_gt. intros Hab Hbc.
    apply SFltb_trans with (RelativeWeight b); auto.
  - intros a b c Ha Hb Hc. rewrite !less_byWeight. unfold f64_gt.
    rewrite !andb_true_iff, !negb_true_iff. intros [H1 H2] [H3 H4].
    destruct (SFltb_incomparable_trans (RelativeWeight a) (RelativeWeight b)
                (RelativeWeight c)); auto.
Qed.

(** ** The first supported candidate of a stably sorted list *)

Lemma find_filter {A : Type} (p q : A -> bool) (l : list A) :
  List.find p (List.filter q l) = List.find (fun a => q a && p a) l.
Proof.
  induction l as [|a l IH]; simpl; [reflexivity|].
  destruct (q a); simpl; [|exact IH].
  destruct (p a); [reflexivity|exact IH].
Qed.

Lemma find_app_none {A : Type} (p : A -> bool) (l1 l2 : list A) :
  List.find p l1 = None -> List.find p (l1 ++ l2) = List.find p l2.
Proof.
  induction l1 as [|a l1 IH]; simpl; [reflexivity|].
  destruct (p a); [discriminate|exact IH].
Qed.

Lemma find_split {A : Type} (p : A -> bool) (l : list A) (m : A) :
  List.find p l = Some m ->
  exists pre post, l = (pre ++ m :: post)%list /\ p m = true /\
                   Forall (fun a => p a = false) pre.
Proof.
  induction l as [|a l IH]; simpl; [discriminate|].
  destruct (p a) eqn:Ha.
  - intros [= ->]. exists [], l. repeat split; [assumption|constructor].
  - intros Hf. destruct (IH Hf) as (pre & post & -> & Hm & Hpre).
    exists (a :: pre), post. repeat split; [assumption|now constructor].
Qed.

Lemma find_none_Forall {A : Type} (p : A -> bool) (l : list A) :
  List.find p l = None -> Forall (fun a => p a = false) l.
Proof.
  induction l as [|a l IH]; simpl; [constructor|].
  destruct (p a) eqn:Ha; [discriminate|]. intros Hf. constructor; auto.
Qed.

Section Preferred.

Local Abbreviation gt a b := (f64_gt (RelativeWeight a) (RelativeWeight b)).

Lemma preferred_unsupported l best :
  Forall (fun a => supported a = false) l -> preferred l best = best.
Proof.
  intros Hl. revert best. induction Hl as [|a l Ha _ IH]; intros best; simpl;
    [reflexivity|]. rewrite Ha. apply IH.
Qed.

Lemma preferred_keeps l b :
  (forall c, In c l -> supported c = true -> gt c b = false) ->
  preferred l (Some b) = Some b.
Proof.
  induction l as [|a l IH]; intros Hmax; simpl; [reflexivity|].
  destruct (supported a) eqn:Ha.
  - rewrite (Hmax a) by (simpl; auto). apply IH. intros c Hc. apply Hmax. now right.
  - apply IH. intros c Hc. apply Hmax. now right.
Qed.

Lemma preferred_first_maximal l : forall best m m',
  noNaN (m :: l) ->
  match best with
  | None => True
  | Some b => is_nan (RelativeWeight b) = false /\ gt m b = true
  end ->
  (forall c, In c l -> supported c = true -> gt c m = false) ->
  List.find (fun a => equivalent byWeight m a && supported a) l = Some m' ->
  preferred l best = Some m'.
Proof.
  induction l as [|a l IH]; intros best m m' Hnan Hbest Hmax Hfind;
    [discriminate|].
  assert (Hm : is_nan (RelativeWeight m) = false) by now inversion Hnan.
  assert (Ha' : is_nan (RelativeWeight a) = false).
  { inversion Hnan as [|? ? _ Hl]; now inversion Hl. }
  assert (Hnan' : noNaN (m :: l)).
  { inversion Hnan as [|? ? ? Hl]; inversion Hl; now constructor. }
  assert (Hmax' : forall c, In c l -> supported c = true -> gt c m = false).
  { intros c Hc. apply Hmax. now right. }
  simpl in Hfind |- *.
  destruct (supported a) eqn:Ha.
  2:{ rewrite andb_false_r in Hfind. now apply IH with m. }
  rewrite andb_true_r in Hfind.
  assert (Ham : gt a m = false) by (apply Hmax; simpl; auto).
  unfold equivalent in Hfind. rewrite !less_byWeight, Ham in Hfind.
  simpl in Hfind. rewrite andb_true_r in Hfind.
  destruct (gt m a) eqn:Hma; simpl in Hfind.
  - (* [a] is below the maximum *)
    destruct best as [b|].
    + destruct (gt a b); apply IH with m; auto.
    + apply IH with m; auto.
  - (* [a] is the first of maximal weight *)
    injection Hfind as <-.
    assert (Hkeep : preferred l (Some a) = Some a).
    { apply preferred_keeps. intros c Hc Hsup.
      assert (Hcn : is_nan (RelativeWeight c) = false).
      { unfold noNaN in Hnan'. rewrite List.Forall_forall in Hnan'.
        apply Hnan'. now right. }
      specialize (Hmax' c Hc Hsup). unfold f64_gt in *.
      destruct (SFltb (RelativeWeight a) (RelativeWeight c)) eqn:Hac;
        [|reflexivity].
      rewrite <- Hmax'. symmetry.
      apply SFltb_le_lt_trans with (RelativeWeight a); auto. }
    destruct best as [b|]; [|exact Hkeep].
    destruct Hbest as [Hbn Hmb].
    assert (Hab : gt a b = true).
    { unfold f64_gt in *.
      rewrite SFltb_orderKey in Hmb |- * by assumption.
      rewrite SFltb_false_iff in Ham, Hma by assumption.
      destruct (orderKey (RelativeWeight a)) as [[a1 a2] a3],
               (orderKey (RelativeWeight b)) as [[b1 b2] b3],
               (orderKey (RelativeWeight m)) as [[c1 c2] c3].
      simpl in *. lia. }
    rewrite Hab. exact Hkeep.
Qed.

(** The first supported element of a stably sorted candidate list is the
    preferred one of the original list. *)
Lemma find_StablySorted (l out : list AcceptType) :
  noNaN l -> StablySorted byWeight l out ->
  List.find supported out = preferred l None.
Proof.
  intros Hnan (Hperm & Hord & Hstable).
  destruct (List.find supported out) as [m|] eqn:Hfind.
  - destruct (find_split _ _ _ Hfind) as (pre & post & Hout & Hm & Hpre).
    assert (Hin : In m l).
    { apply (Permutation_in _ Hperm). rewrite Hout.
      apply in_or_app. right. now left. }
    assert (Hmn : is_nan (RelativeWeight m) = false).
    { unfold noNaN in Hnan. rewrite List.Forall_forall in Hnan. auto. }
    symmetry. apply preferred_first_maximal with m.
    + constructor; assumption.
    + exact I.
    + intros c Hc Hsup.
      apply (Permutation_in _ (Permutation_sym Hperm)) in Hc.
      rewrite Hout in Hc. apply in_app_or in Hc as [Hc|[<-|Hc]].
      * rewrite List.Forall_forall in Hpre. rewrite (Hpre c Hc) in Hsup.
        discriminate.
      * apply SFltb_irrefl.
      * apply In_nth_error in Hc as [k Hk].
        rewrite <- less_byWeight.
        apply (Hord (length pre) (length pre + S k)%nat); [lia| |].
        -- rewrite Hout. apply list_lookup_middle. reflexivity.
        -- rewrite Hout. rewrite lookup_app_r by lia.
           replace (length pre + S k - length pre)%nat with (S k) by lia.
           simpl. rewrite <- Hk. clear. revert k.
           induction post as [|x post IH]; intros [|k]; simpl; auto.
    + rewrite <- find_filter, <- (Hstable m Hin), find_filter, Hout.
      assert (Hnone : List.find (fun a => equivalent byWeight m a && supported a)
                        pre = None).
      { clear -Hpre. induction Hpre as [|a pre Ha _ IH]; simpl; [reflexivity|].
        rewrite Ha, andb_false_r. exact IH. }
      rewrite (find_app_none _ _ _ Hnone). simpl. rewrite Hm, andb_true_r.
      unfold equivalent. rewrite less_byWeight.
      unfold f64_gt. rewrite SFltb_irrefl. reflexivity.
  - apply find_none_Forall in Hfind.
    symmetry. apply preferred_unsupported.
    apply List.Forall_forall. intros a Ha.
    rewrite List.Forall_forall in Hfind. apply Hfind.
    apply (Permutation_in _ (Permutation_sym Hperm)). exact Ha.
Qed.

End Preferred.

(** *** Swapping and rotating blocks *)

Section Rotate.
Context {E : Type}.
Local Open Scope list_scope.

Lemma swap_apart (l1 l2 l3 : list E) x y :
  slices.swap (l1 ++ x :: l2 ++ y :: l3) (length l1) (length l1 + S (length l2))
  = l1 ++ y :: l2 ++ x :: l3.
Proof.
  unfold slices.swap.
  rewrite list_lookup_middle by reflexivity.
  rewrite (lookup_app_r l1) by lia.
  replace (length l1 + S (length l2) - length l1)%nat with (S (length l2)) by lia.
  simpl. rewrite list_lookup_middle by reflexivity.
  rewrite !insert_app_r_alt by lia.
  rewrite Nat.sub_diag. simpl.
  replace (length l1 + S (length l2) - length l1)%nat with (S (length l2)) by lia.
  simpl. rewrite insert_app_r_alt by lia. rewrite Nat.sub_diag. reflexivity.
Qed.

Lemma fold_left_seq_S {A : Type} (f : A -> nat -> A) n : forall s acc,
  fold_left f (seq (S s) n) acc = fold_left (fun d i => f d (S i)) (seq s n) acc.
Proof.
  induction n as [|n IH]; intros s acc; simpl; [reflexivity|]. apply IH.
Qed.

Lemma fold_left_pointwise {A B : Type} (f g : A -> B -> A) (l : list B) :
  (forall a b, f a b = g a b) ->
  forall acc, fold_left f l acc = fold_left g l acc.
Proof.
  intros Hfg. induction l as [|b l IH]; intros acc; simpl; [reflexivity|].
  now rewrite Hfg, IH.
Qed.

Lemma swapRange_blocks (X : list E) : forall Y pre mid post a b,
  a = length pre -> b = (length pre + length X + length mid)%nat ->
  length X = length Y ->
  slices.swapRangeCmpFunc (pre ++ X ++ mid ++ Y ++ post) a b (length X)
  = pre ++ Y ++ mid ++ X ++ post.
Proof.
  unfold slices.swapRangeCmpFunc.
  induction X as [|x X IH]; intros Y pre mid post a b Ha Hb Hlen.
  - destruct Y; [reflexivity|discriminate].
  - destruct Y as [|y Y]; [discriminate|]. injection Hlen as Hlen.
    cbn [length seq fold_left]. rewrite fold_left_seq_S.
    rewrite !Nat.add_0_r. subst a b.
    replace (pre ++ (x :: X) ++ mid ++ (y :: Y) ++ post)
      with (pre ++ x :: (X ++ mid) ++ y :: (Y ++ post))
      by (simpl; now rewrite <- !app_assoc).
    replace (length pre + length (x :: X) + length mid)%nat
      with (length pre + S (length (X ++ mid)))%nat
      by (rewrite length_app; simpl; lia).
    rewrite swap_apart.
    replace (pre ++ y :: (X ++ mid) ++ x :: Y ++ post)
      with ((pre ++ [y]) ++ X ++ (mid ++ [x]) ++ Y ++ post)
      by (rewrite <- !app_assoc; reflexivity).
    rewrite (fold_left_pointwise _
               (fun d i => slices.swap d (S (length pre) + i)
                             (S (length pre + S (length (X ++ mid))) + i))).
    2:{ intros d i. f_equal; lia. }
    rewrite (IH Y (pre ++ [y]) (mid ++ [x]) post); auto.
    + rewrite <- !app_assoc. reflexivity.
    + rewrite length_app. simpl. lia.
    + rewrite !length_app. simpl. lia.
Qed.

Lemma rotateLoop_blocks fuel : forall (U V pre post : list E) m,
  U <> [] -> V <> [] -> (length U + length V <= fuel)%nat ->
  m = (length pre + length U)%nat ->
  slices.rotateLoop fuel (pre ++ U ++ V ++ post) m (length U) (length V)
  = pre ++ V ++ U ++ post.
Proof.
  induction fuel as [|fuel IH]; intros U V pre post m HU HV Hfuel Hm.
  - destruct U; [congruence|simpl in Hfuel; lia].
  - assert (HlU : (0 < length U)%nat) by (destruct U; [congruence|simpl; lia]).
    assert (HlV : (0 < length V)%nat) by (destruct V; [congruence|simpl; lia]).
    cbn [slices.rotateLoop].
    destruct (length U =? length V)%nat eqn:Heq.
    + apply Nat.eqb_eq in Heq.
      change (pre ++ U ++ V ++ post) with (pre ++ U ++ [] ++ V ++ post).
      apply swapRange_blocks; simpl; auto; lia.
    + apply Nat.eqb_neq in Heq.
      destruct (length V <? length U)%nat eqn:Hlt.
      * apply Nat.ltb_lt in Hlt.
        (* U = U1 ++ U2 with U1 as long as V *)
        set (U1 := take (length V) U). set (U2 := drop (length V) U).
        assert (HU12 : U = U1 ++ U2) by (symmetry; apply take_drop).
        assert (H1 : length U1 = length V) by (unfold U1; rewrite length_take; lia).
        assert (H2 : length U2 = (length U - length V)%nat)
          by (unfold U2; now rewrite length_drop).
        assert (Hswap :
          slices.swapRangeCmpFunc (pre ++ U ++ V ++ post) (m - length U) m (length V)
          = (pre ++ V) ++ U2 ++ U1 ++ post).
        { rewrite HU12 at 1. rewrite <- H1.
          replace (pre ++ (U1 ++ U2) ++ V ++ post)
            with (pre ++ U1 ++ U2 ++ V ++ post) by now rewrite <- !app_assoc.
          rewrite swapRange_blocks; [now rewrite <- !app_assoc|lia|lia|exact H1]. }
        rewrite Hswap, <- H2, <- H1.
        rewrite IH.
        -- rewrite HU12, <- !app_assoc. reflexivity.
        -- intros HU2. rewrite HU2 in H2. simpl in H2. lia.
        -- intros HU1. rewrite HU1 in H1. simpl in H1.
           destruct V; [congruence|discriminate].
        -- lia.
        -- rewrite length_app. lia.
      * apply Nat.ltb_ge in Hlt.
        (* V = V1 ++ V2 with V2 as long as U *)
        set (V1 := take (length V - length U) V).
        set (V2 := drop (length V - length U) V).
        assert (HV12 : V = V1 ++ V2) by (symmetry; apply take_drop).
        assert (H1 : length V1 = (length V - length U)%nat)
          by (unfold V1; rewrite length_take; lia).
        assert (H2 : length V2 = length U)
          by (unfold V2; rewrite length_drop; lia).
        assert (Hswap :
          slices.swapRangeCmpFunc (pre ++ U ++ V ++ post) (m - length U)
            (m + length V - length U) (length U)
          = pre ++ V2 ++ V1 ++ (U ++ post)).
        { rewrite HV12 at 1.
          replace (pre ++ U ++ (V1 ++ V2) ++ post)
            with (pre ++ U ++ V1 ++ V2 ++ post) by now rewrite <- !app_assoc.
          rewrite swapRange_blocks; [reflexivity|lia|lia|now symmetry]. }
        rewrite Hswap, <- H1, <- H2.
        rewrite IH.
        -- rewrite HV12, <- !app_assoc. reflexivity.
        -- intros HV2. rewrite HV2 in H2. simpl in H2.
           destruct U; [congruence|discriminate].
        -- intros HV1. rewrite HV1 in H1. simpl in H1. lia.
        -- lia.
        -- lia.
Qed.

Lemma rotate_blocks (U V pre post : list E) a m b :
  U <> [] -> V <> [] ->
  a = length pre -> m = (a + length U)%nat -> b = (m + length V)%nat ->
  slices.rotateCmpFunc (pre ++ U ++ V ++ post) a m b = pre ++ V ++ U ++ post.
Proof.
  intros HU HV -> -> ->. unfold slices.rotateCmpFunc.
  replace (length pre + length U - length pre)%nat with (length U) by lia.
  replace (length pre + length U + length V - (length pre + length U))%nat
    with (length V) by lia.
  apply rotateLoop_blocks; auto; lia.
Qed.

End Rotate.

(** ** The library sort is a stable sort *)

Section SortCorrect.
Context {E : Type} (cmp : E -> E -> Z).
Local Open Scope list_scope.

Local Abbreviation lt := (less cmp).

Lemma lessAt_lookup (data : list E) i j x y :
  data !! i = Some x -> data !! j = Some y ->
  slices.lessAt cmp data i j = lt x y.
Proof. unfold slices.lessAt. now intros -> ->. Qed.

Lemma swap_adjacent (l1 l2 : list E) x y :
  slices.swap (l1 ++ y :: x :: l2) (S (length l1)) (length l1)
  = (l1 ++ x :: y :: l2)%list.
Proof.
  unfold slices.swap.
  rewrite (lookup_app_r l1 _ (S (length l1))) by lia.
  rewrite (lookup_app_r l1 _ (length l1)) by lia.
  replace (S (length l1) - length l1)%nat with 1%nat by lia.
  rewrite Nat.sub_diag. simpl.
  rewrite !insert_app_r_alt by lia.
  replace (S (length l1) - length l1)%nat with 1%nat by lia.
  rewrite Nat.sub_diag. reflexivity.
Qed.

Lemma siftDown_insertRev (r : list E) : forall pre x post,
  slices.siftDown cmp (pre ++ rev r ++ x :: post) (length pre) (length pre + length r)
  = (pre ++ rev (insertRev cmp r x) ++ post)%list.
Proof.
  induction r as [|y r IH]; intros pre x post.
  - simpl. rewrite Nat.add_0_r. destruct (length pre) as [|n] eqn:Hn; simpl.
    + reflexivity.
    + replace (n <? S n)%nat with true by (symmetry; apply Nat.ltb_lt; lia).
      rewrite Nat.ltb_irrefl. reflexivity.
  - simpl length. replace (length pre + S (length r))%nat
      with (S (length pre + length r)) by lia.
    cbn [slices.siftDown].
    replace (length pre <? S (length pre + length r))%nat with true
      by (symmetry; apply Nat.ltb_lt; lia).
    cbn [andb rev].
    assert (Hdata : (pre ++ (rev r ++ [y]) ++ x :: post
                     = (pre ++ rev r) ++ y :: x :: post)%list).
    { rewrite <- !app_assoc. reflexivity. }
    assert (Hlen : length (pre ++ rev r) = (length pre + length r)%nat).
    { rewrite length_app, length_rev. reflexivity. }
    rewrite Hdata.
    rewrite (lessAt_lookup _ _ _ x y).
    2:{ rewrite <- Hlen. rewrite lookup_app_r by lia.
        replace (S (length (pre ++ rev r)) - length (pre ++ rev r))%nat
          with 1%nat by lia. reflexivity. }
    2:{ rewrite <- Hlen. now rewrite list_lookup_middle. }
    cbn [insertRev]. destruct (lt x y).
    + rewrite <- Hlen at 1 2. rewrite swap_adjacent.
      rewrite <- app_assoc. rewrite IH. cbn [rev].
      rewrite <- !app_assoc. reflexivity.
    + cbn [rev]. rewrite <- !app_assoc. reflexivity.
Qed.

(** The outer loop, over the elements still to insert. *)
Lemma insertion_fold (todo : list E) : forall pre r post,
  fold_left (fun data i => slices.siftDown cmp data (length pre) i)
            (seq (length pre + length r) (length todo))
            (pre ++ rev r ++ todo ++ post)
  = (pre ++ rev (fold_left (insertRev cmp) todo r) ++ post)%list.
Proof.
  induction todo as [|x todo IH]; intros pre r post; [reflexivity|].
  cbn [length seq fold_left app].
  rewrite siftDown_insertRev.
  assert (Hlen : S (length pre + length r)
                 = (length pre + length (insertRev cmp r x))%nat).
  { clear. induction r as [|y r IHr]; simpl; [lia|].
    destruct (lt x y); simpl; lia. }
  rewrite Hlen. apply IH.
Qed.

Lemma insertionSort_sub (data : list E) a b :
  (a <= b <= length data)%nat ->
  slices.insertionSortCmpFunc cmp data a b
  = (take a data ++ rev (fold_left (insertRev cmp) (sub data a b) []) ++ drop b data)%list.
Proof.
  intros Hab. unfold slices.insertionSortCmpFunc.
  assert (Hsplit : data = (take a data ++ sub data a b ++ drop b data)%list).
  { unfold sub. rewrite <- (take_drop a data) at 1. f_equal.
    rewrite <- (take_drop (b - a) (drop a data)) at 1. f_equal.
    rewrite drop_drop. f_equal. lia. }
  assert (Hla : length (take a data) = a) by (rewrite length_take; lia).
  assert (Hls : length (sub data a b) = (b - a)%nat).
  { unfold sub. rewrite length_take, length_drop. lia. }
  remember (take a data) as pre eqn:Hpre.
  remember (drop b data) as post eqn:Hpost.
  remember (sub data a b) as seg eqn:Hseg.
  clear Hpre Hpost Hseg. subst data a.
  destruct seg as [|x todo].
  - simpl in Hls. replace (b - (length pre + 1))%nat with 0%nat by lia.
    reflexivity.
  - simpl in Hls.
    replace (length pre + 1)%nat with (length pre + length [x])%nat
      by (simpl; lia).
    replace (b - (length pre + length [x]))%nat with (length todo)
      by (simpl; lia).
    change (pre ++ (x :: todo) ++ post)
      with (pre ++ rev [x] ++ todo ++ post).
    rewrite insertion_fold. reflexivity.
Qed.


(** *** Consequences of a strict weak ordering *)

Variable U : list E.
Hypothesis Hswo : StrictWeakOn cmp U.

Lemma lt_irrefl a : In a U -> lt a a = false.
Proof. destruct Hswo as (Hi & _). apply Hi. Qed.

Lemma lt_trans a b c :
  In a U -> In b U -> In c U -> lt a b = true -> lt b c = true -> lt a c = true.
Proof. destruct Hswo as (_ & Ht & _). apply Ht. Qed.

Lemma lt_asym a b : In a U -> In b U -> lt a b = true -> lt b a = false.
Proof.
  intros Ha Hb Hab. destruct (lt b a) eqn:Hba; [|reflexivity].
  rewrite <- (lt_irrefl a Ha). symmetry. now apply lt_trans with b.
Qed.

Lemma equivalent_trans a b c :
  In a U -> In b U -> In c U ->
  equivalent cmp a b = true -> equivalent cmp b c = true ->
  equivalent cmp a c = true.
Proof. destruct Hswo as (_ & _ & Ht). apply Ht. Qed.

Lemma equivalent_iff a b :
  equivalent cmp a b = true <-> lt a b = false /\ lt b a = false.
Proof.
  unfold equivalent. rewrite andb_true_iff, !negb_true_iff. reflexivity.
Qed.

Lemma equivalent_sym a b : equivalent cmp a b = equivalent cmp b a.
Proof. unfold equivalent. apply andb_comm. Qed.

(** Not less is transitive. *)
Lemma ge_trans a b c :
  In a U -> In b U -> In c U ->
  lt a b = false -> lt b c = false -> lt a c = false.
Proof.
  intros Ha Hb Hc Hab Hbc. destruct (lt a c) eqn:Hac; [|reflexivity].
  assert (Hba : lt b a = false).
  { destruct (lt b a) eqn:Hba; [|reflexivity].
    rewrite <- Hbc. symmetry. now apply lt_trans with a. }
  assert (Hcb : lt c b = false).
  { destruct (lt c b) eqn:Hcb; [|reflexivity].
    rewrite <- Hab. symmetry. now apply lt_trans with c. }
  assert (Heq : equivalent cmp a c = true).
  { apply equivalent_trans with b; auto; now apply equivalent_iff. }
  apply equivalent_iff in Heq as [Heq _]. congruence.
Qed.

Lemma lt_ge_trans a b c :
  In a U -> In b U -> In c U ->
  lt a b = true -> lt c b = false -> lt a c = true.
Proof.
  intros Ha Hb Hc Hab Hcb. destruct (lt a c) eqn:Hac; [reflexivity|].
  rewrite <- Hab. symmetry. now apply ge_trans with c.
Qed.

Lemma ge_lt_trans a b c :
  In a U -> In b U -> In c U ->
  lt b a = false -> lt b c = true -> lt a c = true.
Proof.
  intros Ha Hb Hc Hba Hbc. destruct (lt a c) eqn:Hac; [reflexivity|].
  rewrite <- Hbc. symmetry. now apply ge_trans with a.
Qed.

(** An element is not equivalent to both sides of a strict inequality. *)
Lemma equivalent_not_both e x y :
  In e U -> In x U -> In y U -> lt x y = true ->
  equivalent cmp e x && equivalent cmp e y = false.
Proof.
  intros He Hx Hy Hxy.
  destruct (equivalent cmp e x) eqn:Hex; [|reflexivity].
  destruct (equivalent cmp e y) eqn:Hey; [|reflexivity].
  assert (Heq : equivalent cmp x y = true).
  { apply equivalent_trans with e; auto. now rewrite equivalent_sym. }
  apply equivalent_iff in Heq as [Heq _]. congruence.
Qed.

(** *** Ordered lists *)

Lemma Ordered_nil : Ordered cmp [].
Proof. intros i j a b _ Hi. now rewrite lookup_nil in Hi. Qed.

Lemma Ordered_cons a l :
  Ordered cmp (a :: l) <->
  (forall b, In b l -> lt b a = false) /\ Ordered cmp l.
Proof.
  split.
  - intros Hord. split.
    + intros b Hb. apply In_nth_error in Hb as [k Hk].
      apply (Hord 0%nat (S k)); [lia|reflexivity|].
      simpl. rewrite <- Hk. clear. revert k.
      induction l as [|x l IH]; intros [|k]; simpl; auto.
    + intros i j x y Hij Hi Hj. apply (Hord (S i) (S j)); [lia|exact Hi|exact Hj].
  - intros [Hhd Htl] i j x y Hij Hi Hj.
    destruct j as [|j]; [lia|]. simpl in Hj.
    destruct i as [|i].
    + injection Hi as <-. apply Hhd.
      apply list_elem_of_lookup_2 in Hj. now apply list_elem_of_In.
    + apply (Htl i j); [lia|exact Hi|exact Hj].
Qed.

Lemma Ordered_app l1 l2 :
  Ordered cmp (l1 ++ l2) <->
  Ordered cmp l1 /\ Ordered cmp l2 /\
  (forall a b, In a l1 -> In b l2 -> lt b a = false).
Proof.
  induction l1 as [|x l1 IH]; simpl.
  - split.
    + intros Hl. repeat split; [apply Ordered_nil|exact Hl|]. intros a b [].
    + intros (_ & Hl & _). exact Hl.
  - rewrite !Ordered_cons, IH. split.
    + intros (Hx & H1 & H2 & H12). repeat split; auto.
      * intros b Hb. apply Hx. apply in_or_app. now left.
      * intros a b [<-|Ha] Hb; [|now apply H12].
        apply Hx. apply in_or_app. now right.
    + intros ((Hx & H1) & H2 & H12). repeat split; auto.
      intros b Hb. apply in_app_or in Hb as [Hb|Hb]; [now apply Hx|].
      apply H12; auto.
Qed.

Lemma Ordered_singleton a : Ordered cmp [a].
Proof. apply Ordered_cons. split; [intros b []|apply Ordered_nil]. Qed.

(** *** Insertion *)

Lemma insertRev_Permutation r x : Permutation (insertRev cmp r x) (x :: r).
Proof.
  induction r as [|y r IH]; simpl; [reflexivity|].
  destruct (lt x y); [|reflexivity].
  rewrite IH. apply perm_swap.
Qed.

Lemma insertRev_In r x a : In a (insertRev cmp r x) <-> a = x \/ In a r.
Proof.
  split.
  - intros Ha. apply (Permutation_in _ (insertRev_Permutation r x)) in Ha.
    destruct Ha as [<-|Ha]; auto.
  - intros Ha. apply (Permutation_in _ (Permutation_sym (insertRev_Permutation r x))).
    destruct Ha as [->|Ha]; [now left|now right].
Qed.

Lemma insertRev_Ordered r x :
  In x U -> (forall a, In a r -> In a U) ->
  Ordered cmp (rev r) -> Ordered cmp (rev (insertRev cmp r x)).
Proof.
  intros Hx. induction r as [|y r IH]; intros HU Hord.
  - apply Ordered_singleton.
  - assert (Hy : In y U) by (apply HU; now left).
    assert (HU' : forall a, In a r -> In a U) by (intros a Ha; apply HU; now right).
    simpl in Hord. apply Ordered_app in Hord as (Hr & _ & Hry).
    simpl. destruct (lt x y) eqn:Hxy.
    + simpl. apply Ordered_app. repeat split.
      * now apply IH.
      * apply Ordered_singleton.
      * intros a b Ha [<-|[]]. apply In_rev in Ha.
        apply insertRev_In in Ha as [->|Ha]; [now apply lt_asym|].
        apply Hry; [now apply in_rev in Ha|now left].
    + simpl. apply Ordered_app. repeat split.
      * apply Ordered_app. repeat split; [exact Hr|apply Ordered_singleton|exact Hry].
      * apply Ordered_singleton.
      * intros a b Ha [<-|[]]. apply in_app_or in Ha as [Ha|[<-|[]]]; [|exact Hxy].
        apply ge_trans with y; auto.
        -- apply HU'. now apply in_rev.
        -- apply Hry; [exact Ha|now left].
Qed.

Lemma filter_rev {A : Type} (p : A -> bool) (l : list A) :
  List.filter p (rev l) = rev (List.filter p l).
Proof.
  induction l as [|a l IH]; simpl; [reflexivity|].
  rewrite List.filter_app, IH. simpl. destruct (p a); simpl;
    [reflexivity|now rewrite app_nil_r].
Qed.

Lemma insertRev_filter r x e :
  In e U -> In x U -> (forall a, In a r -> In a U) ->
  List.filter (equivalent cmp e) (insertRev cmp r x)
  = List.filter (equivalent cmp e) (x :: r).
Proof.
  intros He Hx. induction r as [|y r IH]; intros HU; [reflexivity|].
  assert (Hy : In y U) by (apply HU; now left).
  simpl. destruct (lt x y) eqn:Hxy; [|reflexivity].
  simpl. rewrite IH by (intros a Ha; apply HU; now right). simpl.
  pose proof (equivalent_not_both e x y He Hx Hy Hxy) as Hnb.
  destruct (equivalent cmp e x), (equivalent cmp e y); try reflexivity.
  discriminate.
Qed.

Lemma insertion_StableWithin (todo : list E) : forall r,
  (forall a, In a todo -> In a U) -> (forall a, In a r -> In a U) ->
  Ordered cmp (rev r) ->
  StableWithin cmp U (rev r ++ todo) (rev (fold_left (insertRev cmp) todo r)).
Proof.
  induction todo as [|x todo IH]; intros r Htodo Hr Hord.
  - simpl. rewrite app_nil_r. repeat split; auto.
  - assert (Hx : In x U) by (apply Htodo; now left).
    assert (Hr' : forall a, In a (insertRev cmp r x) -> In a U).
    { intros a Ha. apply insertRev_In in Ha as [->|Ha]; auto. }
    destruct (IH (insertRev cmp r x)) as (Hperm & Hord' & Hstable); auto.
    { intros a Ha. apply Htodo. now right. }
    { now apply insertRev_Ordered. }
    simpl. repeat split; auto.
    + rewrite Hperm. rewrite <- (Permutation_rev (insertRev cmp r x)).
      rewrite insertRev_Permutation. rewrite <- (Permutation_rev r).
      apply Permutation_middle.
    + intros e He. rewrite (Hstable e He).
      rewrite !List.filter_app, !filter_rev.
      rewrite (insertRev_filter r x e He Hx Hr).
      simpl. destruct (equivalent cmp e x); simpl; [|reflexivity].
      rewrite <- app_assoc. reflexivity.
Qed.

(** Insertion sort yields the stably sorted list. *)
Lemma insertionSort_StableWithin (seg : list E) :
  (forall a, In a seg -> In a U) ->
  StableWithin cmp U seg (rev (fold_left (insertRev cmp) seg [])).
Proof.
  intros Hseg.
  apply (insertion_StableWithin seg []); auto; [intros a []|apply Ordered_nil].
Qed.


(** *** Binary search *)

Lemma search_boundary fuel : forall (up : nat -> bool) i j,
  (j - i <= fuel)%nat -> (i <= j)%nat ->
  (forall h h', (i <= h)%nat -> (h <= h')%nat -> (h' < j)%nat ->
                up h' = true -> up h = true) ->
  let k := slices.search fuel up i j in
  (i <= k <= j)%nat /\
  (forall h, (i <= h < k)%nat -> up h = true) /\
  (forall h, (k <= h < j)%nat -> up h = false).
Proof.
  induction fuel as [|fuel IH]; intros up i j Hfuel Hij Hmono; cbn zeta.
  - simpl. repeat split; try lia; intros h Hh; lia.
  - cbn [slices.search]. destruct (i <? j)%nat eqn:Hlt.
    2:{ apply Nat.ltb_ge in Hlt. repeat split; try lia; intros h Hh; lia. }
    apply Nat.ltb_lt in Hlt.
    assert (Hh : (i <= (i + j) / 2 < j)%nat).
    { split; [apply Nat.div_le_lower_bound; lia|apply Nat.Div0.div_lt_upper_bound; lia]. }
    set (h := ((i + j) / 2)%nat) in *.
    destruct (up h) eqn:Hup.
    + destruct (IH up (h + 1)%nat j) as (Hk & Hlo & Hhi); [lia|lia| |].
      { intros h1 h2 H1 H2 H3. apply Hmono; lia. }
      repeat split; try lia; auto.
      intros h0 Hh0. destruct (Nat.le_gt_cases h0 h) as [Hle|Hgt].
      * apply (Hmono h0 h); auto; lia.
      * apply Hlo. lia.
    + destruct (IH up i h) as (Hk & Hlo & Hhi); [lia|lia| |].
      { intros h1 h2 H1 H2 H3. apply Hmono; lia. }
      repeat split; try lia; auto.
      intros h0 Hh0. destruct (Nat.le_gt_cases h h0) as [Hle|Hgt].
      * destruct (up h0) eqn:Hup0; [|reflexivity].
        rewrite <- Hup. symmetry. apply (Hmono h h0); auto; lia.
      * apply Hhi. lia.
Qed.

(** *** Merging *)

Lemma merge_nil_r (l : list E) : merge cmp l [] = l.
Proof. destruct l; reflexivity. Qed.

Lemma merge_nil_l (l : list E) : merge cmp [] l = l.
Proof. destruct l; reflexivity. Qed.

Lemma merge_cons a l1 b l2 :
  merge cmp (a :: l1) (b :: l2)
  = if lt b a then b :: merge cmp (a :: l1) l2 else a :: merge cmp l1 (b :: l2).
Proof. reflexivity. Qed.

(** The merge of two runs cut where everything left of the cut in one
    run goes before everything right of the cut in the other. *)
Lemma merge_split (l1a : list E) : forall l2a l1b l2b,
  (forall x y, In x l1b -> In y l2a -> lt y x = true) ->
  (forall x y, In x l1a -> In y l2b -> lt y x = false) ->
  merge cmp (l1a ++ l1b) (l2a ++ l2b) = merge cmp l1a l2a ++ merge cmp l1b l2b.
Proof.
  induction l1a as [|x l1a IH1].
  - intros l2a l1b l2b HA _. rewrite merge_nil_l. simpl.
    induction l2a as [|y l2a IH2]; [reflexivity|].
    destruct l1b as [|x l1b]; [now rewrite !merge_nil_l|].
    simpl app. rewrite merge_cons.
    rewrite (HA x y) by (simpl; auto).
    simpl. f_equal. apply IH2. intros x' y' Hx' Hy'. apply HA; simpl; auto.
  - intros l2a. induction l2a as [|y l2a IH2]; intros l1b l2b HA HB.
    + rewrite merge_nil_r. simpl app.
      destruct l2b as [|y l2b]; [now rewrite !merge_nil_r|].
      rewrite merge_cons. rewrite (HB x y) by (simpl; auto).
      f_equal. specialize (IH1 [] l1b (y :: l2b)). rewrite merge_nil_r in IH1.
      apply IH1; [intros ? ? ? []|]. intros x' y' Hx' Hy'. apply HB; simpl; auto.
    + simpl app. rewrite !merge_cons. destruct (lt y x) eqn:Hyx.
      * simpl. f_equal. apply (IH2 l1b l2b).
        -- intros x' y' Hx' Hy'. apply HA; simpl; auto.
        -- exact HB.
      * simpl. f_equal. apply (IH1 (y :: l2a) l1b l2b).
        -- exact HA.
        -- intros x' y' Hx' Hy'. apply HB; simpl; auto.
Qed.

Lemma merge_one_l x (lo hi : list E) :
  (forall y, In y lo -> lt y x = true) ->
  (forall y, In y hi -> lt y x = false) ->
  merge cmp [x] (lo ++ hi) = lo ++ x :: hi.
Proof.
  intros Hlo Hhi.
  change (merge cmp [x] (lo ++ hi)) with (merge cmp ([] ++ [x]) (lo ++ hi)).
  rewrite (merge_split [] lo [x] hi).
  - rewrite merge_nil_l. f_equal.
    destruct hi as [|y hi]; [reflexivity|].
    rewrite merge_cons, (Hhi y) by (simpl; auto). now rewrite merge_nil_l.
  - intros x' y [<-|[]]. apply Hlo.
  - intros ? ? [].
Qed.

Lemma merge_one_r y (lo hi : list E) :
  (forall x, In x lo -> lt y x = false) ->
  (forall x, In x hi -> lt y x = true) ->
  merge cmp (lo ++ hi) [y] = lo ++ y :: hi.
Proof.
  intros Hlo Hhi.
  change (merge cmp (lo ++ hi) [y]) with (merge cmp (lo ++ hi) ([] ++ [y])).
  rewrite (merge_split lo [] hi [y]).
  - rewrite merge_nil_r. f_equal.
    destruct hi as [|x hi]; [reflexivity|].
    rewrite merge_cons, (Hhi x) by (simpl; auto). now rewrite merge_nil_r.
  - intros ? ? ? [].
  - intros x y' Hx [<-|[]]. now apply Hlo.
Qed.


(** *** The two insertion cases of [symMerge] *)

Lemma bubble_right (lo : list E) : forall pre x rest,
  fold_left (fun data k => slices.swap data k (k + 1)) (seq (length pre) (length lo))
            (pre ++ x :: lo ++ rest)
  = pre ++ lo ++ x :: rest.
Proof.
  induction lo as [|y lo IH]; intros pre x rest; [reflexivity|].
  cbn [length seq fold_left].
  replace (length pre + 1)%nat with (length pre + S (length (@nil E)))%nat
    by (simpl; lia).
  change (pre ++ x :: (y :: lo) ++ rest) with (pre ++ x :: [] ++ y :: (lo ++ rest)).
  rewrite swap_apart. simpl app.
  replace (pre ++ y :: x :: lo ++ rest) with ((pre ++ [y]) ++ x :: lo ++ rest)
    by now rewrite <- app_assoc.
  replace (S (length pre)) with (length (pre ++ [y]))
    by (rewrite length_app; simpl; lia).
  rewrite IH. now rewrite <- app_assoc.
Qed.

Lemma bubble_left (hi : list E) : forall pre y rest,
  fold_left (fun data k => slices.swap data k (k - 1))
            (rev (seq (length pre + 1) (length hi)))
            (pre ++ hi ++ y :: rest)
  = pre ++ y :: hi ++ rest.
Proof.
  induction hi as [|z hi IH] using rev_ind; intros pre y rest; [reflexivity|].
  rewrite length_app. simpl length.
  replace (length hi + 1)%nat with (S (length hi)) by lia.
  rewrite seq_S, rev_app_distr. cbn [rev app fold_left].
  replace (pre ++ (hi ++ [z]) ++ y :: rest) with ((pre ++ hi) ++ z :: y :: rest)
    by now rewrite <- !app_assoc.
  replace (length pre + 1 + length hi)%nat with (S (length (pre ++ hi)))
    by (rewrite length_app; lia).
  replace (S (length (pre ++ hi)) - 1)%nat with (length (pre ++ hi)) by lia.
  rewrite swap_adjacent.
  replace ((pre ++ hi) ++ y :: z :: rest) with (pre ++ hi ++ y :: (z :: rest))
    by now rewrite <- !app_assoc.
  rewrite IH. now rewrite <- !app_assoc.
Qed.

Lemma lookup_segment (pre s rest : list E) t :
  (t < length s)%nat -> (pre ++ s ++ rest) !! (length pre + t)%nat = s !! t.
Proof.
  intros Ht. rewrite lookup_app_r by lia.
  replace (length pre + t - length pre)%nat with t by lia.
  now rewrite lookup_app_l.
Qed.

Lemma Ordered_le (l : list E) i j a b :
  Ordered cmp l -> (forall x, In x l -> In x U) -> (i <= j)%nat ->
  l !! i = Some a -> l !! j = Some b -> lt b a = false.
Proof.
  intros Hord HU Hij Hi Hj.
  destruct (decide (i = j)) as [->|Hne].
  - assert (a = b) by congruence. subst b. apply lt_irrefl. apply HU.
    apply list_elem_of_In. eapply list_elem_of_lookup_2. exact Hi.
  - apply (Hord i j); auto. lia.
Qed.

Lemma In_lookup (l : list E) x : In x l -> exists i, l !! i = Some x.
Proof. intros Hx. apply list_elem_of_In in Hx. now apply list_elem_of_lookup_1. Qed.

Lemma lookup_In (l : list E) i x : l !! i = Some x -> In x l.
Proof. intros Hx. apply list_elem_of_In. eapply list_elem_of_lookup_2. exact Hx. Qed.

Lemma In_take_lookup (l : list E) t x :
  In x (take t l) -> exists u, (u < t)%nat /\ l !! u = Some x.
Proof.
  intros Hx. apply In_lookup in Hx as [u Hu]. exists u.
  apply lookup_take_Some in Hu as [Hu Hlt]. auto.
Qed.

Lemma In_drop_lookup (l : list E) t x :
  In x (drop t l) -> exists u, l !! (t + u)%nat = Some x.
Proof.
  intros Hx. apply In_lookup in Hx as [u Hu]. exists u.
  now rewrite lookup_drop in Hu.
Qed.

(** [data[a]] alone is merged into the run after it. *)
Lemma symMerge_insert_first x (s2 pre post : list E) a m b :
  a = length pre -> m = (a + 1)%nat -> b = (m + length s2)%nat ->
  Ordered cmp s2 -> (forall z, In z (x :: s2) -> In z U) ->
  let data := pre ++ [x] ++ s2 ++ post in
  let i := slices.search (b - m) (fun h => slices.lessAt cmp data h a) m b in
  fold_left (fun data k => slices.swap data k (k + 1)) (seq a (i - 1 - a)) data
  = pre ++ merge cmp [x] s2 ++ post.
Proof.
  intros Ha Hm Hb Hord HU data i.
  assert (Hx : In x U) by (apply HU; now left).
  assert (HU2 : forall z, In z s2 -> In z U) by (intros z Hz; apply HU; now right).
  assert (Hlook : forall t y, s2 !! t = Some y ->
            slices.lessAt cmp data (m + t) a = lt y x).
  { intros t y Ht. apply lessAt_lookup.
    - unfold data. subst m a. rewrite app_assoc.
      replace (length pre + 1 + t)%nat with (length (pre ++ [x]) + t)%nat
        by (rewrite length_app; simpl; lia).
      rewrite lookup_segment; [exact Ht|]. now apply lookup_lt_Some in Ht.
    - unfold data. subst a. cbn [app]. now rewrite list_lookup_middle. }
  destruct (search_boundary (b - m) (fun h => slices.lessAt cmp data h a) m b)
    as (Hi & Hlo & Hhi); [lia|lia| |].
  { intros h h' H1 H2 H3 Hup.
    destruct (lookup_lt_is_Some_2 s2 (h - m)) as [y Hy]; [lia|].
    destruct (lookup_lt_is_Some_2 s2 (h' - m)) as [y' Hy']; [lia|].
    replace h with (m + (h - m))%nat by lia.
    replace h' with (m + (h' - m))%nat in Hup by lia.
    rewrite (Hlook _ _ Hy). rewrite (Hlook _ _ Hy') in Hup.
    apply ge_lt_trans with y'; auto; try (apply HU2; eapply lookup_In; eassumption).
    apply (Ordered_le s2 (h - m) (h' - m)); auto. lia. }
  fold i in Hi, Hlo, Hhi.
  rewrite <- (take_drop (i - m) s2).
  rewrite merge_one_l.
  - assert (Hlen : length (take (i - m) s2) = (i - 1 - a)%nat)
      by (rewrite length_take; lia).
    rewrite <- Hlen. subst a. unfold data.
    rewrite <- (take_drop (i - m) s2) at 2.
    replace (pre ++ [x] ++ (take (i - m) s2 ++ drop (i - m) s2) ++ post)
      with (pre ++ x :: take (i - m) s2 ++ (drop (i - m) s2 ++ post))
      by (simpl; now rewrite <- !app_assoc).
    rewrite bubble_right. rewrite <- !app_assoc. reflexivity.
  - intros y Hy. apply In_take_lookup in Hy as (u & Hu & Hy).
    rewrite <- (Hlook _ _ Hy). apply Hlo. lia.
  - intros y Hy. apply In_drop_lookup in Hy as (u & Hy).
    rewrite <- (Hlook _ _ Hy). apply Hhi.
    apply lookup_lt_Some in Hy. lia.
Qed.

(** [data[m]] alone is merged into the run before it. *)
Lemma symMerge_insert_last y (s1 pre post : list E) a m b :
  a = length pre -> m = (a + length s1)%nat -> b = (m + 1)%nat ->
  Ordered cmp s1 -> (forall z, In z (y :: s1) -> In z U) ->
  let data := pre ++ s1 ++ [y] ++ post in
  let i := slices.search (m - a) (fun h => negb (slices.lessAt cmp data m h)) a m in
  fold_left (fun data k => slices.swap data k (k - 1)) (rev (seq (i + 1) (m - i))) data
  = pre ++ merge cmp s1 [y] ++ post.
Proof.
  intros Ha Hm Hb Hord HU data i.
  assert (Hy : In y U) by (apply HU; now left).
  assert (HU1 : forall z, In z s1 -> In z U) by (intros z Hz; apply HU; now right).
  assert (Hlook : forall t x, s1 !! t = Some x ->
            slices.lessAt cmp data m (a + t) = lt y x).
  { intros t x Ht. apply lessAt_lookup.
    - unfold data. subst m a. rewrite app_assoc.
      replace (length pre + length s1)%nat with (length (pre ++ s1))
        by now rewrite length_app.
      cbn [app]. now rewrite list_lookup_middle.
    - unfold data. subst a. rewrite lookup_segment; [exact Ht|].
      now apply lookup_lt_Some in Ht. }
  destruct (search_boundary (m - a)
              (fun h => negb (slices.lessAt cmp data m h)) a m)
    as (Hi & Hlo & Hhi); [lia|lia| |].
  { intros h h' H1 H2 H3 Hup.
    destruct (lookup_lt_is_Some_2 s1 (h - a)) as [x Hx]; [lia|].
    destruct (lookup_lt_is_Some_2 s1 (h' - a)) as [x' Hx']; [lia|].
    replace h with (a + (h - a))%nat by lia.
    replace h' with (a + (h' - a))%nat in Hup by lia.
    rewrite (Hlook _ _ Hx). rewrite (Hlook _ _ Hx') in Hup.
    apply negb_true_iff in Hup. apply negb_true_iff.
    apply ge_trans with x'; auto; try (apply HU1; eapply lookup_In; eassumption).
    apply (Ordered_le s1 (h - a) (h' - a)); auto. lia. }
  fold i in Hi, Hlo, Hhi.
  rewrite <- (take_drop (i - a) s1).
  rewrite merge_one_r.
  - assert (Hlen : length (drop (i - a) s1) = (m - i)%nat)
      by (rewrite length_drop; lia).
    rewrite <- Hlen. unfold data.
    rewrite <- (take_drop (i - a) s1) at 2.
    replace (pre ++ (take (i - a) s1 ++ drop (i - a) s1) ++ [y] ++ post)
      with ((pre ++ take (i - a) s1) ++ drop (i - a) s1 ++ y :: post)
      by (simpl; now rewrite <- !app_assoc).
    replace i with (length (pre ++ take (i - a) s1)) at 1
      by (rewrite length_app, length_take; lia).
    rewrite bubble_left. rewrite <- !app_assoc. reflexivity.
  - intros x Hx. apply In_take_lookup in Hx as (u & Hu & Hx).
    rewrite <- (Hlook _ _ Hx). apply negb_true_iff. apply Hlo. lia.
  - intros x Hx. apply In_drop_lookup in Hx as (u & Hx).
    rewrite <- (Hlook _ _ Hx).
    replace (a + (i - a + u))%nat with (i + u)%nat by lia.
    apply negb_false_iff. apply Hhi.
    apply lookup_lt_Some in Hx. lia.
Qed.


(** *** The symmetric cut *)

Lemma merge_Permutation (l1 : list E) : forall l2,
  Permutation (merge cmp l1 l2) (l1 ++ l2).
Proof.
  induction l1 as [|a l1 IH1]; intros l2.
  - now rewrite merge_nil_l.
  - induction l2 as [|b l2 IH2].
    + now rewrite merge_nil_r, app_nil_r.
    + rewrite merge_cons. destruct (lt b a).
      * rewrite IH2. apply Permutation_middle.
      * rewrite IH1. reflexivity.
Qed.

Lemma merge_length (l1 l2 : list E) :
  length (merge cmp l1 l2) = (length l1 + length l2)%nat.
Proof. rewrite (Permutation_length (merge_Permutation l1 l2)). apply length_app. Qed.

Lemma merge_In (l1 l2 : list E) x : In x (merge cmp l1 l2) <-> In x l1 \/ In x l2.
Proof.
  rewrite <- in_app_iff. split; apply Permutation_in;
    [|symmetry]; apply merge_Permutation.
Qed.

Lemma half_bounds n : (2 * (n / 2) <= n < 2 * (n / 2) + 2)%nat.
Proof.
  pose proof (Nat.div_mod_eq n 2). pose proof (Nat.mod_upper_bound n 2). lia.
Qed.

(** Where the binary search of the general case stops: [t] elements of
    the first run and [D - t] of the second make up the left half. *)
Lemma symMerge_cut (s1 s2 pre post : list E) a m b start0 r0 D :
  a = length pre -> m = (a + length s1)%nat -> b = (m + length s2)%nat ->
  D = ((length s1 + length s2) / 2)%nat ->
  start0 = (a + (D - length s2))%nat -> r0 = (a + Nat.min (length s1) D)%nat ->
  Ordered cmp s1 -> Ordered cmp s2 -> (forall z, In z (s1 ++ s2) -> In z U) ->
  let data := pre ++ s1 ++ s2 ++ post in
  let p := ((a + b) / 2 + m - 1)%nat in
  let start :=
    slices.search (r0 - start0)
      (fun c => negb (slices.lessAt cmp data (p - c) c)) start0 r0 in
  exists t, start = (a + t)%nat /\ (t <= length s1)%nat /\ (t <= D)%nat /\
            (D - t <= length s2)%nat /\
            (forall x y, In x (drop t s1) -> In y (take (D - t) s2) -> lt y x = true) /\
            (forall x y, In x (take t s1) -> In y (drop (D - t) s2) -> lt y x = false).
Proof.
  intros Ha Hm Hb HD Hs0 Hr0 Hord1 Hord2 HU data p start.
  assert (HU1 : forall z, In z s1 -> In z U).
  { intros z Hz. apply HU. apply in_or_app. now left. }
  assert (HU2 : forall z, In z s2 -> In z U).
  { intros z Hz. apply HU. apply in_or_app. now right. }
  pose proof (half_bounds (a + b)) as Hhalf.
  pose proof (half_bounds (length s1 + length s2)) as Hhalf'.
  assert (Hmid : ((a + b) / 2 = a + D)%nat) by lia.
  assert (HDle : (D <= length s1 + length s2)%nat) by lia.
  clear Hhalf. rewrite <- HD in Hhalf'.
  assert (Hlook : forall u x y, s1 !! u = Some x -> s2 !! (D - 1 - u)%nat = Some y ->
            (u < D)%nat ->
            slices.lessAt cmp data (p - (a + u)) (a + u) = lt y x).
  { intros u x y Hx Hy Hu. apply lessAt_lookup.
    - unfold data, p. rewrite Hmid.
      replace (a + D + m - 1 - (a + u))%nat
        with (length (pre ++ s1) + (D - 1 - u))%nat
        by (rewrite length_app; lia).
      rewrite app_assoc. rewrite lookup_segment; [exact Hy|].
      now apply lookup_lt_Some in Hy.
    - unfold data. subst a. rewrite lookup_segment; [exact Hx|].
      now apply lookup_lt_Some in Hx. }
  destruct (search_boundary (r0 - start0)
              (fun c => negb (slices.lessAt cmp data (p - c) c)) start0 r0)
    as (Hk & Hlo & Hhi); [lia|lia| |].
  { intros h h' H1 H2 H3 Hup.
    destruct (lookup_lt_is_Some_2 s1 (h - a)) as [x Hx]; [lia|].
    destruct (lookup_lt_is_Some_2 s1 (h' - a)) as [x' Hx']; [lia|].
    destruct (lookup_lt_is_Some_2 s2 (D - 1 - (h - a))) as [y Hy]; [lia|].
    destruct (lookup_lt_is_Some_2 s2 (D - 1 - (h' - a))) as [y' Hy']; [lia|].
    replace h with (a + (h - a))%nat by lia.
    replace h' with (a + (h' - a))%nat in Hup by lia.
    rewrite (Hlook _ _ _ Hx Hy) by lia.
    rewrite (Hlook _ _ _ Hx' Hy') in Hup by lia.
    apply negb_true_iff in Hup. apply negb_true_iff.
    assert (Hx_U : In x U) by (apply HU1; eapply lookup_In; eassumption).
    assert (Hx'_U : In x' U) by (apply HU1; eapply lookup_In; eassumption).
    assert (Hy_U : In y U) by (apply HU2; eapply lookup_In; eassumption).
    assert (Hy'_U : In y' U) by (apply HU2; eapply lookup_In; eassumption).
    apply ge_trans with y'; auto.
    - apply (Ordered_le s2 (D - 1 - (h' - a)) (D - 1 - (h - a))); auto. lia.
    - apply ge_trans with x'; auto.
      apply (Ordered_le s1 (h - a) (h' - a)); auto. lia. }
  fold start in Hk, Hlo, Hhi.
  exists (start - a)%nat. repeat split; try lia.
  - (* the second run's left part goes before the first run's right part *)
    intros x y Hx Hy.
    apply In_drop_lookup in Hx as (u & Hx).
    apply In_take_lookup in Hy as (v & Hv & Hy).
    assert (Hu : (start - a + u < length s1)%nat) by now apply lookup_lt_Some in Hx.
    destruct (lookup_lt_is_Some_2 s1 (start - a)) as [x0 Hx0]; [lia|].
    destruct (lookup_lt_is_Some_2 s2 (D - 1 - (start - a))) as [y0 Hy0].
    { apply lookup_lt_Some in Hy. lia. }
    assert (H0 : lt y0 x0 = true).
    { rewrite <- (Hlook _ _ _ Hx0 Hy0) by lia. apply negb_false_iff.
      replace (a + (start - a))%nat with start by lia.
      apply Hhi. lia. }
    assert (Hx_U : In x U) by (apply HU1; eapply lookup_In; eassumption).
    assert (Hx0_U : In x0 U) by (apply HU1; eapply lookup_In; eassumption).
    assert (Hy_U : In y U) by (apply HU2; eapply lookup_In; eassumption).
    assert (Hy0_U : In y0 U) by (apply HU2; eapply lookup_In; eassumption).
    apply lt_ge_trans with x0; auto.
    + apply ge_lt_trans with y0; auto.
      apply (Ordered_le s2 v (D - 1 - (start - a))); auto. lia.
    + apply (Ordered_le s1 (start - a) (start - a + u)); auto. lia.
  - (* the first run's left part stays before the second run's right part *)
    intros x y Hx Hy.
    apply In_take_lookup in Hx as (u & Hu & Hx).
    apply In_drop_lookup in Hy as (v & Hy).
    assert (Hv : (D - (start - a) + v < length s2)%nat) by now apply lookup_lt_Some in Hy.
    destruct (lookup_lt_is_Some_2 s1 (start - a - 1)) as [x0 Hx0].
    { apply lookup_lt_Some in Hx. lia. }
    destruct (lookup_lt_is_Some_2 s2 (D - 1 - (start - a - 1))) as [y0 Hy0]; [lia|].
    assert (H0 : lt y0 x0 = false).
    { rewrite <- (Hlook _ _ _ Hx0 Hy0) by lia. apply negb_true_iff.
      apply Hlo. lia. }
    assert (Hx_U : In x U) by (apply HU1; eapply lookup_In; eassumption).
    assert (Hx0_U : In x0 U) by (apply HU1; eapply lookup_In; eassumption).
    assert (Hy_U : In y U) by (apply HU2; eapply lookup_In; eassumption).
    assert (Hy0_U : In y0 U) by (apply HU2; eapply lookup_In; eassumption).
    apply ge_trans with y0; auto.
    + apply (Ordered_le s2 (D - 1 - (start - a - 1)) (D - (start - a) + v)); auto. lia.
    + apply ge_trans with x0; auto.
      apply (Ordered_le s1 u (start - a - 1)); auto. lia.
Qed.


Lemma Ordered_take (l : list E) t : Ordered cmp l -> Ordered cmp (take t l).
Proof.
  intros Hord. rewrite <- (take_drop t l) in Hord.
  now apply Ordered_app in Hord as (H1 & _).
Qed.

Lemma Ordered_drop (l : list E) t : Ordered cmp l -> Ordered cmp (drop t l).
Proof.
  intros Hord. rewrite <- (take_drop t l) in Hord.
  now apply Ordered_app in Hord as (_ & H2 & _).
Qed.

Lemma In_take (l : list E) t x : In x (take t l) -> In x l.
Proof. intros Hx. rewrite <- (take_drop t l). apply in_or_app. now left. Qed.

Lemma In_drop (l : list E) t x : In x (drop t l) -> In x l.
Proof. intros Hx. rewrite <- (take_drop t l). apply in_or_app. now right. Qed.

(** [symMerge] merges two adjacent ordered runs. *)
Lemma symMerge_merge fuel : forall (s1 s2 pre post : list E) a m b,
  a = length pre -> m = (a + length s1)%nat -> b = (m + length s2)%nat ->
  s1 <> [] -> s2 <> [] -> (length s1 + length s2 <= fuel)%nat ->
  Ordered cmp s1 -> Ordered cmp s2 -> (forall z, In z (s1 ++ s2) -> In z U) ->
  slices.symMergeCmpFunc cmp fuel (pre ++ s1 ++ s2 ++ post) a m b
  = pre ++ merge cmp s1 s2 ++ post.
Proof.
  induction fuel as [|fuel IH];
    intros s1 s2 pre post a m b Ha Hm Hb Hs1 Hs2 Hfuel Hord1 Hord2 HU.
  { destruct s1; [congruence|simpl in Hfuel; lia]. }
  assert (Hn1 : (0 < length s1)%nat) by (destruct s1; [congruence|simpl; lia]).
  assert (Hn2 : (0 < length s2)%nat) by (destruct s2; [congruence|simpl; lia]).
  cbn [slices.symMergeCmpFunc].
  destruct (m - a =? 1)%nat eqn:Hone1.
  { apply Nat.eqb_eq in Hone1.
    destruct s1 as [|x [|x' s1]]; [congruence| |simpl in Hm; lia].
    apply symMerge_insert_first; auto; simpl in Hm; lia. }
  destruct (b - m =? 1)%nat eqn:Hone2.
  { apply Nat.eqb_eq in Hone2.
    destruct s2 as [|y [|y' s2]]; [congruence| |simpl in Hb; lia].
    apply (symMerge_insert_last y s1 pre post a m b); auto; try (simpl in Hb; lia).
    intros z [<-|Hz]; apply HU; apply in_or_app; [right; now left|now left]. }
  apply Nat.eqb_neq in Hone1, Hone2.
  set (D := ((length s1 + length s2) / 2)%nat).
  pose proof (half_bounds (a + b)) as Hhalf.
  pose proof (half_bounds (length s1 + length s2)) as Hhalf'.
  fold D in Hhalf'.
  assert (Hmid : ((a + b) / 2 = a + D)%nat) by lia.
  set (data := pre ++ s1 ++ s2 ++ post).
  (* both choices of the search interval are the same in terms of [D] *)
  assert (Hcut : exists start0 r0,
    (if ((a + b) / 2 <? m)%nat then ((a + b) / 2 + m - b, (a + b) / 2)%nat else (a, m))
    = (start0, r0) /\
    start0 = (a + (D - length s2))%nat /\ r0 = (a + Nat.min (length s1) D)%nat).
  { destruct ((a + b) / 2 <? m)%nat eqn:Hcase.
    - apply Nat.ltb_lt in Hcase. eexists _, _. split; [reflexivity|]. lia.
    - apply Nat.ltb_ge in Hcase. eexists _, _. split; [reflexivity|]. lia. }
  destruct Hcut as (start0 & r0 & -> & Hs0 & Hr0).
  destruct (symMerge_cut s1 s2 pre post a m b start0 r0 D)
    as (t & Hstart & Ht1 & HtD & Ht2 & HA & HB); auto.
  fold data in Hstart. cbv zeta in Hstart.
  rewrite Hstart. clear Hstart.
  set (l1a := take t s1). set (l1b := drop t s1).
  set (l2a := take (D - t) s2). set (l2b := drop (D - t) s2).
  fold l1a l1b l2a l2b in HA, HB.
  assert (Hl1 : s1 = l1a ++ l1b) by (symmetry; apply take_drop).
  assert (Hl2 : s2 = l2a ++ l2b) by (symmetry; apply take_drop).
  assert (Hl1a : length l1a = t) by (unfold l1a; rewrite length_take; lia).
  assert (Hl1b : length l1b = (length s1 - t)%nat) by (unfold l1b; now rewrite length_drop).
  assert (Hl2a : length l2a = (D - t)%nat) by (unfold l2a; rewrite length_take; lia).
  assert (Hl2b : length l2b = (length s2 - (D - t))%nat)
    by (unfold l2b; now rewrite length_drop).
  replace ((a + b) / 2 + m - (a + t))%nat with (m + (D - t))%nat by lia.
  rewrite Hmid.
  (* the rotation *)
  assert (Hrot :
    (if (a + t <? m)%nat && (m <? m + (D - t))%nat
     then slices.rotateCmpFunc data (a + t) m (m + (D - t)) else data)
    = pre ++ l1a ++ l2a ++ l1b ++ l2b ++ post).
  { destruct ((a + t <? m)%nat && (m <? m + (D - t))%nat) eqn:Hg.
    - apply andb_true_iff in Hg as [Hg1 Hg2].
      apply Nat.ltb_lt in Hg1, Hg2.
      unfold data. rewrite Hl1, Hl2.
      replace (pre ++ (l1a ++ l1b) ++ (l2a ++ l2b) ++ post)
        with ((pre ++ l1a) ++ l1b ++ l2a ++ (l2b ++ post))
        by now rewrite <- !app_assoc.
      rewrite rotate_blocks.
      + now rewrite <- !app_assoc.
      + intros Hnil. rewrite Hnil in Hl1b. simpl in Hl1b. lia.
      + intros Hnil. rewrite Hnil in Hl2a. simpl in Hl2a. lia.
      + rewrite length_app. lia.
      + lia.
      + lia.
    - apply andb_false_iff in Hg as [Hg|Hg]; apply Nat.ltb_ge in Hg.
      + assert (Hnil : l1b = []) by (apply length_zero_iff_nil; lia).
        unfold data. rewrite Hl1, Hl2, Hnil, <- !app_assoc. reflexivity.
      + assert (Hnil : l2a = []) by (apply length_zero_iff_nil; lia).
        unfold data. rewrite Hl1, Hl2, Hnil, <- !app_assoc. reflexivity. }
  rewrite Hrot. clear Hrot.
  (* the left half *)
  assert (Hleft :
    (if (a <? a + t)%nat && (a + t <? a + D)%nat
     then slices.symMergeCmpFunc cmp fuel
            (pre ++ l1a ++ l2a ++ l1b ++ l2b ++ post) a (a + t) (a + D)
     else pre ++ l1a ++ l2a ++ l1b ++ l2b ++ post)
    = (pre ++ merge cmp l1a l2a) ++ l1b ++ l2b ++ post).
  { destruct ((a <? a + t)%nat && (a + t <? a + D)%nat) eqn:Hg.
    - apply andb_true_iff in Hg as [Hg1 Hg2].
      apply Nat.ltb_lt in Hg1, Hg2.
      replace (pre ++ l1a ++ l2a ++ l1b ++ l2b ++ post)
        with (pre ++ l1a ++ l2a ++ (l1b ++ l2b ++ post)) by reflexivity.
      rewrite IH.
      + now rewrite <- !app_assoc.
      + exact Ha.
      + lia.
      + lia.
      + intros Hnil. rewrite Hnil in Hl1a. simpl in Hl1a. lia.
      + intros Hnil. rewrite Hnil in Hl2a. simpl in Hl2a. lia.
      + lia.
      + now apply Ordered_take.
      + now apply Ordered_take.
      + intros z Hz. apply HU. apply in_app_or in Hz as [Hz|Hz];
          apply in_or_app; [left|right]; eapply In_take; exact Hz.
    - apply andb_false_iff in Hg as [Hg|Hg]; apply Nat.ltb_ge in Hg.
      + assert (Hnil : l1a = []) by (apply length_zero_iff_nil; lia).
        rewrite Hnil, merge_nil_l, <- !app_assoc. reflexivity.
      + assert (Hnil : l2a = []) by (apply length_zero_iff_nil; lia).
        rewrite Hnil, merge_nil_r, <- !app_assoc. reflexivity. }
  rewrite Hleft. clear Hleft.
  (* the right half *)
  assert (Hlen : length (pre ++ merge cmp l1a l2a) = (a + D)%nat).
  { rewrite length_app, merge_length. lia. }
  assert (Hright :
    (if (a + D <? m + (D - t))%nat && (m + (D - t) <? b)%nat
     then slices.symMergeCmpFunc cmp fuel
            ((pre ++ merge cmp l1a l2a) ++ l1b ++ l2b ++ post) (a + D) (m + (D - t)) b
     else (pre ++ merge cmp l1a l2a) ++ l1b ++ l2b ++ post)
    = (pre ++ merge cmp l1a l2a) ++ merge cmp l1b l2b ++ post).
  { destruct ((a + D <? m + (D - t))%nat && (m + (D - t) <? b)%nat) eqn:Hg.
    - apply andb_true_iff in Hg as [Hg1 Hg2].
      apply Nat.ltb_lt in Hg1, Hg2.
      rewrite IH.
      + reflexivity.
      + now rewrite Hlen.
      + lia.
      + lia.
      + intros Hnil. rewrite Hnil in Hl1b. simpl in Hl1b. lia.
      + intros Hnil. rewrite Hnil in Hl2b. simpl in Hl2b. lia.
      + lia.
      + now apply Ordered_drop.
      + now apply Ordered_drop.
      + intros z Hz. apply HU. apply in_app_or in Hz as [Hz|Hz];
          apply in_or_app; [left|right]; eapply In_drop; exact Hz.
    - apply andb_false_iff in Hg as [Hg|Hg]; apply Nat.ltb_ge in Hg.
      + assert (Hnil : l1b = []) by (apply length_zero_iff_nil; lia).
        rewrite Hnil, merge_nil_l. reflexivity.
      + assert (Hnil : l2b = []) by (apply length_zero_iff_nil; lia).
        rewrite Hnil, merge_nil_r. reflexivity. }
  rewrite Hright. clear Hright.
  rewrite Hl1, Hl2 at 1.
  rewrite (merge_split l1a l2a l1b l2b HA HB).
  now rewrite <- !app_assoc.
Qed.


(** *** Merging keeps order and stability *)

Lemma merge_Ordered (l1 : list E) : forall l2,
  (forall z, In z (l1 ++ l2) -> In z U) ->
  Ordered cmp l1 -> Ordered cmp l2 -> Ordered cmp (merge cmp l1 l2).
Proof.
  induction l1 as [|a l1 IH1]; intros l2 HU H1 H2.
  - now rewrite merge_nil_l.
  - induction l2 as [|b l2 IH2].
    + now rewrite merge_nil_r.
    + assert (Ha : In a U) by (apply HU; now left).
      assert (Hb : In b U) by (apply HU; apply in_or_app; right; now left).
      assert (HU1 : forall z, In z l1 -> In z U).
      { intros z Hz. apply HU. right. apply in_or_app. now left. }
      assert (HU2 : forall z, In z l2 -> In z U).
      { intros z Hz. apply HU. apply in_or_app. right. now right. }
      pose proof H1 as H1c. pose proof H2 as H2c.
      apply Ordered_cons in H1c as [Ha1 H1']. apply Ordered_cons in H2c as [Hb2 H2'].
      rewrite merge_cons. destruct (lt b a) eqn:Hba.
      * apply Ordered_cons. split.
        -- intros z Hz. apply merge_In in Hz as [[<-|Hz]|Hz].
           ++ now apply lt_asym.
           ++ apply ge_trans with a; auto. now apply lt_asym.
           ++ now apply Hb2.
        -- apply IH2; [|exact H2'].
           intros z Hz. apply HU. apply in_app_or in Hz as [Hz|Hz];
             apply in_or_app; [now left|right; now right].
      * apply Ordered_cons. split.
        -- intros z Hz. apply merge_In in Hz as [Hz|[<-|Hz]].
           ++ now apply Ha1.
           ++ exact Hba.
           ++ apply ge_trans with b; auto.
        -- apply IH1; [|exact H1'|exact H2].
           intros z Hz. apply HU. right. exact Hz.
Qed.

Lemma filter_none {A : Type} (p : A -> bool) (l : list A) :
  (forall z, In z l -> p z = false) -> List.filter p l = [].
Proof.
  induction l as [|z l IH]; intros Hl; [reflexivity|].
  simpl. rewrite (Hl z) by now left. apply IH. intros y Hy. apply Hl. now right.
Qed.

Lemma merge_filter e (l1 : list E) : forall l2,
  In e U -> (forall z, In z (l1 ++ l2) -> In z U) -> Ordered cmp l1 ->
  List.filter (equivalent cmp e) (merge cmp l1 l2)
  = List.filter (equivalent cmp e) l1 ++ List.filter (equivalent cmp e) l2.
Proof.
  intros l2 He. revert l2.
  induction l1 as [|a l1 IH1]; intros l2 HU H1.
  - now rewrite merge_nil_l.
  - induction l2 as [|b l2 IH2].
    + now rewrite merge_nil_r, app_nil_r.
    + assert (Ha : In a U) by (apply HU; now left).
      assert (Hb : In b U) by (apply HU; apply in_or_app; right; now left).
      assert (HU1 : forall z, In z l1 -> In z U).
      { intros z Hz. apply HU. right. apply in_or_app. now left. }
      pose proof H1 as H1c. apply Ordered_cons in H1c as [Ha1 H1'].
      rewrite merge_cons. destruct (lt b a) eqn:Hba.
      * assert (Hnone : equivalent cmp e b = true ->
                          List.filter (equivalent cmp e) (a :: l1) = []).
        { intros Heb. apply filter_none. intros z Hz.
          assert (Hz_U : In z U) by (destruct Hz as [<-|Hz]; auto).
          assert (Hbz : lt b z = true).
          { destruct Hz as [<-|Hz]; [exact Hba|].
            apply lt_ge_trans with a; auto. }
          pose proof (equivalent_not_both e b z He Hb Hz_U Hbz) as Hnb.
          rewrite Heb in Hnb. exact Hnb. }
        assert (HU' : forall z, In z ((a :: l1) ++ l2) -> In z U).
        { intros z Hz. apply HU. apply in_app_or in Hz as [Hz|Hz];
            apply in_or_app; [now left|right; now right]. }
        specialize (IH2 HU').
        remember (a :: l1) as al eqn:Hal.
        simpl. rewrite IH2.
        destruct (equivalent cmp e b) eqn:Heb; [|reflexivity].
        rewrite (Hnone eq_refl). reflexivity.
      * assert (HU' : forall z, In z (l1 ++ b :: l2) -> In z U).
        { intros z Hz. apply HU. right. exact Hz. }
        specialize (IH1 (b :: l2) HU' H1').
        remember (b :: l2) as bl eqn:Hbl.
        simpl. rewrite IH1.
        destruct (equivalent cmp e a); reflexivity.
Qed.

Lemma StableWithin_merge (x1 x2 s1 s2 : list E) :
  (forall z, In z (x1 ++ x2) -> In z U) ->
  StableWithin cmp U x1 s1 -> StableWithin cmp U x2 s2 ->
  StableWithin cmp U (x1 ++ x2) (merge cmp s1 s2).
Proof.
  intros HU (Hp1 & Ho1 & Hf1) (Hp2 & Ho2 & Hf2).
  assert (HUs : forall z, In z (s1 ++ s2) -> In z U).
  { intros z Hz. apply HU. apply in_app_or in Hz as [Hz|Hz]; apply in_or_app.
    - left. now apply (Permutation_in _ Hp1).
    - right. now apply (Permutation_in _ Hp2). }
  repeat split.
  - rewrite merge_Permutation. now apply Permutation_app.
  - now apply merge_Ordered.
  - intros e He. rewrite merge_filter by auto.
    rewrite List.filter_app, (Hf1 e He), (Hf2 e He). reflexivity.
Qed.

Lemma StableWithin_nil : StableWithin cmp U [] [].
Proof. repeat split; [constructor|apply Ordered_nil]. Qed.


(** *** The block loops *)

Lemma insertionSort_segment (pre seg post : list E) a b :
  a = length pre -> b = (a + length seg)%nat ->
  slices.insertionSortCmpFunc cmp (pre ++ seg ++ post) a b
  = pre ++ insertionSorted cmp seg ++ post.
Proof.
  intros -> ->. rewrite insertionSort_sub.
  2:{ rewrite !length_app. lia. }
  assert (H1 : take (length pre) (pre ++ seg ++ post) = pre)
    by apply take_app_length.
  assert (H2 : sub (pre ++ seg ++ post) (length pre) (length pre + length seg) = seg).
  { unfold sub. rewrite drop_app_length.
    replace (length pre + length seg - length pre)%nat with (length seg) by lia.
    apply take_app_length. }
  assert (H3 : drop (length pre + length seg) (pre ++ seg ++ post) = post).
  { rewrite <- drop_drop, drop_app_length. apply drop_app_length. }
  rewrite H1, H2, H3. reflexivity.
Qed.

Lemma insertionSorted_length (l : list E) :
  length (insertionSorted cmp l) = length l.
Proof.
  unfold insertionSorted. rewrite length_rev.
  change (length l) with (length (@nil E) + length l)%nat.
  generalize (@nil E) as r. induction l as [|x l IH]; intros r; simpl; [lia|].
  rewrite IH. rewrite (Permutation_length (insertRev_Permutation r x)). simpl. lia.
Qed.

Lemma sortBlocks_chunks (full : list (list E)) : forall fuel last pre n bs,
  Forall (fun c => length c = bs) full -> (length last < bs)%nat ->
  n = (length pre + length (concat full) + length last)%nat ->
  (length full < fuel)%nat ->
  slices.sortBlocks cmp fuel (pre ++ concat full ++ last) (length pre)
                    (length pre + bs) n bs
  = pre ++ concat (map (insertionSorted cmp) full) ++ insertionSorted cmp last.
Proof.
  induction full as [|c full IH]; intros fuel last pre n bs Hfull Hlast Hn Hfuel.
  - destruct fuel as [|fuel]; [simpl in Hfuel; lia|].
    cbn [slices.sortBlocks concat map app]. simpl in Hn.
    replace (length pre + bs <=? n)%nat with false
      by (symmetry; apply Nat.leb_gt; lia).
    rewrite <- (app_nil_r last) at 1.
    rewrite insertionSort_segment; [now rewrite app_nil_r|reflexivity|lia].
  - destruct fuel as [|fuel]; [simpl in Hfuel; lia|].
    apply List.Forall_cons_iff in Hfull as [Hc Hfull']. subst bs.
    cbn [slices.sortBlocks concat map]. cbn [concat] in Hn. rewrite length_app in Hn.
    replace (length pre + length c <=? n)%nat with true
      by (symmetry; apply Nat.leb_le; lia).
    rewrite <- !app_assoc.
    rewrite insertionSort_segment; [|reflexivity|reflexivity].
    rewrite app_assoc.
    replace (length pre + length c)%nat with (length (pre ++ insertionSorted cmp c))
      by (rewrite length_app, insertionSorted_length; reflexivity).
    rewrite IH; auto.
    + now rewrite <- !app_assoc.
    + rewrite length_app, insertionSorted_length. lia.
    + simpl in Hfuel. lia.
Qed.

Lemma mergeBlocks_chunks fuel : forall (full : list (list E)) last pre n bs,
  RunsOk cmp U bs full last -> (0 < bs)%nat ->
  n = (length pre + length (concat full) + length last)%nat ->
  (length full < fuel)%nat ->
  slices.mergeBlocks cmp fuel (pre ++ concat full ++ last) (length pre)
                     (length pre + 2 * bs) n bs
  = pre ++ concat (pairUp (merge cmp) full last).1 ++ (pairUp (merge cmp) full last).2.
Proof.
  induction fuel as [|fuel IH]; intros full last pre n bs Hok Hbs Hn Hfuel; [lia|].
  destruct Hok as (Hfull & Hlast & Hol & HUl).
  cbn [slices.mergeBlocks].
  destruct full as [|c1 [|c2 rest]].
  - simpl in Hn |- *.
    replace (length pre + (bs + (bs + 0)) <=? n)%nat with false
      by (symmetry; apply Nat.leb_gt; lia).
    replace (length pre + bs <? n)%nat with false
      by (symmetry; apply Nat.ltb_ge; lia).
    reflexivity.
  - apply List.Forall_cons_iff in Hfull as [(Hc1 & Ho1 & HU1) _]. subst bs.
    simpl in Hn. rewrite app_nil_r in Hn.
    cbn [concat pairUp fst snd app]. rewrite !app_nil_r.
    replace (length pre + 2 * length c1 <=? n)%nat with false
      by (symmetry; apply Nat.leb_gt; lia).
    destruct (length pre + length c1 <? n)%nat eqn:Hm.
    + apply Nat.ltb_lt in Hm.
      rewrite <- (app_nil_r last) at 1.
      rewrite symMerge_merge; auto; try lia.
      * now rewrite app_nil_r.
      * intros ->. simpl in Hbs. lia.
      * intros ->. simpl in Hn. lia.
      * intros z Hz. apply in_app_or in Hz as [Hz|Hz]; auto.
    + apply Nat.ltb_ge in Hm.
      assert (Hnil : last = []) by (apply length_zero_iff_nil; lia).
      rewrite Hnil, merge_nil_r, app_nil_r. reflexivity.
  - apply List.Forall_cons_iff in Hfull as [(Hc1 & Ho1 & HU1) Hfull'].
    apply List.Forall_cons_iff in Hfull' as [(Hc2 & Ho2 & HU2) Hrest]. subst bs.
    cbn [concat pairUp] in Hn |- *. rewrite !length_app in Hn.
    destruct (pairUp (merge cmp) rest last) as [f l] eqn:Hpair.
    cbn [fst snd concat].
    replace (length pre + 2 * length c1 <=? n)%nat with true
      by (symmetry; apply Nat.leb_le; lia).
    rewrite <- !app_assoc.
    rewrite symMerge_merge; auto; try lia.
    2:{ intros ->. simpl in Hbs. lia. }
    2:{ intros ->. simpl in Hc2. lia. }
    2:{ intros z Hz. apply in_app_or in Hz as [Hz|Hz]; auto. }
    rewrite app_assoc.
    replace (length pre + 2 * length c1)%nat
      with (length (pre ++ merge cmp c1 c2))
      by (rewrite length_app, merge_length; lia).
    rewrite IH; auto.
    + rewrite Hpair. cbn [fst snd]. now rewrite <- !app_assoc.
    + repeat split; auto.
    + rewrite length_app, merge_length. lia.
    + simpl in Hfuel. lia.
Qed.


(** *** The rounds *)

Lemma StableWithin_length (x out : list E) :
  StableWithin cmp U x out -> length out = length x.
Proof. intros (Hp & _). now apply Permutation_length. Qed.

Lemma StableWithin_In (x out : list E) :
  StableWithin cmp U x out -> (forall z, In z x -> In z U) ->
  forall z, In z out -> In z U.
Proof. intros (Hp & _) HU z Hz. apply HU. now apply (Permutation_in _ Hp). Qed.

Lemma pairUp_concat (n : nat) : forall (xfull : list (list E)) xlast,
  (length xfull <= n)%nat ->
  concat (pairUp (@app E) xfull xlast).1 ++ (pairUp (@app E) xfull xlast).2
  = concat xfull ++ xlast.
Proof.
  induction n as [|n IH]; intros xfull xlast Hn.
  - destruct xfull; [reflexivity|simpl in Hn; lia].
  - destruct xfull as [|c1 [|c2 rest]]; [reflexivity|simpl; now rewrite app_nil_r|].
    cbn [pairUp]. specialize (IH rest xlast).
    destruct (pairUp (@app E) rest xlast) as [f l]. cbn [fst snd concat] in *.
    rewrite <- !app_assoc. rewrite IH; [reflexivity|simpl in Hn; lia].
Qed.

Lemma pairUp_runs (n : nat) : forall (xfull full : list (list E)) xlast last bs,
  (length full <= n)%nat ->
  (forall z, In z (concat xfull ++ xlast) -> In z U) ->
  Forall2 (StableWithin cmp U) xfull full -> StableWithin cmp U xlast last ->
  RunsOk cmp U bs full last ->
  Forall2 (StableWithin cmp U) (pairUp (@app E) xfull xlast).1
                               (pairUp (merge cmp) full last).1 /\
  StableWithin cmp U (pairUp (@app E) xfull xlast).2 (pairUp (merge cmp) full last).2 /\
  RunsOk cmp U (2 * bs) (pairUp (merge cmp) full last).1
                        (pairUp (merge cmp) full last).2.
Proof.
  induction n as [|n IH]; intros xfull full xlast last bs Hn HU Hf Hl Hok.
  - destruct full; [|simpl in Hn; lia]. inversion Hf; subst.
    destruct Hok as (_ & Hlen & Ho & Hu). simpl.
    split; [constructor|]. split; [exact Hl|].
    repeat split; auto. lia.
  - destruct Hok as (Hfull & Hlen & Ho & Hu).
    destruct Hf as [|xc1 c1 xrest rest H1 Hf].
    { simpl. split; [constructor|]. split; [exact Hl|].
      repeat split; auto. lia. }
    apply List.Forall_cons_iff in Hfull as [(Hc1 & Ho1 & HU1) Hfull].
    destruct Hf as [|xc2 c2 xrest rest H2 Hf].
    { cbn [pairUp fst snd]. split; [constructor|]. split.
      - apply StableWithin_merge; auto.
        intros z Hz. apply HU. simpl. now rewrite app_nil_r.
      - split; [constructor|]. split; [rewrite merge_length; lia|]. split.
        + apply merge_Ordered; auto.
          intros z Hz. apply in_app_or in Hz as [Hz|Hz]; auto.
        + intros z Hz. apply merge_In in Hz as [Hz|Hz]; auto. }
    apply List.Forall_cons_iff in Hfull as [(Hc2 & Ho2 & HU2) Hfull].
    cbn [pairUp].
    destruct (IH xrest rest xlast last bs) as (IHf & IHl & IHok); auto.
    { simpl in Hn. lia. }
    { intros z Hz. apply HU. cbn [concat]. rewrite <- !app_assoc.
      apply in_or_app. right. apply in_or_app. now right. }
    { repeat split; auto. }
    destruct (pairUp (@app E) xrest xlast) as [xf xl].
    destruct (pairUp (merge cmp) rest last) as [f l].
    cbn [fst snd] in *.
    assert (HU12 : forall z, In z (xc1 ++ xc2) -> In z U).
    { intros z Hz. apply HU. cbn [concat]. rewrite <- !app_assoc.
      apply in_app_or in Hz as [Hz|Hz]; apply in_or_app; [now left|right].
      apply in_or_app. now left. }
    split; [constructor; [now apply StableWithin_merge|exact IHf]|].
    split; [exact IHl|].
    destruct IHok as (IHfull & IHlen & IHo & IHu).
    split; [|repeat split; auto].
    constructor; [|exact IHfull].
    split; [rewrite merge_length; lia|]. split.
    + apply merge_Ordered; auto.
      intros z Hz. apply in_app_or in Hz as [Hz|Hz]; auto.
    + intros z Hz. apply merge_In in Hz as [Hz|Hz]; auto.
Qed.

(** Once the block size has reached the length there is one run. *)
Lemma runs_done (xfull full : list (list E)) xlast last bs :
  (0 < bs)%nat -> (length (concat full) + length last <= bs)%nat ->
  Forall2 (StableWithin cmp U) xfull full -> StableWithin cmp U xlast last ->
  RunsOk cmp U bs full last ->
  StableWithin cmp U (concat xfull ++ xlast) (concat full ++ last).
Proof.
  intros Hbs Hn Hf Hl (Hfull & Hlen & _).
  destruct Hf as [|xc c xrest rest Hc Hf]; [exact Hl|].
  apply List.Forall_cons_iff in Hfull as [(Hlc & _) Hfull].
  cbn [concat] in Hn. rewrite length_app in Hn.
  assert (Hrest : rest = []).
  { destruct rest as [|c' rest]; [reflexivity|].
    apply List.Forall_cons_iff in Hfull as [(Hlc' & _) _].
    cbn [concat] in Hn. rewrite length_app in Hn. lia. }
  subst rest. inversion Hf; subst.
  assert (Hlast : last = []) by (apply length_zero_iff_nil; lia).
  subst last.
  assert (Hxlast : xlast = []).
  { apply length_zero_iff_nil. now rewrite <- (StableWithin_length _ _ Hl). }
  subst xlast. simpl. now rewrite !app_nil_r.
Qed.

Lemma mergeRounds_sorted fuel : forall (xfull full : list (list E)) xlast last bs n,
  (0 < bs)%nat -> RunsOk cmp U bs full last ->
  Forall2 (StableWithin cmp U) xfull full -> StableWithin cmp U xlast last ->
  (forall z, In z (concat xfull ++ xlast) -> In z U) ->
  n = (length (concat full) + length last)%nat -> (n <= bs + fuel)%nat ->
  StableWithin cmp U (concat xfull ++ xlast)
               (slices.mergeRounds cmp fuel (concat full ++ last) n bs).
Proof.
  induction fuel as [|fuel IH]; intros xfull full xlast last bs n Hbs Hok Hf Hl HU Hn Hfuel.
  - cbn [slices.mergeRounds]. apply runs_done with bs; auto. lia.
  - cbn [slices.mergeRounds]. destruct (bs <? n)%nat eqn:Hlt.
    2:{ apply Nat.ltb_ge in Hlt. apply runs_done with bs; auto. lia. }
    apply Nat.ltb_lt in Hlt.
    assert (Hcount : (length full <= n)%nat).
    { destruct Hok as (Hfull & _). rewrite Hn. clear -Hfull Hbs.
      induction Hfull as [|c full (Hc & _) _ IHf]; simpl; [lia|].
      rewrite length_app. lia. }
    assert (Hround :
      slices.mergeBlocks cmp (S n) (concat full ++ last) 0 (2 * bs) n bs
      = concat (pairUp (merge cmp) full last).1 ++ (pairUp (merge cmp) full last).2).
    { apply (mergeBlocks_chunks (S n) full last [] n bs Hok Hbs); simpl; lia. }
    rewrite Hround.
    destruct (pairUp_runs (length full) xfull full xlast last bs)
      as (Hf' & Hl' & Hok'); auto.
    rewrite <- (pairUp_concat (length xfull) xfull xlast) by lia.
    apply IH; auto; try lia.
    + intros z Hz. rewrite (pairUp_concat (length xfull)) in Hz by lia. auto.
    + rewrite <- length_app. rewrite <- Hround.
      rewrite (Permutation_length (mergeBlocks_Permutation cmp _ _ _ _ _ _)).
      rewrite length_app. exact Hn.
Qed.

Lemma chunking (bs fuel : nat) : forall l : list E,
  (0 < bs)%nat -> (length l <= fuel)%nat ->
  exists full last, l = concat full ++ last /\
    Forall (fun c => length c = bs) full /\ (length last < bs)%nat.
Proof.
  induction fuel as [|fuel IH]; intros l Hbs Hfuel.
  - exists [], l. repeat split; [constructor|lia].
  - destruct (Nat.lt_ge_cases (length l) bs) as [Hshort|Hlong].
    + exists [], l. repeat split; [constructor|exact Hshort].
    + destruct (IH (drop bs l)) as (full & last & Heq & Hfull & Hlast); auto.
      { rewrite length_drop. lia. }
      exists (take bs l :: full), last. repeat split; auto.
      * cbn [concat]. rewrite <- app_assoc, <- Heq. symmetry. apply take_drop.
      * constructor; [|exact Hfull]. rewrite length_take. lia.
Qed.

Lemma stableCmpFunc_StableWithin (x : list E) :
  (forall z, In z x -> In z U) ->
  StableWithin cmp U x (slices.stableCmpFunc cmp x (length x)).
Proof.
  intros HU. unfold slices.stableCmpFunc.
  destruct (chunking 20 (length x) x) as (full & last & Hx & Hfull & Hlast); [lia..|].
  assert (HUfull : Forall (fun c => forall z, In z c -> In z U) full).
  { apply List.Forall_forall. intros c Hc z Hz. apply HU. rewrite Hx.
    apply in_or_app. left. apply in_concat. eauto. }
  assert (HUlast : forall z, In z last -> In z U).
  { intros z Hz. apply HU. rewrite Hx. apply in_or_app. now right. }
  assert (Hcount : (length full <= length x)%nat).
  { rewrite Hx, length_app. clear -Hfull.
    induction Hfull as [|c full Hc _ IHf]; simpl; [lia|].
    rewrite length_app. lia. }
  assert (Hblocks :
    slices.sortBlocks cmp (S (length x)) x 0 20 (length x) 20
    = concat (map (insertionSorted cmp) full) ++ insertionSorted cmp last).
  { transitivity (slices.sortBlocks cmp (S (length x)) (concat full ++ last)
                    0 20 (length x) 20); [now rewrite <- Hx|].
    apply (sortBlocks_chunks full (S (length x)) last [] (length x) 20 Hfull Hlast);
      [|lia].
    rewrite Hx at 1. rewrite length_app. simpl. lia. }
  rewrite Hblocks.
  rewrite Hx at 1.
  apply mergeRounds_sorted; auto; try lia.
  - repeat split.
    + clear -Hfull HUfull Hswo.
      induction Hfull as [|c full Hc _ IHf]; [constructor|].
      apply List.Forall_cons_iff in HUfull as [HUc HUfull].
      constructor; [|now apply IHf].
      pose proof (insertionSort_StableWithin c HUc) as Hs.
      repeat split.
      * rewrite insertionSorted_length. exact Hc.
      * apply Hs.
      * apply (StableWithin_In _ _ Hs HUc).
    + now rewrite insertionSorted_length.
    + apply (insertionSort_StableWithin last HUlast).
    + apply (StableWithin_In _ _ (insertionSort_StableWithin last HUlast) HUlast).
  - clear -HUfull Hswo.
    induction HUfull as [|c full HUc _ IHf]; [constructor|].
    constructor; [|exact IHf]. now apply insertionSort_StableWithin.
  - now apply insertionSort_StableWithin.
  - intros z Hz. apply HU. now rewrite Hx.
  - rewrite <- length_app, <- Hblocks.
    rewrite (Permutation_length (sortBlocks_Permutation cmp _ _ _ _ _ _)).
    reflexivity.
Qed.

End SortCorrect.

(** [slices.SortStableFunc], as modelled, is a stable sort for every
    comparison that is a strict weak ordering on the elements. *)
Lemma SortStableFunc_StablySorted {E : Type} (x : list E) (cmp : E -> E -> Z) :
  StrictWeakOn cmp x -> StablySorted cmp x (slices.SortStableFunc x cmp).
Proof.
  intros Hswo. apply (stableCmpFunc_StableWithin cmp x Hswo x). auto.
Qed.

Lemma go_SortStable : SortStable.
Proof. intros E x cmp. apply SortStableFunc_StablySorted. Qed.

(** ** More on the order of weights *)

Lemma SFleb_orderKey (a b : float64) :
  is_nan a = false -> is_nan b = false ->
  SFleb a b = true <-> ~ keyLt (orderKey b) (orderKey a).
Proof.
  intros Ha Hb. unfold SFleb.
  destruct a as [sa|sa| |sa ma ea], b as [sb|sb| |sb mb eb];
    try discriminate; try destruct sa; try destruct sb; simpl;
    try (split; [intros _; lia|reflexivity]);
    try (split; [discriminate|intros Hn; exfalso; apply Hn; lia]).
  - destruct (Z.compare_spec ea eb) as [->|Hlt|Hgt]; simpl.
    + rewrite Pos.compare_cont_spec. simpl.
      destruct (Pos.compare_spec ma mb) as [->|Hm|Hm]; simpl;
        try (split; [intros _; lia|reflexivity]).
      split; [discriminate|intros Hn; exfalso; apply Hn; lia].
    + split; [discriminate|intros Hn; exfalso; apply Hn; lia].
    + split; [intros _; lia|reflexivity].
  - destruct (Z.compare_spec ea eb) as [->|Hlt|Hgt]; simpl.
    + rewrite Pos.compare_cont_spec. simpl.
      destruct (Pos.compare_spec ma mb) as [->|Hm|Hm]; simpl;
        try (split; [intros _; lia|reflexivity]).
      split; [discriminate|intros Hn; exfalso; apply Hn; lia].
    + split; [intros _; lia|reflexivity].
    + split; [discriminate|intros Hn; exfalso; apply Hn; lia].
Qed.

Lemma SFltb_not_nan (a b : float64) :
  SFltb a b = true -> is_nan a = false /\ is_nan b = false.
Proof. destruct a, b; simpl; try discriminate; auto. Qed.

Lemma SFleb_not_nan (a b : float64) :
  SFleb a b = true -> is_nan a = false /\ is_nan b = false.
Proof. destruct a, b; simpl; try discriminate; auto. Qed.

(** Below zero is below everything that is not. *)
Lemma negative_below_nonnegative (a b : float64) :
  f64_lt a f64_zero = true -> SFleb f64_zero b = true -> f64_lt a b = true.
Proof.
  unfold f64_lt. intros Ha Hb.
  destruct (SFltb_not_nan _ _ Ha) as [Han _].
  destruct (SFleb_not_nan _ _ Hb) as [_ Hbn].
  rewrite SFltb_orderKey in Ha |- * by auto.
  rewrite SFleb_orderKey in Hb by auto.
  destruct (orderKey a) as [[a1 a2] a3], (orderKey b) as [[b1 b2] b3].
  simpl in *. lia.
Qed.

(** ** The winner of a negotiation *)

Section Winner.
Context `{GoLibrary}.

Lemma winner_supported accept m : winner accept = Some m -> supported m = true.
Proof.
  unfold winner. intros Hw. apply List.find_some in Hw. apply Hw.
Qed.

Lemma winner_In accept m :
  SortPermutes -> winner accept = Some m -> In m (candidates accept).
Proof.
  intros Hperm Hw. unfold winner in Hw. apply List.find_some in Hw as [Hin _].
  now apply (Permutation_in _ (Hperm _ (candidates accept) byWeight)).
Qed.

Lemma winner_exists accept b :
  SortPermutes -> In b (candidates accept) -> supported b = true ->
  exists m, winner accept = Some m.
Proof.
  intros Hperm Hb Hsup. unfold winner.
  destruct (List.find supported _) as [m|] eqn:Hf; [eauto|].
  exfalso. rewrite (List.find_none _ _ Hf b) in Hsup; [discriminate|].
  now apply (Permutation_in _ (Permutation_sym (Hperm _ (candidates accept) byWeight))).
Qed.

Lemma SortStable_SortPermutes_candidates accept :
  SortStable -> noNaN (candidates accept) ->
  StablySorted byWeight (candidates accept)
    (slices_SortStableFunc (candidates accept) byWeight).
Proof. intros Hst Hnan. apply Hst. now apply byWeight_StrictWeakOn. Qed.

(** No supported candidate outweighs the winner. *)
Lemma winner_maximal accept m c :
  SortStable -> noNaN (candidates accept) -> winner accept = Some m ->
  In c (candidates accept) -> supported c = true ->
  f64_gt (RelativeWeight c) (RelativeWeight m) = false.
Proof.
  intros Hst Hnan Hw Hc Hsup.
  destruct (SortStable_SortPermutes_candidates accept Hst Hnan) as (Hperm & Hord & _).
  unfold winner in Hw.
  destruct (find_split _ _ _ Hw) as (pre & post & Hout & Hm & Hpre).
  apply (Permutation_in _ (Permutation_sym Hperm)) in Hc.
  rewrite Hout in Hc. apply in_app_or in Hc as [Hc|[<-|Hc]].
  - rewrite List.Forall_forall in Hpre. rewrite (Hpre c Hc) in Hsup. discriminate.
  - apply SFltb_irrefl.
  - apply In_nth_error in Hc as [k Hk]. rewrite <- less_byWeight.
    apply (Hord (length pre) (length pre + S k)%nat); [lia| |].
    + rewrite Hout. now apply list_lookup_middle.
    + rewrite Hout. rewrite lookup_app_r by lia.
      replace (length pre + S k - length pre)%nat with (S k) by lia.
      simpl. rewrite <- Hk. clear. revert k.
      induction post as [|x post IH]; intros [|k]; simpl; auto.
Qed.

Lemma winner_preferred accept :
  SortStable -> noNaN (candidates accept) ->
  winner accept = preferred (candidates accept) None.
Proof.
  intros Hst Hnan. apply find_StablySorted; [exact Hnan|].
  now apply SortStable_SortPermutes_candidates.
Qed.

Lemma mostAcceptable_single accept a :
  SortPermutes -> candidates accept = [a] ->
  mostAcceptable accept = default "text/plain" (mapped a).
Proof.
  intros Hperm Hc. unfold mostAcceptable. rewrite Hc.
  pose proof (Hperm _ [a] byWeight) as Hp.
  apply Permutation_sym, Permutation_length_1_inv in Hp. rewrite Hp. simpl.
  destruct (mapped a); reflexivity.
Qed.

Lemma candidates_single_token accept :
  noByte "," accept = true -> candidates accept = candidateOf accept.
Proof.
  intros Hno. rewrite candidates_flat_map, Split_single by assumption.
  simpl. apply app_nil_r.
Qed.

Lemma In_candidates accept a :
  In a (candidates accept) ->
  exists v mediatype params,
    In v (strings.Split accept ",") /\
    mime_ParseMediaType v = (mediatype, params, None) /\
    a = {| MediaType := mediatype; RelativeWeight := weightOf params |}.
Proof.
  rewrite candidates_flat_map. intros Ha.
  apply in_flat_map in Ha as (v & Hv & Ha).
  unfold candidateOf, consider in Ha.
  destruct (mime_ParseMediaType v) as [[mediatype params] [err|]] eqn:Hparse;
    [destruct Ha|].
  destruct Ha as [<-|[]]. eauto 6.
Qed.

End Winner.

(** * The claims *)

(** ** C1: the order of preference *)

(** C1, as stated, fails where a weight is NaN.  On the header
    [text/plain;q=0.1, text/css;q=nan, text/html;q=0.9] the sort leaves the
    three candidates where they are, since every comparison with the NaN
    weight answers "equal": [text/plain] is returned although [text/html]
    is supported and carries the strictly higher weight. *)
Lemma nan_weight_breaks_weight_order :
  let accept := "text/plain;q=0.1, text/css;q=nan, text/html;q=0.9" in
  exists plain css html,
    candidates accept = [plain; css; html] /\
    is_nan (RelativeWeight css) = true /\
    supported plain = true /\ supported html = true /\
    f64_gt (RelativeWeight html) (RelativeWeight plain) = true /\
    winner accept = Some plain /\
    mostAcceptable accept = "text/plain" /\
    resolve_spec (candidates accept) = "text/html" /\
    mostAcceptable accept <> resolve_spec (candidates accept).
Proof.
  cbv zeta. eexists _, _, _. split; [vm_compute; reflexivity|].
  repeat split; try (vm_compute; reflexivity).
  vm_compute. discriminate.
Qed.

(** C1 (amended): for every Accept header none of whose candidates has a
    NaN weight, and every sort that is a stable sort, [mostAcceptable]
    returns the mapped type of the supported candidate of highest weight,
    the earliest listed among those of equal weight ([resolve_spec]); no
    supported candidate of strictly higher weight than the winner exists,
    and an unsupported candidate never wins. *)
Theorem mostAcceptable_prefers_highest_weight `{GoLibrary} (accept : string) :
  SortStable -> noNaN (candidates accept) ->
  mostAcceptable accept = resolve_spec (candidates accept) /\
  winner accept = preferred (candidates accept) None /\
  (forall w, winner accept = Some w ->
     supported w = true /\
     forall c, In c (candidates accept) -> supported c = true ->
               f64_gt (RelativeWeight c) (RelativeWeight w) = false).
Proof.
  intros Hst Hnan. split; [|split].
  - rewrite mostAcceptable_winner, (winner_preferred accept Hst Hnan). reflexivity.
  - now apply winner_preferred.
  - intros w Hw. split; [now apply winner_supported with accept|].
    intros c Hc Hsup. now apply winner_maximal with accept.
Qed.

(** The example of the specification: [text/html] at 0.9 is preferred to
    [text/plain] at 0.8, and the unsupported [text/css] is passed over. *)
Lemma mostAcceptable_hierarchy_example :
  noNaN (candidates "text/css, text/plain; q=0.8, text/html; q=0.9") /\
  mostAcceptable "text/css, text/plain; q=0.8, text/html; q=0.9" = "text/html".
Proof.
  assert (Hnan : noNaN (candidates "text/css, text/plain; q=0.8, text/html; q=0.9")).
  { vm_compute. repeat constructor. }
  split; [exact Hnan|].
  destruct (mostAcceptable_prefers_highest_weight
              "text/css, text/plain; q=0.8, text/html; q=0.9" go_SortStable Hnan)
    as [Heq _].
  rewrite Heq. vm_compute. reflexivity.
Defined.

(** ** C2: one token *)

(** C2: a header that is one media-type token (no comma) which parses to
    [mediatype] is mapped by the fixed table, whatever the sort does to a
    one-element list as long as it only rearranges. *)
Theorem mostAcceptable_single_token `{GoLibrary}
    (accept mediatype : string) (params : gmap string string) :
  SortPermutes ->
  noByte "," accept = true ->
  mime_ParseMediaType accept = (mediatype, params, None) ->
  (mediatype = "text/plain" \/ mediatype = "*/*" ->
     mostAcceptable accept = "text/plain") /\
  (mediatype = "text/html" \/ mediatype = "application/xhtml+xml" ->
     mostAcceptable accept = "text/html") /\
  (mediatype = "application/json" -> mostAcceptable accept = "application/json").
Proof.
  intros Hperm Hno Hparse.
  assert (Hc : candidates accept
               = [ {| MediaType := mediatype; RelativeWeight := weightOf params |} ]).
  { rewrite candidates_single_token by assumption.
    unfold candidateOf, consider. now rewrite Hparse. }
  rewrite (mostAcceptable_single accept _ Hperm Hc).
  repeat split; intros Hm; repeat destruct Hm as [Hm|Hm]; subst mediatype; reflexivity.
Qed.

(** The five rows of the table. *)
Lemma mostAcceptable_table_rows :
  mostAcceptable "text/plain" = "text/plain" /\
  mostAcceptable "*/*" = "text/plain" /\
  mostAcceptable "text/html" = "text/html" /\
  mostAcceptable "application/xhtml+xml" = "text/html" /\
  mostAcceptable "application/json" = "application/json".
Proof.
  split; [|split; [|split; [|split]]].
  - apply (mostAcceptable_single_token "text/plain" "text/plain" ∅ go_SortPermutes);
      [reflexivity|reflexivity|now left].
  - apply (mostAcceptable_single_token "*/*" "*/*" ∅ go_SortPermutes);
      [reflexivity|reflexivity|now right].
  - apply (mostAcceptable_single_token "text/html" "text/html" ∅ go_SortPermutes);
      [reflexivity|reflexivity|now left].
  - apply (mostAcceptable_single_token "application/xhtml+xml" "application/xhtml+xml"
             ∅ go_SortPermutes); [reflexivity|reflexivity|now right].
  - apply (mostAcceptable_single_token "application/json" "application/json"
             ∅ go_SortPermutes); [reflexivity|reflexivity|reflexivity].
Defined.

(** ** C3: the default *)

(** C3: when no candidate's media type is in the table (in particular
    when there is no candidate at all) the result is [text/plain]; the
    empty header has no candidate since the empty token does not parse. *)
Theorem mostAcceptable_default `{GoLibrary} (accept : string) :
  SortPermutes -> EmptyTokenFails ->
  Forall (fun a => mapped a = None) (candidates accept) ->
  mostAcceptable accept = "text/plain" /\
  candidates "" = [] /\ mostAcceptable "" = "text/plain".
Proof.
  intros Hperm Hempty Hnone.
  assert (Hdefault : forall h, Forall (fun a => mapped a = None) (candidates h) ->
                               mostAcceptable h = "text/plain").
  { intros h Hh. unfold mostAcceptable. apply firstSupported_none.
    apply List.Forall_forall. intros a Ha.
    rewrite List.Forall_forall in Hh. apply Hh.
    now apply (Permutation_in _ (Hperm _ (candidates h) byWeight)). }
  assert (Hnil : candidates "" = []).
  { rewrite candidates_flat_map. simpl.
    now rewrite (candidateOf_unparseable _ Hempty). }
  split; [now apply Hdefault|]. split; [exact Hnil|].
  apply Hdefault. rewrite Hnil. constructor.
Qed.

(** The two examples of the specification. *)
Lemma mostAcceptable_default_examples :
  mostAcceptable "lol/wut" = "text/plain" /\ mostAcceptable "" = "text/plain".
Proof.
  assert (Hnone : Forall (fun a => mapped a = None) (candidates "lol/wut")).
  { vm_compute. repeat constructor. }
  destruct (mostAcceptable_default "lol/wut" go_SortPermutes eq_refl Hnone)
    as (H1 & _ & H2).
  split; assumption.
Defined.

(** ** C4: the three media types and the handler *)

Lemma mostAcceptable_closed `{GoLibrary} (accept : string) :
  mostAcceptable accept = "text/plain" \/ mostAcceptable accept = "text/html"
  \/ mostAcceptable accept = "application/json".
Proof. unfold mostAcceptable. apply firstSupported_closed. Qed.

(** C4: for every library routines and every input, [mostAcceptable]
    returns one of the three media types; the license handler therefore
    never takes its default branch: every request gets status 200, the
    precomputed body of the resolved type and that type as [Content-Type],
    never status 406. *)
Theorem licenseHandler_never_406 `{GoLibrary}
    (plainData htmlData jsonData : string) (r : http.Request) :
  let mediatype := mostAcceptable (http.Header_Get (http.Header r) "Accept") in
  let w := licenseHandler plainData htmlData jsonData r http.newRecorder in
  (forall accept,
     mostAcceptable accept = "text/plain" \/ mostAcceptable accept = "text/html"
     \/ mostAcceptable accept = "application/json") /\
  http.code w = Some http.StatusOK /\
  http.code w <> Some http.StatusNotAcceptable /\
  http.header w !! "Content-Type" = Some mediatype /\
  ((mediatype = "text/plain" /\ http.body w = plainData) \/
   (mediatype = "text/html" /\ http.body w = htmlData) \/
   (mediatype = "application/json" /\ http.body w = jsonData)).
Proof.
  cbv zeta. split; [apply mostAcceptable_closed|].
  unfold licenseHandler.
  destruct (mostAcceptable_closed (http.Header_Get (http.Header r) "Accept"))
    as [Hm|[Hm|Hm]]; rewrite Hm; cbn;
    (split; [reflexivity|]); (split; [discriminate|]);
    (split; [reflexivity|]); auto.
Qed.

(** ** C5: weights that are not in range *)

(** C5, as stated, fails: a NaN weight is neither clamped nor discarded.
    On [application/json;q=nan, text/html;q=0.5] the NaN candidate stays
    first and is returned ahead of the supported candidate of weight 0.5. *)
Lemma nan_weight_preferred_over_valid :
  let accept := "application/json;q=nan, text/html;q=0.5" in
  exists json html,
    candidates accept = [json; html] /\
    is_nan (RelativeWeight json) = true /\
    supported html = true /\ inUnitInterval (RelativeWeight html) = true /\
    winner accept = Some json /\
    mostAcceptable accept = "application/json".
Proof.
  cbv zeta. eexists _, _. split; [vm_compute; reflexivity|].
  repeat split; vm_compute; reflexivity.
Qed.

(** C5 (amended): negotiation is a total function of the header; when no
    candidate weight is NaN and the sort is a stable sort, a candidate of
    negative weight never wins over a supported candidate of non-negative
    weight: as soon as one such candidate exists the winner has a
    non-negative weight. *)
Theorem negative_weight_never_preferred `{GoLibrary} (accept : string)
    (a b : AcceptType) :
  SortStable -> SortPermutes -> noNaN (candidates accept) ->
  In a (candidates accept) -> f64_lt (RelativeWeight a) f64_zero = true ->
  In b (candidates accept) -> supported b = true ->
  SFleb f64_zero (RelativeWeight b) = true ->
  winner accept <> Some a /\
  exists m, winner accept = Some m /\
            SFleb f64_zero (RelativeWeight m) = true /\
            mapped m = Some (mostAcceptable accept).
Proof.
  intros Hst Hperm Hnan Ha Hneg Hb Hsup Hvalid.
  assert (Hmax : forall m, winner accept = Some m ->
            f64_gt (RelativeWeight b) (RelativeWeight m) = false).
  { intros m Hm. now apply winner_maximal with accept. }
  split.
  - intros Hw. specialize (Hmax a Hw).
    unfold f64_gt in Hmax.
    pose proof (negative_below_nonnegative _ _ Hneg Hvalid) as Hlt.
    unfold f64_lt in Hlt. congruence.
  - destruct (winner_exists accept b Hperm Hb Hsup) as [m Hm].
    exists m. split; [exact Hm|]. split.
    + specialize (Hmax m Hm). unfold f64_gt in Hmax.
      assert (Hmn : is_nan (RelativeWeight m) = false).
      { unfold noNaN in Hnan. rewrite List.Forall_forall in Hnan.
        apply Hnan. now apply winner_In. }
      destruct (SFleb_not_nan _ _ Hvalid) as [_ Hbn].
      rewrite SFleb_orderKey in Hvalid |- * by auto.
      rewrite SFltb_false_iff in Hmax by auto.
      destruct (orderKey (RelativeWeight m)) as [[m1 m2] m3],
               (orderKey (RelativeWeight b)) as [[b1 b2] b3].
      simpl in *. lia.
    + rewrite mostAcceptable_winner, Hm.
      pose proof (winner_supported accept m Hm) as Hs. unfold supported in Hs.
      destruct (mapped m); [reflexivity|discriminate].
Qed.

(** A negative weight listed first loses to a valid one. *)
Lemma negative_weight_example :
  let accept := "text/plain;q=-1, text/html;q=0.5" in
  let a := {| MediaType := "text/plain";
              RelativeWeight := S754_finite true 4503599627370496 (-52) |} in
  let b := {| MediaType := "text/html";
              RelativeWeight := S754_finite false 4503599627370496 (-53) |} in
  candidates accept = [a; b] /\
  winner accept <> Some a /\
  exists m, winner accept = Some m /\
            SFleb f64_zero (RelativeWeight m) = true /\
            mapped m = Some (mostAcceptable accept).
Proof.
  cbv zeta.
  assert (Hc : candidates "text/plain;q=-1, text/html;q=0.5"
               = [ {| MediaType := "text/plain";
                      RelativeWeight := S754_finite true 4503599627370496 (-52) |};
                   {| MediaType := "text/html";
                      RelativeWeight := S754_finite false 4503599627370496 (-53) |} ])
    by (vm_compute; reflexivity).
  split; [exact Hc|].
  apply (negative_weight_never_preferred _ _
           {| MediaType := "text/html";
              RelativeWeight := S754_finite false 4503599627370496 (-53) |}
           go_SortStable go_SortPermutes).
  - rewrite Hc. repeat constructor.
  - rewrite Hc. now left.
  - reflexivity.
  - rewrite Hc. right. now left.
  - reflexivity.
  - reflexivity.
Defined.

(** ** C6: tokens that do not parse *)

Lemma go_EmptyTokenFails : EmptyTokenFails.
Proof. reflexivity. Qed.

Lemma go_EmptyNumberFails : EmptyNumberFails.
Proof. unfold EmptyNumberFails. vm_compute. discriminate. Qed.

(** C6: taking the unparseable tokens out of the header changes neither
    the candidates, nor the negotiated type, nor the response of a license
    handler, whose status stays 200. *)
Theorem unparseable_tokens_ignored `{GoLibrary} (accept : string)
    (plainData htmlData jsonData : string) :
  EmptyTokenFails ->
  candidates (withoutUnparseable accept) = candidates accept /\
  mostAcceptable (withoutUnparseable accept) = mostAcceptable accept /\
  licenseHandler plainData htmlData jsonData
    (requestAccepting (withoutUnparseable accept)) http.newRecorder
  = licenseHandler plainData htmlData jsonData
      (requestAccepting accept) http.newRecorder /\
  http.code (licenseHandler plainData htmlData jsonData
               (requestAccepting accept) http.newRecorder) = Some http.StatusOK.
Proof.
  intros Hempty.
  assert (Hc : candidates (withoutUnparseable accept) = candidates accept)
    by now apply candidates_withoutUnparseable.
  assert (Hm : mostAcceptable (withoutUnparseable accept) = mostAcceptable accept).
  { unfold mostAcceptable. now rewrite Hc. }
  split; [exact Hc|]. split; [exact Hm|]. split.
  - unfold licenseHandler, requestAccepting. cbn [http.Header].
    unfold http.Header_Get. rewrite !lookup_singleton_eq. now rewrite Hm.
  - apply (licenseHandler_never_406 plainData htmlData jsonData (requestAccepting accept)).
Qed.

(** A header with two malformed tokens among three. *)
Lemma unparseable_tokens_example :
  let accept := "text/css, @@, text/html; q=0.9, ;q=1" in
  withoutUnparseable accept = "text/css, text/html; q=0.9" /\
  mostAcceptable "text/css, text/html; q=0.9" = mostAcceptable accept.
Proof.
  cbv zeta. split; [vm_compute; reflexivity|].
  change "text/css, text/html; q=0.9"
    with (withoutUnparseable "text/css, @@, text/html; q=0.9, ;q=1").
  apply (unparseable_tokens_ignored "text/css, @@, text/html; q=0.9, ;q=1"
           "" "" "" go_EmptyTokenFails).
Defined.

(** ** C7: the weight of a candidate *)

(** C7, as stated, fails on its range: nothing keeps a parsed [q] inside
    [0,1].  The header [text/html;q=5] gives a candidate of weight 5. *)
Lemma weight_outside_unit_interval :
  exists a, In a (candidates "text/html;q=5") /\
            inUnitInterval (RelativeWeight a) = false /\
            RelativeWeight a = f64_of_Z 5 0.
Proof.
  eexists. split; [vm_compute; left; reflexivity|].
  split; vm_compute; reflexivity.
Qed.

(** C7 (amended): every candidate comes from a token that parses, and its
    weight is exactly 1.0 when the [q] parameter is absent or does not
    parse as a number, and the parsed number otherwise, whatever its
    range. *)
Theorem weight_is_one_or_parsed_q `{GoLibrary} (accept : string) (a : AcceptType) :
  EmptyNumberFails ->
  In a (candidates accept) ->
  exists v params,
    In v (strings.Split accept ",") /\
    mime_ParseMediaType v = (MediaType a, params, None) /\
    (params !! "q" = None -> RelativeWeight a = f64_one) /\
    (forall q val err, params !! "q" = Some q ->
       strconv_ParseFloat q 64 = (val, Some err) -> RelativeWeight a = f64_one) /\
    (forall q val, params !! "q" = Some q ->
       strconv_ParseFloat q 64 = (val, None) -> RelativeWeight a = val).
Proof.
  intros Hempty Ha.
  apply In_candidates in Ha as (v & mediatype & params & Hv & Hparse & ->).
  exists v, params. cbn [MediaType RelativeWeight].
  split; [exact Hv|]. split; [exact Hparse|].
  unfold weightOf, param_q. repeat split.
  - intros Hq. rewrite Hq. simpl.
    unfold EmptyNumberFails in Hempty.
    destruct (strconv_ParseFloat "" 64) as [val [err|]]; [reflexivity|].
    now contradiction Hempty.
  - intros q val err Hq Hf. rewrite Hq. simpl. now rewrite Hf.
  - intros q val Hq Hf. rewrite Hq. simpl. now rewrite Hf.
Qed.

(** The weights of a header with an absent, a malformed and a large [q]. *)
Lemma weight_examples :
  let accept := "text/plain, text/html;q=high, application/json;q=5" in
  let a := {| MediaType := "application/json"; RelativeWeight := f64_of_Z 5 0 |} in
  candidates accept
  = [ {| MediaType := "text/plain"; RelativeWeight := f64_one |};
      {| MediaType := "text/html"; RelativeWeight := f64_one |}; a ] /\
  exists v params,
    In v (strings.Split accept ",") /\
    mime_ParseMediaType v = (MediaType a, params, None) /\
    (params !! "q" = None -> RelativeWeight a = f64_one) /\
    (forall q val err, params !! "q" = Some q ->
       strconv_ParseFloat q 64 = (val, Some err) -> RelativeWeight a = f64_one) /\
    (forall q val, params !! "q" = Some q ->
       strconv_ParseFloat q 64 = (val, None) -> RelativeWeight a = val).
Proof.
  cbv zeta. split; [vm_compute; reflexivity|].
  apply (weight_is_one_or_parsed_q
           "text/plain, text/html;q=high, application/json;q=5"
           {| MediaType := "application/json"; RelativeWeight := f64_of_Z 5 0 |}
           go_EmptyNumberFails).
  vm_compute. right. right. left. reflexivity.
Defined.

(** ** C10: weight zero *)

(** C10: a header whose only candidate is a supported type of weight zero
    resolves to that type's mapped value, not to the default by
    elimination: weight zero does not disqualify. *)
Theorem zero_weight_not_excluded `{GoLibrary} (accept : string) (a : AcceptType)
    (t : string) :
  SortPermutes ->
  candidates accept = [a] ->
  SFeqb (RelativeWeight a) f64_zero = true ->
  mapped a = Some t ->
  mostAcceptable accept = t /\ winner accept = Some a.
Proof.
  intros Hperm Hc _ Hmapped. split.
  - rewrite (mostAcceptable_single accept a Hperm Hc), Hmapped. reflexivity.
  - unfold winner. rewrite Hc.
    pose proof (Hperm _ [a] byWeight) as Hp.
    apply Permutation_sym, Permutation_length_1_inv in Hp. rewrite Hp. simpl.
    unfold supported. now rewrite Hmapped.
Qed.

(** [application/json;q=0] is served as JSON. *)
Lemma zero_weight_example :
  candidates "application/json;q=0"
  = [ {| MediaType := "application/json"; RelativeWeight := f64_zero |} ] /\
  mostAcceptable "application/json;q=0" = "application/json".
Proof.
  assert (Hc : candidates "application/json;q=0"
               = [ {| MediaType := "application/json"; RelativeWeight := f64_zero |} ])
    by (vm_compute; reflexivity).
  split; [exact Hc|].
  apply (zero_weight_not_excluded "application/json;q=0" _ "application/json"
           go_SortPermutes Hc); reflexivity.
Defined.

(** ** C9: start-up errors *)

Section Startup.
Context `{GoLibrary}.

(** The errors that are returned: a template set that does not parse, a
    license that cannot be read, a license page that does not render. *)
Lemma appHandler_parse_error (e : Embedded) err :
  template_ParseFS e = inr err -> startsServing (appHandler e) = false.
Proof. unfold appHandler. now intros ->. Qed.

Lemma handlerFor_read_error lpath licenses tmpl err :
  licenses lpath = inr err ->
  exists err', handlerFor lpath licenses tmpl = inr err'.
Proof. unfold handlerFor. intros ->. eauto. Qed.

Lemma handlerFor_render_error lpath licenses tmpl out err :
  ExecuteTemplate tmpl "license.html.tmpl"
    (OneLicense {| Title := pathToTitle lpath;
                   Text := match licenses lpath with inl t => t | inr _ => "" end;
                   URL := pathToURL lpath |}) = (out, Some err) ->
  exists err', handlerFor lpath licenses tmpl = inr err'.
Proof.
  unfold handlerFor, toHTML. destruct (licenses lpath) as [plainData|e]; [|eauto].
  intros ->. eauto.
Qed.

Lemma registerLicenses_error licenses : forall e tmpl mux supported lpath,
  In lpath licenses ->
  (exists err, handlerFor lpath (fs_ReadFile e) tmpl = inr err) ->
  exists err, registerLicenses licenses e tmpl mux supported = inr err.
Proof.
  induction licenses as [|l licenses IH]; intros e tmpl mux supported lpath Hin Herr;
    [destruct Hin|].
  simpl. destruct (handlerFor l (fs_ReadFile e) tmpl) as [[h data]|err] eqn:Hl;
    [|eauto].
  destruct Hin as [->|Hin].
  - destruct Herr as [err Herr]. congruence.
  - now apply IH with lpath.
Qed.

Lemma appHandler_license_error (e : Embedded) tmpl lpath licenses :
  template_ParseFS e = inl tmpl -> fs_Glob e = inl licenses -> In lpath licenses ->
  (exists err, handlerFor lpath (fs_ReadFile e) tmpl = inr err) ->
  startsServing (appHandler e) = false.
Proof.
  intros Ht Hg Hin Herr. unfold appHandler. rewrite Ht.
  destruct (fs_Sub e) as [public|err]; [|reflexivity]. rewrite Hg.
  destruct (registerLicenses_error licenses e tmpl [] [] lpath Hin Herr) as [err ->].
  reflexivity.
Qed.

End Startup.

(** C9 fails on the index page: the error of its [ExecuteTemplate] call is
    dropped by [newPublicHandler].  With a template set whose index page
    fails to render, [appHandler] returns a mux and no error, and [GET /]
    serves what was written before the failure, with status 200. *)
Theorem appHandler_ignores_index_failure :
  (ExecuteTemplate indexFails "index.html.tmpl"
     (AllLicenses [ {| Title := "MIT"; Text := "MIT License text"; URL := "/mit" |} ])).2
  <> None /\
  startsServing (appHandler indexFailsStartup) = true /\
  exists mux index,
    appHandler indexFailsStartup = inl mux /\
    List.map fst mux = ["GET /mit"; "/"] /\
    List.last mux ("", noFiles) = ("/", index) /\
    index {| http.Method := "GET"; http.Path := "/"; http.Header := ∅ |} http.newRecorder
    = {| http.header := ∅; http.code := Some http.StatusOK; http.body := "<ul>" |}.
Proof.
  split; [simpl; discriminate|]. split; [reflexivity|].
  eexists _, _. split; [reflexivity|]. split; [reflexivity|].
  split; reflexivity.
Qed.

(** ** UTF-8: decoding a valid sequence and encoding it again *)

Lemma byte_val_range (c : byte) : (0 <= byte_val c < 256)%Z.
Proof.
  unfold byte_val. pose proof (N_ascii_bounded c) as Hc. lia.
Qed.

Lemma byte_of_val (c : byte) : byte_of (byte_val c) = c.
Proof.
  unfold byte_of. pose proof (byte_val_range c) as Hc.
  rewrite Z.mod_small by lia. unfold byte_val.
  rewrite N2Z.id. apply ascii_N_embedding.
Qed.

Lemma lor_shiftl (x y n : Z) :
  (0 <= n)%Z -> (0 <= y < 2 ^ n)%Z -> Z.lor (Z.shiftl x n) y = (x * 2 ^ n + y)%Z.
Proof.
  intros Hn Hy.
  assert (Hdisj : Z.land (Z.shiftl x n) y = 0%Z).
  { rewrite <- (Z.mod_small y (2 ^ n)) by lia.
    rewrite <- (Z.land_ones y n) by lia.
    rewrite (Z.land_comm y), Z.land_assoc, Z.land_ones by lia.
    rewrite Z.shiftl_mul_pow2 by lia. rewrite Z.mod_mul by lia.
    apply Z.land_0_l. }
  rewrite <- Z.lxor_lor by assumption.
  rewrite <- Z.add_nocarry_lxor by assumption.
  now rewrite Z.shiftl_mul_pow2 by lia.
Qed.

(** The bit operations of the codec on byte-sized operands, as
    arithmetic. *)
Lemma land_mask (b : Z) (n : Z) :
  (0 <= n)%Z -> Z.land b (2 ^ n - 1) = (b mod 2 ^ n)%Z.
Proof.
  intros Hn. replace (2 ^ n - 1)%Z with (Z.ones n).
  - now apply Z.land_ones.
  - rewrite Z.ones_equiv. lia.
Qed.

Lemma lor_lead (lead q n : Z) :
  (0 <= n)%Z -> (0 <= q < 2 ^ n)%Z -> (lead mod 2 ^ n = 0)%Z ->
  Z.lor lead q = (lead + q)%Z.
Proof.
  intros Hn Hq Hlead.
  assert (Hl : lead = (lead / 2 ^ n * 2 ^ n)%Z).
  { pose proof (Z.div_mod lead (2 ^ n)). lia. }
  rewrite Hl at 1. rewrite <- Z.shiftl_mul_pow2 by lia.
  rewrite lor_shiftl by lia. lia.
Qed.

Ltac codec_arith :=
  change 7%Z with (2 ^ 3 - 1)%Z; change 15%Z with (2 ^ 4 - 1)%Z;
  change 31%Z with (2 ^ 5 - 1)%Z; change 63%Z with (2 ^ 6 - 1)%Z;
  rewrite ?land_mask by lia;
  rewrite ?Z.shiftl_mul_pow2 by lia;
  rewrite ?Z.shiftr_div_pow2 by lia;
  change (2 ^ 3)%Z with 8%Z; change (2 ^ 4)%Z with 16%Z;
  change (2 ^ 5)%Z with 32%Z; change (2 ^ 6)%Z with 64%Z;
  change (2 ^ 12)%Z with 4096%Z; change (2 ^ 18)%Z with 262144%Z.

Lemma encode_two (b0 b1 : Z) :
  (194 <= b0 <= 223)%Z -> (128 <= b1 <= 191)%Z ->
  let r := Z.lor (Z.shiftl (Z.land b0 31) 6) (Z.land b1 63) in
  utf8.EncodeRune r = string_of_bytes [b0; b1] /\ (128 <= r <= 2047)%Z.
Proof.
  intros H0 H1 r.
  assert (Hr : r = ((b0 - 192) * 64 + (b1 - 128))%Z).
  { unfold r. codec_arith.
    rewrite (lor_lead _ _ 6); [|lia| |];
      change (2 ^ 6)%Z with 64%Z; Z.div_mod_to_equations; lia. }
  split; [|lia].
  unfold utf8.EncodeRune.
  replace ((0 <=? r) && (r <=? 127))%Z with false
    by (symmetry; apply andb_false_iff; right; apply Z.leb_gt; lia).
  replace ((0 <=? r) && (r <=? 2047))%Z with true
    by (symmetry; apply andb_true_iff; split; apply Z.leb_le; lia).
  codec_arith.
  rewrite (lor_lead 192 _ 6), (lor_lead 128 _ 6);
    change (2 ^ 6)%Z with 64%Z; try (Z.div_mod_to_equations; lia).
  f_equal. f_equal; [|f_equal]; Z.div_mod_to_equations; lia.
Qed.

Lemma encode_three (b0 b1 b2 : Z) :
  (224 <= b0 <= 239)%Z ->
  ((if (b0 =? 224)%Z then 160 else 128) <= b1
   <= (if (b0 =? 237)%Z then 159 else 191))%Z ->
  (128 <= b2 <= 191)%Z ->
  let r := Z.lor (Z.lor (Z.shiftl (Z.land b0 15) 12) (Z.shiftl (Z.land b1 63) 6))
                 (Z.land b2 63) in
  utf8.EncodeRune r = string_of_bytes [b0; b1; b2] /\
  (2048 <= r <= 65535)%Z /\ ~ (55296 <= r <= 57343)%Z.
Proof.
  intros H0 H1 H2 r.
  assert (H1' : (128 <= b1 <= 191)%Z).
  { destruct (b0 =? 224)%Z, (b0 =? 237)%Z; lia. }
  assert (Hr : r = ((b0 - 224) * 4096 + (b1 - 128) * 64 + (b2 - 128))%Z).
  { unfold r. codec_arith.
    rewrite (lor_lead (b0 mod 16 * 4096) (b1 mod 64 * 64) 12); [|lia| |];
      change (2 ^ 12)%Z with 4096%Z; try (Z.div_mod_to_equations; lia).
    rewrite (lor_lead _ _ 6); [|lia| |];
      change (2 ^ 6)%Z with 64%Z; Z.div_mod_to_equations; lia. }
  assert (Hrange : (2048 <= r <= 65535)%Z /\ ~ (55296 <= r <= 57343)%Z).
  { destruct (b0 =? 224)%Z eqn:E1, (b0 =? 237)%Z eqn:E2;
      rewrite ?Z.eqb_eq, ?Z.eqb_neq in *; lia. }
  split; [|exact Hrange]. destruct Hrange as [Hr1 Hr2].
  unfold utf8.EncodeRune, utf8.MaxRune.
  replace ((0 <=? r) && (r <=? 127))%Z with false
    by (symmetry; apply andb_false_iff; right; apply Z.leb_gt; lia).
  replace ((0 <=? r) && (r <=? 2047))%Z with false
    by (symmetry; apply andb_false_iff; right; apply Z.leb_gt; lia).
  replace ((r <? 0) || (1114111 <? r) || (55296 <=? r) && (r <=? 57343))%Z with false.
  2:{ symmetry. rewrite !orb_false_iff, andb_false_iff, !Z.ltb_ge, !Z.leb_gt. lia. }
  replace (r <=? 65535)%Z with true by (symmetry; apply Z.leb_le; lia).
  codec_arith.
  rewrite (lor_lead 224 _ 4), !(lor_lead 128 _ 6);
    change (2 ^ 6)%Z with 64%Z; change (2 ^ 4)%Z with 16%Z;
    try (Z.div_mod_to_equations; lia).
  f_equal. f_equal; [|f_equal; [|f_equal]]; Z.div_mod_to_equations; lia.
Qed.

Lemma encode_four (b0 b1 b2 b3 : Z) :
  (240 <= b0 <= 244)%Z ->
  ((if (b0 =? 240)%Z then 144 else 128) <= b1
   <= (if (b0 =? 244)%Z then 143 else 191))%Z ->
  (128 <= b2 <= 191)%Z -> (128 <= b3 <= 191)%Z ->
  let r := Z.lor (Z.lor (Z.lor (Z.shiftl (Z.land b0 7) 18)
                               (Z.shiftl (Z.land b1 63) 12))
                        (Z.shiftl (Z.land b2 63) 6))
                 (Z.land b3 63) in
  utf8.EncodeRune r = string_of_bytes [b0; b1; b2; b3] /\
  (65536 <= r <= 1114111)%Z.
Proof.
  intros H0 H1 H2 H3 r.
  assert (H1' : (128 <= b1 <= 191)%Z).
  { destruct (b0 =? 240)%Z, (b0 =? 244)%Z; lia. }
  assert (Hr : r = ((b0 - 240) * 262144 + (b1 - 128) * 4096 + (b2 - 128) * 64
                    + (b3 - 128))%Z).
  { unfold r. codec_arith.
    rewrite (lor_lead (b0 mod 8 * 262144) (b1 mod 64 * 4096) 18); [|lia| |];
      change (2 ^ 18)%Z with 262144%Z; try (Z.div_mod_to_equations; lia).
    rewrite (lor_lead (b0 mod 8 * 262144 + b1 mod 64 * 4096) (b2 mod 64 * 64) 12);
      [|lia| |];
      change (2 ^ 12)%Z with 4096%Z; try (Z.div_mod_to_equations; lia).
    rewrite (lor_lead _ _ 6); [|lia| |];
      change (2 ^ 6)%Z with 64%Z; Z.div_mod_to_equations; lia. }
  assert (Hrange : (65536 <= r <= 1114111)%Z).
  { destruct (b0 =? 240)%Z eqn:E1, (b0 =? 244)%Z eqn:E2;
      rewrite ?Z.eqb_eq, ?Z.eqb_neq in *; lia. }
  split; [|exact Hrange].
  unfold utf8.EncodeRune, utf8.MaxRune.
  replace ((0 <=? r) && (r <=? 127))%Z with false
    by (symmetry; apply andb_false_iff; right; apply Z.leb_gt; lia).
  replace ((0 <=? r) && (r <=? 2047))%Z with false
    by (symmetry; apply andb_false_iff; right; apply Z.leb_gt; lia).
  replace ((r <? 0) || (1114111 <? r) || (55296 <=? r) && (r <=? 57343))%Z with false.
  2:{ symmetry. rewrite !orb_false_iff, andb_false_iff, !Z.ltb_ge, !Z.leb_gt. lia. }
  replace (r <=? 65535)%Z with false by (symmetry; apply Z.leb_gt; lia).
  codec_arith.
  rewrite (lor_lead 240 _ 3), !(lor_lead 128 _ 6);
    change (2 ^ 6)%Z with 64%Z; change (2 ^ 3)%Z with 8%Z;
    try (Z.div_mod_to_equations; lia).
  f_equal. f_equal; [|f_equal; [|f_equal; [|f_equal]]]; Z.div_mod_to_equations; lia.
Qed.

Lemma string_of_bytes_vals (cs : list byte) :
  string_of_bytes (List.map byte_val cs) = List.fold_right String EmptyString cs.
Proof.
  induction cs as [|c cs IH]; simpl; [reflexivity|]. now rewrite byte_of_val, IH.
Qed.

(** A sequence that decodes without error is two to four bytes long, is
    what its rune encodes to, and decodes the same whatever follows. *)
Lemma decode_valid (c0 : byte) (s1 : string) (r : Z) (size : nat) :
  (128 <= byte_val c0)%Z ->
  utf8.DecodeRuneInString (String c0 s1) = (r, size) ->
  (r =? utf8.RuneError)%Z && (size =? 1)%nat = false ->
  exists cs tail,
    s1 = (List.fold_right String EmptyString cs ++ tail)%string /\
    size = S (length cs) /\ (1 <= length cs <= 3)%nat /\
    utf8.EncodeRune r = String c0 (List.fold_right String EmptyString cs) /\
    (128 <= r)%Z /\
    forall t, utf8.DecodeRuneInString
                (String c0 (List.fold_right String EmptyString cs ++ t)%string)
              = (r, size).
Proof.
  intros Hc0 Hdec Hvalid.
  pose proof (byte_val_range c0) as R0.
  assert (Hbad : forall X : Prop, (utf8.RuneError, 1%nat) = (r, size) -> X).
  { intros X [= <- <-]. discriminate Hvalid. }
  unfold utf8.DecodeRuneInString in Hdec. unfold utf8.RuneSelf in *.
  destruct (byte_val c0 <? 128)%Z eqn:E0; [apply Z.ltb_lt in E0; lia|].
  destruct ((byte_val c0 <? 194) || (244 <? byte_val c0))%Z eqn:E1;
    [now apply Hbad|].
  apply orb_false_iff in E1 as [E1a E1b].
  apply Z.ltb_ge in E1a. apply Z.ltb_ge in E1b.
  destruct (utf8.acceptRange (byte_val c0)) as [lo hi] eqn:Hacc.
  destruct s1 as [|c1 s2]; [now apply Hbad|].
  pose proof (byte_val_range c1) as R1.
  destruct (byte_val c0 <? 224)%Z eqn:E2.
  { (* two bytes *)
    apply Z.ltb_lt in E2.
    destruct ((byte_val c1 <? lo) || (hi <? byte_val c1))%Z eqn:E3; [now apply Hbad|].
    apply orb_false_iff in E3 as [E3a E3b].
    apply Z.ltb_ge in E3a. apply Z.ltb_ge in E3b.
    assert (Hlohi : lo = 128%Z /\ hi = 191%Z).
    { unfold utf8.acceptRange in Hacc.
      repeat match type of Hacc with
             | context [(?x =? ?y)%Z] =>
                 destruct (Z.eqb_spec x y); [lia|]
             end. now injection Hacc as <- <-. }
    destruct Hlohi as [-> ->].
    destruct (encode_two (byte_val c0) (byte_val c1)) as [Henc Hr]; [lia|lia|].
    injection Hdec as <- <-.
    exists [c1], s2. split; [reflexivity|]. split; [reflexivity|]. split; [simpl; lia|].
    split; [|split; [lia|]].
    - rewrite Henc. change [byte_val c0; byte_val c1] with (List.map byte_val [c0; c1]).
      now rewrite string_of_bytes_vals.
    - intros t.
      change (List.fold_right String EmptyString [c1] ++ t)%string
        with (String c1 t).
      unfold utf8.DecodeRuneInString, utf8.RuneSelf.
      rewrite E0.
      replace ((byte_val c0 <? 194) || (244 <? byte_val c0))%Z with false
        by (symmetry; apply orb_false_iff; split; apply Z.ltb_ge; lia).
      rewrite Hacc. replace (byte_val c0 <? 224)%Z with true
        by (symmetry; apply Z.ltb_lt; lia).
      replace ((byte_val c1 <? 128) || (191 <? byte_val c1))%Z with false
        by (symmetry; apply orb_false_iff; split; apply Z.ltb_ge; lia).
      reflexivity. }
  apply Z.ltb_ge in E2.
  destruct s2 as [|c2 s3]; [now apply Hbad|].
  pose proof (byte_val_range c2) as R2.
  destruct (byte_val c0 <? 240)%Z eqn:E4.
  { (* three bytes *)
    apply Z.ltb_lt in E4.
    destruct ((byte_val c1 <? lo) || (hi <? byte_val c1))%Z eqn:E3; [now apply Hbad|].
    apply orb_false_iff in E3 as [E3a E3b].
    apply Z.ltb_ge in E3a. apply Z.ltb_ge in E3b.
    destruct (utf8.isCont (byte_val c2)) eqn:E5; [|now apply Hbad].
    unfold utf8.isCont in E5. apply andb_true_iff in E5 as [E5a E5b].
    apply Z.leb_le in E5a. apply Z.leb_le in E5b.
    assert (Hlohi : lo = (if (byte_val c0 =? 224)%Z then 160 else 128)%Z /\
                    hi = (if (byte_val c0 =? 237)%Z then 159 else 191)%Z).
    { unfold utf8.acceptRange in Hacc.
      destruct (Z.eqb_spec (byte_val c0) 224) as [e|ne].
      - injection Hacc as <- <-. rewrite e. simpl. auto.
      - destruct (Z.eqb_spec (byte_val c0) 237) as [e|ne'].
        + injection Hacc as <- <-. auto.
        + repeat match type of Hacc with
                 | context [(?x =? ?y)%Z] =>
                     destruct (Z.eqb_spec x y); [lia|]
                 end. now injection Hacc as <- <-. }
    destruct Hlohi as [Hlo Hhi].
    destruct (encode_three (byte_val c0) (byte_val c1) (byte_val c2))
      as (Henc & Hr & _); [lia|rewrite <- Hlo, <- Hhi; lia|lia|].
    simpl negb in Hdec. cbv iota in Hdec. injection Hdec as <- <-.
    exists [c1; c2], s3. split; [reflexivity|]. split; [reflexivity|]. split; [simpl; lia|].
    split; [|split; [lia|]].
    - rewrite Henc.
      change [byte_val c0; byte_val c1; byte_val c2]
        with (List.map byte_val [c0; c1; c2]).
      now rewrite string_of_bytes_vals.
    - intros t.
      change (List.fold_right String EmptyString [c1; c2] ++ t)%string
        with (String c1 (String c2 t)).
      unfold utf8.DecodeRuneInString, utf8.RuneSelf.
      rewrite E0.
      replace ((byte_val c0 <? 194) || (244 <? byte_val c0))%Z with false
        by (symmetry; apply orb_false_iff; split; apply Z.ltb_ge; lia).
      rewrite Hacc. replace (byte_val c0 <? 224)%Z with false
        by (symmetry; apply Z.ltb_ge; lia).
      replace (byte_val c0 <? 240)%Z with true by (symmetry; apply Z.ltb_lt; lia).
      replace ((byte_val c1 <? lo) || (hi <? byte_val c1))%Z with false
        by (symmetry; apply orb_false_iff; split; apply Z.ltb_ge; lia).
      unfold utf8.isCont.
      replace ((128 <=? byte_val c2) && (byte_val c2 <=? 191))%Z with true
        by (symmetry; apply andb_true_iff; split; apply Z.leb_le; lia).
      reflexivity. }
  apply Z.ltb_ge in E4.
  destruct s3 as [|c3 s4]; [now apply Hbad|].
  pose proof (byte_val_range c3) as R3.
  destruct ((byte_val c1 <? lo) || (hi <? byte_val c1))%Z eqn:E3; [now apply Hbad|].
  apply orb_false_iff in E3 as [E3a E3b].
  apply Z.ltb_ge in E3a. apply Z.ltb_ge in E3b.
  destruct (utf8.isCont (byte_val c2)) eqn:E5; [|now apply Hbad].
  destruct (utf8.isCont (byte_val c3)) eqn:E6; [|now apply Hbad].
  unfold utf8.isCont in E5, E6.
  apply andb_true_iff in E5 as [E5a E5b]. apply andb_true_iff in E6 as [E6a E6b].
  apply Z.leb_le in E5a, E5b, E6a, E6b.
  assert (Hlohi : lo = (if (byte_val c0 =? 240)%Z then 144 else 128)%Z /\
                  hi = (if (byte_val c0 =? 244)%Z then 143 else 191)%Z).
  { unfold utf8.acceptRange in Hacc.
    destruct (Z.eqb_spec (byte_val c0) 224) as [e|ne]; [lia|].
    destruct (Z.eqb_spec (byte_val c0) 237) as [e|ne']; [lia|].
    destruct (Z.eqb_spec (byte_val c0) 240) as [e|ne''].
    - injection Hacc as <- <-. rewrite e. simpl. auto.
    - destruct (Z.eqb_spec (byte_val c0) 244) as [e|ne3];
        injection Hacc as <- <-; auto. }
  destruct Hlohi as [Hlo Hhi].
  destruct (encode_four (byte_val c0) (byte_val c1) (byte_val c2) (byte_val c3))
    as (Henc & Hr); [lia|rewrite <- Hlo, <- Hhi; lia|lia|lia|].
  simpl negb in Hdec. cbv iota in Hdec. injection Hdec as <- <-.
  exists [c1; c2; c3], s4. split; [reflexivity|]. split; [reflexivity|]. split; [simpl; lia|].
  split; [|split; [lia|]].
  - rewrite Henc.
    change [byte_val c0; byte_val c1; byte_val c2; byte_val c3]
      with (List.map byte_val [c0; c1; c2; c3]).
    now rewrite string_of_bytes_vals.
  - intros t.
      change (List.fold_right String EmptyString [c1; c2; c3] ++ t)%string
        with (String c1 (String c2 (String c3 t))).
      unfold utf8.DecodeRuneInString, utf8.RuneSelf.
    rewrite E0.
    replace ((byte_val c0 <? 194) || (244 <? byte_val c0))%Z with false
      by (symmetry; apply orb_false_iff; split; apply Z.ltb_ge; lia).
    rewrite Hacc. replace (byte_val c0 <? 224)%Z with false
      by (symmetry; apply Z.ltb_ge; lia).
    replace (byte_val c0 <? 240)%Z with false by (symmetry; apply Z.ltb_ge; lia).
    replace ((byte_val c1 <? lo) || (hi <? byte_val c1))%Z with false
      by (symmetry; apply orb_false_iff; split; apply Z.ltb_ge; lia).
    unfold utf8.isCont.
    replace ((128 <=? byte_val c2) && (byte_val c2 <=? 191))%Z with true
      by (symmetry; apply andb_true_iff; split; apply Z.leb_le; lia).
    replace ((128 <=? byte_val c3) && (byte_val c3 <=? 191))%Z with true
      by (symmetry; apply andb_true_iff; split; apply Z.leb_le; lia).
    reflexivity.
Qed.

(** ** JSON: decoding what [appendString] writes *)

Lemma unquote_ascii (c : byte) (X : string) :
  (byte_val c <? 128)%Z = true ->
  jsondec.unquoteBody
    ((if json.htmlSafeSet (byte_val c) then String c EmptyString else json.escapeByte c)
     ++ X)
  = jsondec.emit (String c EmptyString) (jsondec.unquoteBody X).
Proof.
  destruct c as [b0 b1 b2 b3 b4 b5 b6 b7].
  destruct b7; [destruct b0, b1, b2, b3, b4, b5, b6; discriminate|].
  intros _.
  destruct b0, b1, b2, b3, b4, b5, b6; reflexivity.
Qed.

Lemma string_take_drop (n : nat) (s : string) :
  (string_take n s ++ string_drop n s)%string = s.
Proof.
  revert s. induction n as [|n IH]; intros [|c s]; try reflexivity.
  change (String c (string_take n s ++ string_drop n s)%string = String c s).
  f_equal. apply IH.
Qed.

Lemma string_app_assoc (a b c : string) : ((a ++ b) ++ c = a ++ (b ++ c))%string.
Proof.
  induction a as [|x a IH]; [reflexivity|].
  change (String x ((a ++ b) ++ c) = String x (a ++ (b ++ c)))%string.
  f_equal. apply IH.
Qed.

Lemma unquote_raw (c : byte) (t : string) :
  (128 <= byte_val c)%Z ->
  jsondec.unquoteBody (String c t)
  = let '(rr, size) := utf8.DecodeRuneInString (String c t) in
    match size, t with
    | 2%nat, String _ t' => jsondec.emit (utf8.EncodeRune rr) (jsondec.unquoteBody t')
    | 3%nat, String _ (String _ t') =>
        jsondec.emit (utf8.EncodeRune rr) (jsondec.unquoteBody t')
    | 4%nat, String _ (String _ (String _ t')) =>
        jsondec.emit (utf8.EncodeRune rr) (jsondec.unquoteBody t')
    | _, _ => jsondec.emit (utf8.EncodeRune rr) (jsondec.unquoteBody t)
    end.
Proof.
  intros Hc. pose proof (byte_val_range c) as Rc.
  assert (Hq : Ascii.eqb c quote = false).
  { apply Ascii.eqb_neq. intros ->. change (byte_val quote) with 34%Z in Hc. lia. }
  assert (Hb : Ascii.eqb c backslash = false).
  { apply Ascii.eqb_neq. intros ->. change (byte_val backslash) with 92%Z in Hc. lia. }
  assert (H32 : (byte_val c <? 32)%Z = false) by (apply Z.ltb_ge; lia).
  assert (H128 : (byte_val c <? utf8.RuneSelf)%Z = false)
    by (apply Z.ltb_ge; unfold utf8.RuneSelf; lia).
  destruct t as [|c1 t]; cbn [jsondec.unquoteBody]; rewrite Hq, Hb, H32, H128;
    reflexivity.
Qed.

Lemma unquote_appendBody (n : nat) : forall (s rest : string),
  jsondec.unquoteBody (json.appendBody n s ++ String quote rest)
  = Some (coerced n s, rest).
Proof.
  induction n as [|n IH]; intros s rest.
  - destruct s; reflexivity.
  - destruct s as [|c s1]; [reflexivity|].
    cbn [json.appendBody coerced].
    destruct (byte_val c <? utf8.RuneSelf)%Z eqn:Hascii.
    + (* one ASCII byte *)
      rewrite string_app_assoc, (unquote_ascii c _ Hascii), IH.
      unfold utf8.DecodeRuneInString. rewrite Hascii.
      replace ((byte_val c =? utf8.RuneError)%Z) with false.
      2:{ symmetry. apply Z.eqb_neq. apply Z.ltb_lt in Hascii.
          unfold utf8.RuneSelf, utf8.RuneError in *. lia. }
      reflexivity.
    + destruct (utf8.DecodeRuneInString (String c s1)) as [r size] eqn:Hdec.
      destruct ((r =? utf8.RuneError)%Z && (size =? 1)%nat) eqn:Hinvalid.
      * (* a byte that starts no sequence *)
        rewrite string_app_assoc.
        change (jsondec.unquoteBody
                  (json.escape "ufffd" ++
                   json.appendBody n (string_drop size (String c s1)) ++ String quote rest))
          with (jsondec.emit (utf8.EncodeRune utf8.RuneError)
                  (jsondec.unquoteBody
                     (json.appendBody n (string_drop size (String c s1))
                      ++ String quote rest))).
        now rewrite IH.
      * apply Z.ltb_ge in Hascii. unfold utf8.RuneSelf in Hascii.
        destruct (decode_valid c s1 r size Hascii Hdec Hinvalid)
          as (cs & tail & Hs1 & Hsize & Hlen & Henc & Hr & Hprefix).
        assert (Htake : string_take size (String c s1)
                        = String c (List.fold_right String EmptyString cs)).
        { subst size s1. simpl. f_equal. clear.
          induction cs as [|x cs IHc]; simpl; [now destruct tail|]. now rewrite IHc. }
        assert (Hdrop : string_drop size (String c s1) = tail).
        { subst size s1. simpl. clear.
          induction cs as [|x cs IHc]; simpl; [reflexivity|]. exact IHc. }
        rewrite Htake, Hdrop.
        destruct ((r =? 8232) || (r =? 8233))%Z eqn:Hsep.
        -- (* U+2028 and U+2029 are written as escapes *)
           rewrite string_app_assoc.
           assert (Hesc : forall X,
             jsondec.unquoteBody
               (json.escape ("u202" ++ String (json.hexDigit (Z.land r 15)) EmptyString)
                ++ X)
             = jsondec.emit (utf8.EncodeRune r) (jsondec.unquoteBody X)).
           { intros X. apply orb_true_iff in Hsep as [Hsep|Hsep];
               apply Z.eqb_eq in Hsep; subst r; reflexivity. }
           rewrite Hesc, IH, Henc. reflexivity.
        -- (* the sequence is copied *)
           rewrite string_app_assoc.
           set (X := (json.appendBody n tail ++ String quote rest)%string).
           assert (Hraw :
             jsondec.unquoteBody (String c (List.fold_right String EmptyString cs) ++ X)
             = jsondec.emit (utf8.EncodeRune r) (jsondec.unquoteBody X)).
           { change (String c (List.fold_right String EmptyString cs) ++ X)%string
               with (String c (List.fold_right String EmptyString cs ++ X)%string).
             rewrite unquote_raw by exact Hascii.
             rewrite (Hprefix X). rewrite Hsize.
             destruct cs as [|c1 [|c2 [|c3 [|c4 cs]]]]; simpl in Hlen; try lia;
               reflexivity. }
           rewrite Hraw. unfold X. rewrite IH, Henc. reflexivity.
Qed.

Lemma string_drop_length (n : nat) (s : string) :
  String.length (string_drop n s) = (String.length s - n)%nat.
Proof.
  revert s. induction n as [|n IH]; intros [|c s]; simpl; auto.
Qed.

Lemma decode_size_positive (c : byte) (s : string) :
  (1 <= snd (utf8.DecodeRuneInString (String c s)))%nat.
Proof.
  unfold utf8.DecodeRuneInString.
  repeat match goal with
         | |- context [if ?b then _ else _] => destruct b
         | |- context [let '(_, _) := ?p in _] => destruct p
         | |- context [match ?t with EmptyString => _ | String _ _ => _ end] => destruct t
         end; simpl; lia.
Qed.

(** A valid string is left as it is. *)
Lemma coerced_valid (n : nat) : forall s,
  (String.length s <= n)%nat -> validLoop n s = true -> coerced n s = s.
Proof.
  induction n as [|n IH]; intros s Hlen Hvalid.
  - destruct s; [reflexivity|simpl in Hlen; lia].
  - destruct s as [|c s1]; [reflexivity|].
    cbn [validLoop coerced] in *.
    pose proof (decode_size_positive c s1) as Hpos.
    destruct (utf8.DecodeRuneInString (String c s1)) as [r size].
    destruct ((r =? utf8.RuneError)%Z && (size =? 1)%nat); [discriminate|].
    rewrite IH; [apply string_take_drop| |exact Hvalid].
    rewrite string_drop_length. simpl in *. lia.
Qed.

Lemma toValidUTF8_valid (s : string) : ValidString s = true -> toValidUTF8 s = s.
Proof. intros Hv. apply coerced_valid; [lia|exact Hv]. Qed.

(** One member written by [Marshal] and read back. *)
Lemma members_step (fuel : nat) (name v : string) (d : byte) (rest : string) :
  (forall X, jsondec.unquoteBody (name ++ String quote X) = Some (name, X)) ->
  jsondec.isSpace d = false ->
  jsondec.members (S fuel)
    (json.quoted name ++ ":" ++ json.appendString v ++ String d rest)
  = if Ascii.eqb d "," then
      option_map (cons (name, toValidUTF8 v)) (jsondec.members fuel rest)
    else if Ascii.eqb d "}" then
      match jsondec.skipSpace rest with
      | EmptyString => Some [(name, toValidUTF8 v)]
      | String _ _ => None
      end
    else None.
Proof.
  intros Hname Hd.
  cbn [jsondec.members].
  assert (Hlit1 : jsondec.literal
            (json.quoted name ++ ":" ++ json.appendString v ++ String d rest)
          = Some (name, (":" ++ json.appendString v ++ String d rest)%string)).
  { unfold jsondec.literal, json.quoted.
    change (String quote (name ++ String quote EmptyString) ++ ?Y)%string
      with (String quote ((name ++ String quote EmptyString) ++ Y)%string).
    cbn [jsondec.skipSpace]. change (jsondec.isSpace quote) with false. cbv iota.
    rewrite Ascii.eqb_refl, string_app_assoc. apply Hname. }
  rewrite Hlit1.
  change (":" ++ json.appendString v ++ String d rest)%string
    with (String ":"%char (json.appendString v ++ String d rest)%string).
  cbn [jsondec.skipSpace]. change (jsondec.isSpace ":"%char) with false. cbv iota.
  rewrite Ascii.eqb_refl. cbn [negb].
  assert (Hlit2 : jsondec.literal (json.appendString v ++ String d rest)
                  = Some (toValidUTF8 v, String d rest)).
  { unfold jsondec.literal, json.appendString.
    change (String quote ?A ++ ?Y)%string with (String quote (A ++ Y)%string).
    cbn [jsondec.skipSpace]. change (jsondec.isSpace quote) with false. cbv iota.
    rewrite Ascii.eqb_refl, string_app_assoc.
    apply unquote_appendBody. }
  rewrite Hlit2.
  cbn [jsondec.skipSpace]. rewrite Hd. reflexivity.
Qed.

(** The object written for a license, read back. *)
Lemma decodeObject_toJSON (l : LicenseData) :
  jsondec.decodeObject (fst (toJSON l))
  = Some [("title", toValidUTF8 (Title l));
          ("content", toValidUTF8 (Text l));
          ("url", toValidUTF8 (URL l))].
Proof.
  unfold toJSON, json.Marshal. cbn [fst].
  unfold jsondec.decodeObject.
  set (m3 := (json.quoted "url" ++ ":" ++ json.appendString (URL l) ++ "}")%string).
  set (m2 := (json.quoted "content" ++ ":" ++ json.appendString (Text l)
                ++ "," ++ m3)%string).
  set (m1 := (json.quoted "title" ++ ":" ++ json.appendString (Title l)
                ++ "," ++ m2)%string).
  change ("{" ++ m1)%string with (String "{"%char m1).
  cbn [jsondec.skipSpace]. change (jsondec.isSpace "{"%char) with false.
  cbv iota. rewrite Ascii.eqb_refl. cbn [negb].
  assert (Hlen : exists n, String.length m1 = S (S (S n))).
  { unfold m1, json.quoted. cbn [String.append String.length]. eauto. }
  destruct Hlen as [n ->].
  assert (Hhead : exists X, m1 = String quote X).
  { unfold m1, json.quoted. cbn [String.append]. eauto. }
  destruct Hhead as [X HX]. rewrite HX at 1.
  cbn [jsondec.skipSpace]. change (jsondec.isSpace quote) with false.
  cbv iota. change (Ascii.eqb quote "}"%char) with false. cbv iota.
  clear X HX.
  unfold m1. rewrite (members_step _ "title" (Title l) ","%char m2);
    [|intros X; reflexivity|reflexivity].
  rewrite Ascii.eqb_refl.
  unfold m2. rewrite (members_step _ "content" (Text l) ","%char m3);
    [|intros X; reflexivity|reflexivity].
  rewrite Ascii.eqb_refl.
  unfold m3. rewrite (members_step _ "url" (URL l) "}"%char EmptyString);
    [|intros X; reflexivity|reflexivity].
  reflexivity.
Qed.


(** ** C8: the JSON rendering read back *)

(** C8, as stated, fails for a license text that is not valid UTF-8: the
    encoder writes U+FFFD for a byte that starts no valid sequence.  For
    the one-byte text [0xFF] the object has its three keys, and its
    [content] field decodes to the three bytes [EF BF BD], not to the
    text. *)
Lemma invalid_utf8_text_not_restored :
  let l := {| Title := "MIT"; Text := string_of_bytes [255%Z]; URL := "/mit" |} in
  ValidString (Text l) = false /\
  jsondec.decodeObject (fst (toJSON l))
  = Some [("title", "MIT");
          ("content", string_of_bytes [239%Z; 191%Z; 189%Z]);
          ("url", "/mit")] /\
  string_of_bytes [239%Z; 191%Z; 189%Z] <> Text l.
Proof.
  cbv zeta. split; [vm_compute; reflexivity|].
  split; [vm_compute; reflexivity|].
  vm_compute. discriminate.
Qed.

(** C8 (amended): for every license, [toJSON] succeeds and writes a JSON
    object with exactly the three string members [title], [content] and
    [url], in this order, each of which decodes to the field of the license
    with every byte that starts no valid UTF-8 sequence replaced by U+FFFD;
    when the text of the license is valid UTF-8, decoding the [content]
    member gives back the text byte for byte. *)
Theorem toJSON_content_round_trip (l : LicenseData) :
  snd (toJSON l) = None /\
  jsondec.decodeObject (fst (toJSON l))
  = Some [("title", toValidUTF8 (Title l));
          ("content", toValidUTF8 (Text l));
          ("url", toValidUTF8 (URL l))] /\
  (ValidString (Text l) = true ->
   jsondec.decodeObject (fst (toJSON l))
   = Some [("title", toValidUTF8 (Title l));
           ("content", Text l);
           ("url", toValidUTF8 (URL l))]).
Proof.
  split; [reflexivity|]. split; [apply decodeObject_toJSON|].
  intros Htext. rewrite decodeObject_toJSON, (toValidUTF8_valid _ Htext).
  reflexivity.
Qed.

(** The license [MIT] of body [MIT License text] under [/mit]. *)
Lemma toJSON_round_trip_example :
  let l := {| Title := "MIT"; Text := "MIT License text"; URL := "/mit" |} in
  fst (toJSON l)
  = ("{" ++ json.quoted "title" ++ ":" ++ json.quoted "MIT" ++ ","
         ++ json.quoted "content" ++ ":" ++ json.quoted "MIT License text" ++ ","
         ++ json.quoted "url" ++ ":" ++ json.quoted "/mit" ++ "}")%string /\
  snd (toJSON l) = None /\
  ValidString (Text l) = true /\
  jsondec.decodeObject (fst (toJSON l))
  = Some [("title", "MIT"); ("content", "MIT License text"); ("url", "/mit")].
Proof.
  cbv zeta. split; [vm_compute; reflexivity|].
  destruct (toJSON_content_round_trip
              {| Title := "MIT"; Text := "MIT License text"; URL := "/mit" |})
    as (Hok & _ & Hround).
  split; [exact Hok|].
  assert (Hvalid : ValidString "MIT License text" = true) by (vm_compute; reflexivity).
  split; [exact Hvalid|]. exact (Hround Hvalid).
Defined.


(** * Further properties of the negotiator *)

Lemma Split_app (a b : string) (c : byte) :
  strings.Split (a ++ String c b) c = (strings.Split a c ++ strings.Split b c)%list.
Proof.
  induction a as [|d a IH].
  - simpl. now rewrite Ascii.eqb_refl.
  - change (String d a ++ String c b)%string with (String d (a ++ String c b)).
    simpl. destruct (Ascii.eqb d c).
    + now rewrite IH.
    + rewrite IH. pose proof (Split_nonempty a c) as Hne.
      destruct (strings.Split a c) as [|t ts]; [congruence|reflexivity].
Qed.

Lemma candidates_join `{GoLibrary} (accept1 accept2 : string) :
  candidates (accept1 ++ "," ++ accept2)
  = (candidates accept1 ++ candidates accept2)%list.
Proof.
  rewrite !candidates_flat_map.
  change ("," ++ accept2)%string with (String ","%char accept2).
  now rewrite Split_app, flat_map_app.
Qed.

Lemma preferred_filter (l : list AcceptType) : forall best,
  preferred (List.filter supported l) best = preferred l best.
Proof.
  induction l as [|a l IH]; intros best; simpl; [reflexivity|].
  destruct (supported a) eqn:Ha; simpl; [|apply IH].
  rewrite Ha. destruct best as [b|]; [|apply IH].
  destruct (f64_gt (RelativeWeight a) (RelativeWeight b)); apply IH.
Qed.

Lemma preferred_app (l1 l2 : list AcceptType) : forall best,
  preferred (l1 ++ l2) best = preferred l2 (preferred l1 best).
Proof.
  induction l1 as [|a l1 IH]; intros best; simpl; [reflexivity|].
  destruct (supported a); [|apply IH].
  destruct best as [b|]; [|apply IH].
  destruct (f64_gt (RelativeWeight a) (RelativeWeight b)); apply IH.
Qed.

Lemma preferred_In (l : list AcceptType) : forall best m,
  preferred l best = Some m -> (In m l /\ supported m = true) \/ best = Some m.
Proof.
  induction l as [|a l IH]; intros best m; simpl; [auto|].
  destruct (supported a) eqn:Ha.
  - destruct best as [b|].
    + destruct (f64_gt (RelativeWeight a) (RelativeWeight b)); intros Hp;
        destruct (IH _ _ Hp) as [[Hin Hs]|Hb]; auto.
      injection Hb as <-. auto.
    + intros Hp. destruct (IH _ _ Hp) as [[Hin Hs]|Hb]; auto.
      injection Hb as <-. auto.
  - intros Hp. destruct (IH _ _ Hp) as [[Hin Hs]|Hb]; auto.
Qed.

(** Starting the scan from a candidate [b]: [b] stays unless the preferred
    candidate of the list outweighs it. *)
Lemma preferred_start (l : list AcceptType) : forall b,
  noNaN (b :: l) ->
  preferred l (Some b)
  = match preferred l None with
    | Some m => if f64_gt (RelativeWeight m) (RelativeWeight b) then Some m else Some b
    | None => Some b
    end.
Proof.
  induction l as [|a l IH]; intros b Hnan; simpl; [reflexivity|].
  assert (Hb : is_nan (RelativeWeight b) = false) by now inversion Hnan.
  assert (Hl : noNaN (a :: l)) by now inversion Hnan.
  assert (Ha : is_nan (RelativeWeight a) = false) by now inversion Hl.
  assert (Hl' : noNaN l) by now inversion Hl.
  assert (Hbl : noNaN (b :: l)) by now constructor.
  assert (Hal : noNaN (a :: l)) by now constructor.
  destruct (supported a) eqn:Hsup; [|now apply IH].
  rewrite (IH a Hal), (IH b Hbl).
  destruct (preferred l None) as [m|] eqn:Hm.
  - assert (Hmn : is_nan (RelativeWeight m) = false).
    { destruct (preferred_In _ _ _ Hm) as [[Hin _]|]; [|discriminate].
      unfold noNaN in Hl'. rewrite List.Forall_forall in Hl'. auto. }
    unfold f64_gt.
    destruct (SFltb (RelativeWeight b) (RelativeWeight a)) eqn:Hab;
      destruct (SFltb (RelativeWeight a) (RelativeWeight m)) eqn:Ham;
      destruct (SFltb (RelativeWeight b) (RelativeWeight m)) eqn:Hbm;
      cbv beta iota; rewrite ?Hab, ?Ham, ?Hbm; try reflexivity;
      exfalso;
      repeat match goal with
             | H : SFltb _ _ = true |- _ => rewrite SFltb_orderKey in H by assumption
             | H : SFltb _ _ = false |- _ => rewrite SFltb_false_iff in H by assumption
             end;
      destruct (orderKey (RelativeWeight a)) as [[a1 a2] a3],
               (orderKey (RelativeWeight b)) as [[b1 b2] b3],
               (orderKey (RelativeWeight m)) as [[m1 m2] m3];
      simpl in *; lia.
  - unfold f64_gt.
    destruct (SFltb (RelativeWeight b) (RelativeWeight a)) eqn:Hab;
      cbv beta iota; rewrite ?Hab; reflexivity.
Qed.

Lemma noNaN_app (l1 l2 : list AcceptType) :
  noNaN l1 -> noNaN l2 -> noNaN (l1 ++ l2).
Proof. unfold noNaN. intros. apply List.Forall_app. auto. Qed.


(** X1: with a stable sort and no NaN weight, the negotiated type depends
    on the header only through its supported candidates, in the order
    they are listed: two headers with the same supported candidates
    negotiate the same type, whatever unsupported media types they list
    besides. *)
Theorem supported_candidates_decide `{GoLibrary} (accept1 accept2 : string) :
  SortStable ->
  noNaN (candidates accept1) -> noNaN (candidates accept2) ->
  List.filter supported (candidates accept1)
  = List.filter supported (candidates accept2) ->
  mostAcceptable accept1 = mostAcceptable accept2.
Proof.
  intros Hst H1 H2 Heq.
  rewrite !mostAcceptable_winner, !winner_preferred by assumption.
  now rewrite <- (preferred_filter (candidates accept1)), Heq, preferred_filter.
Qed.

(** Two unsupported types of high weight around the same two supported
    candidates. *)
Lemma supported_candidates_decide_example :
  let accept1 := "text/css, text/html;q=0.5, image/png;q=0.9, application/json;q=0.5" in
  let accept2 := "text/html;q=0.5,application/json;q=0.5" in
  List.filter supported (candidates accept1)
  = List.filter supported (candidates accept2) /\
  mostAcceptable accept1 = mostAcceptable accept2.
Proof.
  cbv zeta.
  assert (Heq : List.filter supported
                  (candidates "text/css, text/html;q=0.5, image/png;q=0.9, application/json;q=0.5")
                = List.filter supported (candidates "text/html;q=0.5,application/json;q=0.5"))
    by (vm_compute; reflexivity).
  split; [exact Heq|].
  apply (supported_candidates_decide _ _ go_SortStable); [| |exact Heq];
    vm_compute; repeat constructor.
Defined.

(** X2: two headers joined by a comma.  With a stable sort and no NaN
    weight, the joined header negotiates what the first header does,
    unless the winner of the second header has a strictly higher weight
    than the winner of the first (or the first has no supported
    candidate): then it negotiates what the second header does. *)
Theorem mostAcceptable_join `{GoLibrary} (accept1 accept2 : string) :
  SortStable ->
  noNaN (candidates accept1) -> noNaN (candidates accept2) ->
  mostAcceptable (accept1 ++ "," ++ accept2)
  = match winner accept1, winner accept2 with
    | Some w1, Some w2 =>
        if f64_gt (RelativeWeight w2) (RelativeWeight w1)
        then mostAcceptable accept2 else mostAcceptable accept1
    | Some _, None => mostAcceptable accept1
    | None, _ => mostAcceptable accept2
    end.
Proof.
  intros Hst H1 H2.
  assert (H12 : noNaN (candidates (accept1 ++ "," ++ accept2))).
  { rewrite candidates_join. now apply noNaN_app. }
  rewrite !mostAcceptable_winner, !winner_preferred by assumption.
  rewrite candidates_join, preferred_app.
  destruct (preferred (candidates accept1) None) as [w1|] eqn:Hw1; [|reflexivity].
  assert (Hn : noNaN (w1 :: candidates accept2)).
  { constructor; [|exact H2].
    destruct (preferred_In _ _ _ Hw1) as [[Hin _]|]; [|discriminate].
    unfold noNaN in H1. rewrite List.Forall_forall in H1. auto. }
  rewrite (preferred_start _ _ Hn).
  destruct (preferred (candidates accept2) None) as [w2|]; [|reflexivity].
  destruct (f64_gt (RelativeWeight w2) (RelativeWeight w1)); reflexivity.
Qed.

(** A second header whose winner weighs more, and one whose winner weighs
    the same. *)
Lemma mostAcceptable_join_example :
  mostAcceptable ("text/plain;q=0.5" ++ "," ++ "text/css, application/json;q=0.7")
  = "application/json" /\
  mostAcceptable ("text/plain;q=0.5" ++ "," ++ "text/css, application/json;q=0.5")
  = "text/plain".
Proof.
  split.
  - rewrite (mostAcceptable_join "text/plain;q=0.5" "text/css, application/json;q=0.7"
               go_SortStable); [vm_compute; reflexivity| |]; vm_compute; repeat constructor.
  - rewrite (mostAcceptable_join "text/plain;q=0.5" "text/css, application/json;q=0.5"
               go_SortStable); [vm_compute; reflexivity| |]; vm_compute; repeat constructor.
Defined.

(** X3: the three negotiated types are fixed points: the type negotiated
    for a header, sent as an [Accept] header itself, negotiates to
    itself. *)
Theorem mostAcceptable_fixed_point (accept : string) :
  mostAcceptable (mostAcceptable accept) = mostAcceptable accept.
Proof.
  destruct (mostAcceptable_closed accept) as [-> | [-> | ->]];
    vm_compute; reflexivity.
Qed.

(** X4: whenever the sort only rearranges, and whatever the weights (NaN
    included), the negotiated type is the mapped type of a candidate that
    the header lists, or else no candidate of the header is supported and
    the type is the default [text/plain]. *)
Theorem mostAcceptable_backed_by_candidate `{GoLibrary} (accept : string) :
  SortPermutes ->
  (exists m, In m (candidates accept) /\ mapped m = Some (mostAcceptable accept)) \/
  (Forall (fun a => mapped a = None) (candidates accept) /\
   mostAcceptable accept = "text/plain").
Proof.
  intros Hperm. rewrite mostAcceptable_winner.
  destruct (winner accept) as [m|] eqn:Hw.
  - left. exists m. split; [now apply winner_In|].
    pose proof (winner_supported accept m Hw) as Hs. unfold supported in Hs.
    destruct (mapped m); [reflexivity|discriminate].
  - right. split; [|reflexivity].
    unfold winner in Hw. apply find_none_Forall in Hw.
    rewrite List.Forall_forall in Hw |- *. intros a Ha.
    assert (Hs : supported a = false).
    { apply Hw. now apply (Permutation_in _ (Permutation_sym (Hperm _ _ byWeight))). }
    unfold supported in Hs. destruct (mapped a); [discriminate|reflexivity].
Qed.

(** A header with a NaN weight: the type returned is that of a listed
    candidate. *)
Lemma mostAcceptable_backed_example :
  let accept := "application/json;q=nan, text/html;q=0.5" in
  (exists m, In m (candidates accept) /\ mapped m = Some (mostAcceptable accept)) \/
  (Forall (fun a => mapped a = None) (candidates accept) /\
   mostAcceptable accept = "text/plain").
Proof.
  cbv zeta.
  apply (mostAcceptable_backed_by_candidate "application/json;q=nan, text/html;q=0.5"
           go_SortPermutes).
Defined.

Lemma SFltb_asym (a b : float64) : SFltb a b = true -> SFltb b a = false.
Proof.
  intros Hab. destruct (SFltb_not_nan _ _ Hab) as [Ha Hb].
  rewrite SFltb_orderKey in Hab by assumption.
  rewrite SFltb_false_iff by assumption.
  destruct (orderKey a) as [[a1 a2] a3], (orderKey b) as [[b1 b2] b3].
  simpl in *. lia.
Qed.

(** X5: the comparison function handed to the sort is a consistent
    three-way comparison for all weights, NaN included: it answers -1, 0
    or 1, and exchanging its arguments negates the answer. *)
Theorem byWeight_antisymmetric (a b : AcceptType) :
  byWeight a b = (- byWeight b a)%Z /\
  (byWeight a b = (-1)%Z \/ byWeight a b = 0%Z \/ byWeight a b = 1%Z).
Proof.
  unfold byWeight, f64_gt, f64_lt.
  destruct (SFltb (RelativeWeight b) (RelativeWeight a)) eqn:Hba;
    destruct (SFltb (RelativeWeight a) (RelativeWeight b)) eqn:Hab;
    auto.
  rewrite (SFltb_asym _ _ Hba) in Hab. discriminate.
Qed.

(** X6: on candidates none of which has a NaN weight, the comparison
    function is a strict weak ordering, which is what
    [slices.SortStableFunc] requires of it. *)
Theorem byWeight_strict_weak_ordering (l : list AcceptType) :
  noNaN l -> StrictWeakOn byWeight l.
Proof.
  intros Hl. unfold noNaN in Hl. rewrite List.Forall_forall in Hl.
  unfold StrictWeakOn, equivalent. repeat split.
  - intros a _. rewrite less_byWeight. apply SFltb_irrefl.
  - intros a b c Ha Hb Hc. rewrite !less_byWeight. unfold f64_gt. intros Hab Hbc.
    apply SFltb_trans with (RelativeWeight b); auto.
  - intros a b c Ha Hb Hc. rewrite !less_byWeight. unfold f64_gt.
    rewrite !andb_true_iff, !negb_true_iff. intros [H1 H2] [H3 H4].
    destruct (SFltb_incomparable_trans (RelativeWeight a) (RelativeWeight b)
                (RelativeWeight c)); auto.
Qed.

Lemma byWeight_strict_weak_ordering_example :
  StrictWeakOn byWeight (candidates "text/css, text/plain; q=0.8, text/html; q=0.9").
Proof.
  apply byWeight_strict_weak_ordering. vm_compute. repeat constructor.
Defined.

(** With a NaN weight the requirement fails: 0.1 and NaN compare as
    equal, NaN and 0.9 compare as equal, 0.1 and 0.9 do not. *)
Lemma byWeight_not_strict_weak_with_nan :
  ~ StrictWeakOn byWeight (candidates "text/plain;q=0.1, text/css;q=nan, text/html;q=0.9").
Proof.
  intros (_ & _ & Heq).
  set (l := candidates "text/plain;q=0.1, text/css;q=nan, text/html;q=0.9") in *.
  assert (Hl : exists p c h, l = [p; c; h] /\ equivalent byWeight p c = true /\
                             equivalent byWeight c h = true /\
                             equivalent byWeight p h = false).
  { eexists _, _, _. split; [vm_compute; reflexivity|]. repeat split. }
  destruct Hl as (p & c & h & Hl & Hpc & Hch & Hph).
  rewrite (Heq p c h) in Hph; [discriminate| | | |assumption|assumption];
    rewrite Hl; simpl; auto.
Qed.

(** X7: the sort of the candidates.  [slices.SortStableFunc] with this
    comparison function returns a rearrangement of its input; when no
    weight is NaN the result is in order of non-increasing weight, and
    the candidates of equal weight keep the order they had. *)
Theorem SortStableFunc_byWeight (l : list AcceptType) :
  noNaN l ->
  let out := slices.SortStableFunc l byWeight in
  Permutation out l /\
  (forall i j a b, (i < j)%nat -> out !! i = Some a -> out !! j = Some b ->
     f64_gt (RelativeWeight b) (RelativeWeight a) = false) /\
  (forall e, In e l ->
     List.filter (equivalent byWeight e) out = List.filter (equivalent byWeight e) l).
Proof.
  intros Hnan out.
  destruct (SortStableFunc_StablySorted l byWeight (byWeight_StrictWeakOn l Hnan))
    as (Hperm & Hord & Hst).
  split; [exact Hperm|]. split; [|exact Hst].
  intros i j a b Hij Ha Hb. rewrite <- less_byWeight. now apply (Hord i j).
Qed.

(** Four candidates, the two of weight 1 staying in header order. *)
Lemma SortStableFunc_byWeight_example :
  let l := candidates "text/css, text/plain; q=0.8, text/html; q=0.9, image/png" in
  List.map MediaType (slices.SortStableFunc l byWeight)
  = ["text/css"; "image/png"; "text/html"; "text/plain"] /\
  Permutation (slices.SortStableFunc l byWeight) l.
Proof.
  cbv zeta. split; [vm_compute; reflexivity|].
  apply (SortStableFunc_byWeight
           (candidates "text/css, text/plain; q=0.8, text/html; q=0.9, image/png")).
  vm_compute. repeat constructor.
Defined.


(** * Further properties of the handlers and of the start-up *)

Section StartupFacts.
Context `{GoLibrary}.

Lemma toJSON_ok (l : LicenseData) : toJSON l = (fst (json.Marshal l), None).
Proof. reflexivity. Qed.

Lemma handlerFor_ready (e : Embedded) (tmpl : Template) (lpath : string) :
  licenseReady e tmpl lpath = true ->
  handlerFor lpath (fs_ReadFile e) tmpl
  = inl (snd (routeOf e tmpl lpath), licenseOf e lpath).
Proof.
  unfold licenseReady, routeOf, handlerFor, licenseOf.
  destruct (fs_ReadFile e lpath) as [text|err]; [|discriminate].
  cbn [Text snd].
  destruct (toHTML _ tmpl) as [html [err|]]; [discriminate|].
  intros _. reflexivity.
Qed.

Lemma handlerFor_not_ready (e : Embedded) (tmpl : Template) (lpath : string) :
  licenseReady e tmpl lpath = false ->
  exists err, handlerFor lpath (fs_ReadFile e) tmpl = inr err.
Proof.
  unfold licenseReady, handlerFor, licenseOf.
  destruct (fs_ReadFile e lpath) as [text|err]; [|eauto].
  destruct (toHTML _ tmpl) as [html [err|]]; [eauto|discriminate].
Qed.

Lemma handlerFor_inv (e : Embedded) (tmpl : Template) (lpath : string) h l :
  handlerFor lpath (fs_ReadFile e) tmpl = inl (h, l) ->
  licenseReady e tmpl lpath = true.
Proof.
  intros Hh. destruct (licenseReady e tmpl lpath) eqn:Hr; [reflexivity|].
  destruct (handlerFor_not_ready e tmpl lpath Hr) as [err Herr]. congruence.
Qed.

Lemma registerLicenses_ready (licenses : list string) :
  forall (e : Embedded) (tmpl : Template) (mux : ServeMux) (sup : list LicenseData),
  forallb (licenseReady e tmpl) licenses = true ->
  registerLicenses licenses e tmpl mux sup
  = inl ((mux ++ List.map (routeOf e tmpl) licenses)%list,
         (sup ++ List.map (licenseOf e) licenses)%list).
Proof.
  induction licenses as [|lpath licenses IH]; intros e tmpl mux sup Hall; simpl.
  - now rewrite !app_nil_r.
  - simpl in Hall. apply andb_prop in Hall as [Hr Hall].
    rewrite (handlerFor_ready e tmpl lpath Hr), (IH e tmpl _ _ Hall).
    unfold Handle. rewrite <- !app_assoc. reflexivity.
Qed.

Lemma registerLicenses_inv (licenses : list string) :
  forall (e : Embedded) (tmpl : Template) (mux : ServeMux) (sup : list LicenseData) res,
  registerLicenses licenses e tmpl mux sup = inl res ->
  forallb (licenseReady e tmpl) licenses = true.
Proof.
  induction licenses as [|lpath licenses IH]; intros e tmpl mux sup res; simpl;
    [reflexivity|].
  destruct (handlerFor lpath (fs_ReadFile e) tmpl) as [[h data]|err] eqn:Hh;
    [|discriminate].
  intros Hres. rewrite (handlerFor_inv e tmpl lpath h data Hh). simpl.
  now apply IH with (1 := Hres).
Qed.

End StartupFacts.


Lemma mostAcceptable_empty `{GoLibrary} :
  SortPermutes -> EmptyTokenFails -> mostAcceptable "" = "text/plain".
Proof.
  intros Hperm Hempty. unfold mostAcceptable.
  assert (Hnil : candidates "" = []).
  { rewrite candidates_flat_map. simpl.
    now rewrite (candidateOf_unparseable _ Hempty). }
  rewrite Hnil.
  pose proof (Hperm _ (@nil AcceptType) byWeight) as Hp.
  apply Permutation_sym, Permutation_nil in Hp. now rewrite Hp.
Qed.

(** X8: a request without an [Accept] header (no such key, a key without
    values, or an empty first value) is answered in plain text: status
    200, [Content-Type: text/plain] and the license file as body. *)
Theorem licenseHandler_without_accept `{GoLibrary}
    (plainData htmlData jsonData : string) (r : http.Request) :
  SortPermutes -> EmptyTokenFails ->
  (http.Header r !! "Accept" = None \/
   http.Header r !! "Accept" = Some [] \/
   exists more, http.Header r !! "Accept" = Some (EmptyString :: more)) ->
  licenseHandler plainData htmlData jsonData r http.newRecorder
  = {| http.header := {[ "Content-Type" := "text/plain" ]};
       http.code := Some http.StatusOK;
       http.body := plainData |}.
Proof.
  intros Hperm Hempty Hr.
  assert (Hget : http.Header_Get (http.Header r) "Accept" = "").
  { unfold http.Header_Get. destruct Hr as [->|[->|[more ->]]]; reflexivity. }
  unfold licenseHandler. rewrite Hget, (mostAcceptable_empty Hperm Hempty).
  cbn. unfold http.Write, http.WriteHeader, http.Header_Set, http.newRecorder.
  cbn. now rewrite insert_empty.
Qed.

(** A request with no header at all. *)
Lemma licenseHandler_without_accept_example :
  licenseHandler "MIT License text" "<h1>MIT</h1>" "{}"
    {| http.Method := "GET"; http.Path := "/mit"; http.Header := ∅ |} http.newRecorder
  = {| http.header := {[ "Content-Type" := "text/plain" ]};
       http.code := Some http.StatusOK;
       http.body := "MIT License text" |}.
Proof.
  apply (licenseHandler_without_accept "MIT License text" "<h1>MIT</h1>" "{}"
           {| http.Method := "GET"; http.Path := "/mit"; http.Header := ∅ |}
           go_SortPermutes go_EmptyTokenFails).
  left. reflexivity.
Defined.

Lemma handlerFor_closed_form `{GoLibrary} (lpath : string)
    (licenses : string -> string + error) (tmpl : Template) h l :
  handlerFor lpath licenses tmpl = inl (h, l) ->
  licenses lpath = inl (Text l) /\
  Title l = pathToTitle lpath /\ URL l = pathToURL lpath /\
  snd (toHTML l tmpl) = None /\
  h = licenseHandler (Text l) (fst (toHTML l tmpl)) (fst (toJSON l)).
Proof.
  unfold handlerFor. destruct (licenses lpath) as [text|err]; [|discriminate].
  destruct (toHTML _ tmpl) as [html [err|]] eqn:Hhtml; [discriminate|].
  cbn. intros [= <- <-]. cbn. rewrite Hhtml. auto.
Qed.

(** X10: whenever JSON is negotiated, the handler built by [handlerFor]
    answers status 200, [Content-Type: application/json] and a JSON object
    whose members are [title], [content] and [url], in this order, each
    decoding to the title, the bytes of the file and the URL with every
    byte that starts no valid UTF-8 sequence replaced by U+FFFD; when the
    license file is valid UTF-8 its [content] member decodes to the bytes
    of the file. *)
Theorem handlerFor_serves_json `{GoLibrary} (lpath : string)
    (licenses : string -> string + error) (tmpl : Template)
    (h : http.Handler) (l : LicenseData) (r : http.Request) :
  handlerFor lpath licenses tmpl = inl (h, l) ->
  mostAcceptable (http.Header_Get (http.Header r) "Accept") = "application/json" ->
  licenses lpath = inl (Text l) /\
  http.code (h r http.newRecorder) = Some http.StatusOK /\
  http.header (h r http.newRecorder) !! "Content-Type" = Some "application/json" /\
  jsondec.decodeObject (http.body (h r http.newRecorder))
  = Some [("title", toValidUTF8 (pathToTitle lpath));
          ("content", toValidUTF8 (Text l));
          ("url", toValidUTF8 (pathToURL lpath))] /\
  (ValidString (Text l) = true ->
   jsondec.decodeObject (http.body (h r http.newRecorder))
   = Some [("title", toValidUTF8 (pathToTitle lpath));
           ("content", Text l);
           ("url", toValidUTF8 (pathToURL lpath))]).
Proof.
  intros Hh Hm.
  destruct (handlerFor_closed_form _ _ _ _ _ Hh) as (Hfile & Ht & Hu & _ & ->).
  split; [assumption|].
  unfold licenseHandler. rewrite Hm. cbn [String.eqb Ascii.eqb Bool.eqb].
  cbn [http.code http.header http.body http.Write http.WriteHeader http.Header_Set
       http.newRecorder].
  split; [reflexivity|]. split; [apply lookup_insert_eq|].
  change (EmptyString ++ fst (toJSON l))%string with (fst (toJSON l)).
  rewrite decodeObject_toJSON, Ht, Hu.
  split; [reflexivity|].
  intros Hvalid. now rewrite (toValidUTF8_valid _ Hvalid).
Qed.

(** The license [MIT] asked for as JSON, and a file that is not valid
    UTF-8 asked for as JSON. *)
Lemma handlerFor_serves_json_example :
  (exists h l,
     handlerFor "licenses/MIT.txt" (fs_ReadFile twoLicenses) pages = inl (h, l) /\
     jsondec.decodeObject
       (http.body (h (requestFor "GET" "/mit" "application/json") http.newRecorder))
     = Some [("title", "MIT"); ("content", "MIT License text"); ("url", "/mit")]) /\
  (exists h l,
     handlerFor "licenses/MIT.txt" (fun _ => inl (string_of_bytes [77%Z; 255%Z])) pages
     = inl (h, l) /\
     http.code (h (requestFor "GET" "/mit" "application/json") http.newRecorder)
     = Some http.StatusOK /\
     jsondec.decodeObject
       (http.body (h (requestFor "GET" "/mit" "application/json") http.newRecorder))
     = Some [("title", "MIT");
             ("content", string_of_bytes [77%Z; 239%Z; 191%Z; 189%Z]);
             ("url", "/mit")]).
Proof.
  split.
  - eexists _, _. split; [reflexivity|].
    pose proof (handlerFor_serves_json "licenses/MIT.txt" (fs_ReadFile twoLicenses) pages
                  _ _ (requestFor "GET" "/mit" "application/json") eq_refl) as Hx.
    destruct Hx as (_ & _ & _ & _ & Hbody); [vm_compute; reflexivity|].
    apply Hbody. vm_compute. reflexivity.
  - eexists _, _. split; [reflexivity|].
    pose proof (handlerFor_serves_json "licenses/MIT.txt"
                  (fun _ => inl (string_of_bytes [77%Z; 255%Z])) pages
                  _ _ (requestFor "GET" "/mit" "application/json") eq_refl) as Hx.
    destruct Hx as (_ & Hcode & _ & Hbody & _); [vm_compute; reflexivity|].
    split; [exact Hcode|]. exact Hbody.
Defined.

(** X11: the start-up in closed form.  When [appHandler] returns a mux, it
    has registered, in the order of the glob, one pattern [GET <url>] for
    each license file with the handler of that license, and last the
    pattern [/] with the public handler built on the data of all the
    licenses in the same order. *)
Theorem appHandler_routes `{GoLibrary} (e : Embedded) (mux : ServeMux) :
  appHandler e = inl mux ->
  exists tmpl public licenses,
    template_ParseFS e = inl tmpl /\ fs_Sub e = inl public /\
    fs_Glob e = inl licenses /\
    mux = (List.map (routeOf e tmpl) licenses
           ++ [("/", newPublicHandler public tmpl (List.map (licenseOf e) licenses))])%list /\
    List.map fst mux
    = (List.map (fun lpath => ("GET " ++ pathToURL lpath)%string) licenses ++ ["/"])%list.
Proof.
  unfold appHandler.
  destruct (template_ParseFS e) as [tmpl|err]; [|discriminate].
  destruct (fs_Sub e) as [public|err]; [|discriminate].
  destruct (fs_Glob e) as [licenses|err]; [|discriminate].
  destruct (registerLicenses licenses e tmpl [] []) as [[mux' sup]|err] eqn:Hreg;
    [|discriminate].
  intros [= <-].
  pose proof (registerLicenses_inv _ _ _ _ _ _ Hreg) as Hall.
  rewrite (registerLicenses_ready _ _ _ _ _ Hall) in Hreg.
  injection Hreg as <- <-. cbn [app].
  exists tmpl, public, licenses. repeat (split; [reflexivity|]).
  unfold Handle. rewrite List.map_app, List.map_map. reflexivity.
Qed.

(** Two licenses. *)
Lemma appHandler_routes_example :
  exists mux, appHandler twoLicenses = inl mux /\
    List.map fst mux = ["GET /apache-2.0"; "GET /mit"; "/"].
Proof.
  eexists. split; [reflexivity|].
  destruct (appHandler_routes twoLicenses _ eq_refl)
    as (tmpl & public & licenses & _ & _ & Hglob & _ & Hpatterns).
  injection Hglob as <-. exact Hpatterns.
Defined.

(** X12: what a return of [appHandler] tells.  When [appHandler] returns
    a handler and no error, the templates parsed, the public tree and the
    glob of the licenses were obtained, and every license file of the glob
    could be read and rendered with [license.html.tmpl]; when it returns
    an error, one of these failed.  Nothing else (the rendering of the
    index page in particular) makes it return an error.  (A panic of
    [mux.Handle] on a conflicting or malformed pattern is neither
    return.) *)
Theorem appHandler_return_sound `{GoLibrary} (e : Embedded) (res : ServeMux + error) :
  appHandler e = res ->
  startupReady e = match res with inl _ => true | inr _ => false end.
Proof.
  intros <-. unfold appHandler, startupReady.
  destruct (template_ParseFS e) as [tmpl|err]; [|reflexivity].
  destruct (fs_Sub e) as [public|err]; [|reflexivity].
  destruct (fs_Glob e) as [licenses|err]; [|reflexivity].
  destruct (forallb (licenseReady e tmpl) licenses) eqn:Hall.
  - now rewrite (registerLicenses_ready _ _ _ _ _ Hall).
  - destruct (registerLicenses licenses e tmpl [] []) as [[mux' sup]|err] eqn:Hreg;
      [|reflexivity].
    rewrite (registerLicenses_inv _ _ _ _ _ _ Hreg) in Hall. discriminate.
Qed.

(** A start-up that returns a handler and one that returns an error. *)
Lemma appHandler_return_sound_example :
  (exists mux, appHandler twoLicenses = inl mux /\ startupReady twoLicenses = true) /\
  (exists err, appHandler brokenLicenses = inr err /\ startupReady brokenLicenses = false).
Proof.
  split.
  - eexists. split; [reflexivity|].
    apply (appHandler_return_sound twoLicenses _ eq_refl).
  - eexists. split; [reflexivity|].
    apply (appHandler_return_sound brokenLicenses _ eq_refl).
Defined.


(** * Further properties of the titles and the URLs *)

Lemma string_app_cons (c : byte) (a b : string) :
  (String c a ++ b)%string = String c (a ++ b).
Proof. reflexivity. Qed.

Lemma string_app_nil_l (b : string) : ("" ++ b)%string = b.
Proof. reflexivity. Qed.

Lemma string_app_nil_r (s : string) : (s ++ "")%string = s.
Proof.
  induction s as [|c s IH]; [reflexivity|]. now rewrite string_app_cons, IH.
Qed.

Lemma string_rev_app_spec (s : string) : forall acc,
  string_rev_app s acc = (string_rev s ++ acc)%string.
Proof.
  unfold string_rev. induction s as [|c s IH]; intros acc; simpl; [reflexivity|].
  rewrite IH, (IH (String c EmptyString)), string_app_assoc.
  now rewrite string_app_cons, string_app_nil_l.
Qed.

Lemma string_rev_cons (c : byte) (s : string) :
  string_rev (String c s) = (string_rev s ++ String c EmptyString)%string.
Proof. unfold string_rev at 1. simpl. apply string_rev_app_spec. Qed.

Lemma string_rev_append (a b : string) :
  string_rev (a ++ b) = (string_rev b ++ string_rev a)%string.
Proof.
  induction a as [|c a IH].
  - rewrite string_app_nil_l. symmetry. apply string_app_nil_r.
  - rewrite string_app_cons, !string_rev_cons, IH, string_app_assoc. reflexivity.
Qed.

Lemma string_rev_involutive (s : string) : string_rev (string_rev s) = s.
Proof.
  induction s as [|c s IH]; [reflexivity|].
  rewrite string_rev_cons, string_rev_append, IH. reflexivity.
Qed.

Lemma string_forallb_app (p : byte -> bool) (a b : string) :
  string_forallb p (a ++ b) = string_forallb p a && string_forallb p b.
Proof.
  induction a as [|c a IH]; [reflexivity|].
  rewrite string_app_cons. simpl. now rewrite IH, andb_assoc.
Qed.

Lemma string_forallb_rev (p : byte -> bool) (s : string) :
  string_forallb p (string_rev s) = string_forallb p s.
Proof.
  induction s as [|c s IH]; [reflexivity|].
  rewrite string_rev_cons, string_forallb_app, IH. simpl.
  rewrite andb_true_r. apply andb_comm.
Qed.

Lemma noByte_forallb (c : byte) (s : string) :
  noByte c s = string_forallb (fun d => negb (Ascii.eqb d c)) s.
Proof. induction s as [|d s IH]; simpl; [reflexivity|]. now rewrite IH. Qed.

Lemma noByte_rev (c : byte) (s : string) : noByte c (string_rev s) = noByte c s.
Proof. rewrite !noByte_forallb. apply string_forallb_rev. Qed.

Lemma noByte_app (c : byte) (a b : string) :
  noByte c (a ++ b) = noByte c a && noByte c b.
Proof. rewrite !noByte_forallb. apply string_forallb_app. Qed.

Lemma string_forallb_take (p : byte -> bool) (n : nat) : forall s,
  string_forallb p s = true -> string_forallb p (string_take n s) = true.
Proof.
  induction n as [|n IH]; intros [|c s]; simpl; auto.
  intros Hs. apply andb_prop in Hs as [Hc Hs]. now rewrite Hc, IH.
Qed.

Lemma string_take_app (a b : string) : string_take (String.length a) (a ++ b) = a.
Proof.
  induction a as [|c a IH]; [now destruct b|].
  rewrite string_app_cons. simpl. now rewrite IH.
Qed.

Lemma string_drop_app (a b : string) : string_drop (String.length a) (a ++ b) = b.
Proof.
  induction a as [|c a IH]; [reflexivity|]. rewrite string_app_cons. exact IH.
Qed.

Lemma string_length_app (a b : string) :
  String.length (a ++ b) = (String.length a + String.length b)%nat.
Proof.
  induction a as [|c a IH]; [reflexivity|]. rewrite string_app_cons. simpl.
  now rewrite IH.
Qed.

(** The last element of a path that ends in a file name. *)
Lemma dropTrailingSlashes_file (r rest : string) :
  noByte "/" r = true -> r <> EmptyString ->
  path.dropTrailingSlashes (r ++ rest) = (r ++ rest)%string.
Proof.
  destruct r as [|c r]; [congruence|]. rewrite string_app_cons. simpl. intros Hr _.
  apply andb_prop in Hr as [Hc _]. apply negb_true_iff in Hc. now rewrite Hc.
Qed.

Lemma lastElement_file (r rest : string) :
  noByte "/" r = true ->
  path.lastElement (r ++ String "/" rest) = r.
Proof.
  induction r as [|c r IH]; intros Hr.
  - rewrite string_app_nil_l. simpl. reflexivity.
  - rewrite string_app_cons. simpl in Hr |- *.
    apply andb_prop in Hr as [Hc Hr]. apply negb_true_iff in Hc.
    now rewrite Hc, IH.
Qed.

Lemma lastElement_noByte (r : string) : noByte "/" (path.lastElement r) = true.
Proof.
  induction r as [|c r IH]; simpl; [reflexivity|].
  destruct (Ascii.eqb c "/") eqn:Hc; simpl; [reflexivity|]. now rewrite Hc.
Qed.

Lemma extLoop_file (x : string) : forall rest acc,
  noByte "/" x = true -> noByte "." x = true ->
  path.extLoop (x ++ String "." rest) acc = String "." (string_rev x ++ acc).
Proof.
  induction x as [|c x IH]; intros rest acc Hs Hd.
  - reflexivity.
  - rewrite string_app_cons. simpl in Hs, Hd |- *.
    apply andb_prop in Hs as [Hc Hs]. apply andb_prop in Hd as [Hc' Hd].
    apply negb_true_iff in Hc, Hc'. rewrite Hc, Hc', IH by assumption.
    now rewrite string_rev_cons, string_app_assoc.
Qed.

Lemma eqb_app_nonempty (a : string) (c : byte) (b : string) :
  ((a ++ String c b) =? "")%string = false.
Proof. now destruct a. Qed.

Lemma TrimSuffix_app (a b : string) : TrimSuffix (a ++ b) b = a.
Proof.
  unfold TrimSuffix. rewrite string_length_app.
  replace (String.length a + String.length b - String.length b)%nat
    with (String.length a) by lia.
  rewrite string_drop_app, string_take_app, String.eqb_refl.
  replace (String.length b <=? String.length a + String.length b)%nat with true;
    [reflexivity|].
  symmetry. apply Nat.leb_le. lia.
Qed.

(** X13: a path made of a directory, a file name and an extension.  When
    the name holds no slash and the extension holds neither a slash nor a
    dot, the title is the name with directory and extension taken off,
    and the URL is a slash followed by the name in lower case. *)
Theorem pathToTitle_of_file (dir name ext : string) :
  noByte "/" name = true -> noByte "/" ext = true -> noByte "." ext = true ->
  pathToTitle (dir ++ "/" ++ name ++ "." ++ ext) = name /\
  pathToURL (dir ++ "/" ++ name ++ "." ++ ext) = ("/" ++ strings.ToLower name)%string.
Proof.
  intros Hname Hext Hdot.
  assert (Htitle : pathToTitle (dir ++ "/" ++ name ++ "." ++ ext) = name).
  { unfold pathToTitle.
    set (file := (name ++ "." ++ ext)%string).
    assert (Hfile : noByte "/" (string_rev file) = true).
    { rewrite noByte_rev. unfold file.
      change ("." ++ ext)%string with (String "."%char ext).
      rewrite noByte_app, Hname. simpl. exact Hext. }
    assert (Hne : string_rev file <> EmptyString).
    { unfold file. change ("." ++ ext)%string with (String "."%char ext).
      rewrite string_rev_append, string_rev_cons.
      destruct (string_rev ext); discriminate. }
    assert (Hrev : string_rev (dir ++ "/" ++ file)
                   = (string_rev file ++ String "/" (string_rev dir))%string).
    { change ("/" ++ file)%string with (String "/"%char file).
      rewrite string_rev_append, string_rev_cons, string_app_assoc. reflexivity. }
    assert (Hbase : path.Base (dir ++ "/" ++ file) = file).
    { unfold path.Base.
      change ("/" ++ file)%string with (String "/"%char file) at 1.
      rewrite eqb_app_nonempty, Hrev.
      rewrite (dropTrailingSlashes_file _ _ Hfile Hne).
      rewrite (lastElement_file _ _ Hfile), string_rev_involutive.
      unfold file at 1. change ("." ++ ext)%string with (String "."%char ext).
      now rewrite eqb_app_nonempty. }
    assert (Hext' : path.Ext (dir ++ "/" ++ file) = String "." ext).
    { unfold path.Ext. rewrite Hrev. unfold file.
      change ("." ++ ext)%string with (String "."%char ext).
      rewrite string_rev_append, string_rev_cons, !string_app_assoc.
      change (String "." "" ++ ?X)%string with (String "."%char X).
      rewrite extLoop_file by (rewrite noByte_rev; assumption).
      now rewrite string_rev_involutive, string_app_nil_r. }
    rewrite Hbase, Hext'. apply TrimSuffix_app. }
  split; [exact Htitle|]. unfold pathToURL. now rewrite Htitle.
Qed.

(** [licenses/Apache-2.0.txt] is served under [/apache-2.0]. *)
Lemma pathToTitle_of_file_example :
  pathToTitle ("licenses" ++ "/" ++ "Apache-2.0" ++ "." ++ "txt") = "Apache-2.0" /\
  pathToURL ("licenses" ++ "/" ++ "Apache-2.0" ++ "." ++ "txt") = "/apache-2.0".
Proof.
  apply (pathToTitle_of_file "licenses" "Apache-2.0" "txt"); reflexivity.
Defined.


Lemma byte_val_of (z : Z) : byte_val (byte_of z) = (z mod 256)%Z.
Proof.
  unfold byte_val, byte_of.
  rewrite N_ascii_embedding; [apply Z2N.id; apply Z.mod_pos_bound; lia|].
  pose proof (Z.mod_pos_bound z 256 ltac:(lia)) as Hz. lia.
Qed.

Lemma lowerByte_val (c : byte) :
  byte_val (strings.lowerByte c)
  = if ((65 <=? byte_val c) && (byte_val c <=? 90))%Z
    then (byte_val c + 32)%Z else byte_val c.
Proof.
  unfold strings.lowerByte. cbv zeta.
  destruct ((65 <=? byte_val c) && (byte_val c <=? 90))%Z eqn:Hc; [|reflexivity].
  rewrite byte_val_of. apply Z.mod_small. lia.
Qed.

Lemma string_forallb_impl (p q : byte -> bool) (s : string) :
  (forall c, p c = true -> q c = true) ->
  string_forallb p s = true -> string_forallb q s = true.
Proof.
  intros Hpq. induction s as [|c s IH]; simpl; [reflexivity|].
  intros Hs. apply andb_prop in Hs as [Hc Hs]. now rewrite (Hpq c Hc), IH.
Qed.

Lemma string_forallb_mapBytes (p : byte -> bool) (f : byte -> byte) (s : string) :
  string_forallb p (strings.mapBytes f s) = string_forallb (fun c => p (f c)) s.
Proof. induction s as [|c s IH]; simpl; [reflexivity|]. now rewrite IH. Qed.

Lemma dropTrailingSlashes_forallb (p : byte -> bool) (r : string) :
  string_forallb p r = true -> string_forallb p (path.dropTrailingSlashes r) = true.
Proof.
  induction r as [|c r IH]; simpl; [reflexivity|].
  intros Hr. destruct (Ascii.eqb c "/").
  - apply andb_prop in Hr as [_ Hr]. now apply IH.
  - exact Hr.
Qed.

Lemma lastElement_forallb (p : byte -> bool) (r : string) :
  string_forallb p r = true -> string_forallb p (path.lastElement r) = true.
Proof.
  induction r as [|c r IH]; simpl; [reflexivity|].
  intros Hr. apply andb_prop in Hr as [Hc Hr].
  destruct (Ascii.eqb c "/"); simpl; [reflexivity|]. now rewrite Hc, IH.
Qed.

(** [path.Base] returns a single element: it holds no slash, unless it is
    the root [/]. *)
Lemma Base_single_element (p : string) :
  path.Base p = "/" \/ noByte "/" (path.Base p) = true.
Proof.
  unfold path.Base. destruct (p =? "")%string; [right; reflexivity|].
  cbv zeta. destruct (string_rev _ =? "")%string; [now left|].
  right. rewrite noByte_rev. apply lastElement_noByte.
Qed.

Lemma Base_forallb (q : byte -> bool) (p : string) :
  q "."%char = true -> q "/"%char = true ->
  string_forallb q p = true -> string_forallb q (path.Base p) = true.
Proof.
  intros Hdot Hslash Hp. unfold path.Base.
  destruct (p =? "")%string; [simpl; now rewrite Hdot|].
  cbv zeta. destruct (string_rev _ =? "")%string; [simpl; now rewrite Hslash|].
  rewrite string_forallb_rev.
  apply lastElement_forallb, dropTrailingSlashes_forallb.
  now rewrite string_forallb_rev.
Qed.

Lemma TrimSuffix_forallb (q : byte -> bool) (s suffix : string) :
  string_forallb q s = true -> string_forallb q (TrimSuffix s suffix) = true.
Proof.
  intros Hs. unfold TrimSuffix.
  destruct (_ && _); [now apply string_forallb_take|exact Hs].
Qed.

(** X14: the URL of a license is one lower-case path segment.  For a path
    of ASCII bytes that does not consist of slashes only, [pathToURL]
    returns a slash followed by a string that holds no further slash and
    no upper-case letter. *)
Theorem pathToURL_shape (lpath : string) :
  strings.isASCII lpath = true ->
  path.Base lpath <> "/" ->
  exists u,
    pathToURL lpath = String "/" u /\
    noByte "/" u = true /\
    string_forallb (fun c => negb ((65 <=? byte_val c) && (byte_val c <=? 90))%Z) u
    = true.
Proof.
  intros Hascii Hbase.
  assert (Htitle : strings.isASCII (pathToTitle lpath) = true).
  { unfold pathToTitle, strings.isASCII.
    apply TrimSuffix_forallb, Base_forallb; [reflexivity..|exact Hascii]. }
  assert (Hslash : noByte "/" (pathToTitle lpath) = true).
  { unfold pathToTitle. rewrite noByte_forallb.
    apply TrimSuffix_forallb. rewrite <- noByte_forallb.
    destruct (Base_single_element lpath); [contradiction|assumption]. }
  exists (strings.ToLower (pathToTitle lpath)).
  split; [reflexivity|].
  unfold strings.ToLower. rewrite Htitle.
  split.
  - rewrite noByte_forallb, string_forallb_mapBytes.
    rewrite noByte_forallb in Hslash.
    apply string_forallb_impl with (2 := Hslash).
    intros c Hc. apply negb_true_iff, Ascii.eqb_neq in Hc.
    apply negb_true_iff, Ascii.eqb_neq. intros Hl. apply Hc.
    assert (Hv : byte_val (strings.lowerByte c) = 47%Z) by now rewrite Hl.
    rewrite lowerByte_val in Hv.
    destruct ((65 <=? byte_val c) && (byte_val c <=? 90))%Z eqn:Hup.
    + apply andb_prop in Hup as [H1 H2]. lia.
    + rewrite <- (byte_of_val c), Hv. reflexivity.
  - rewrite string_forallb_mapBytes.
    apply string_forallb_impl with (2 := Htitle).
    intros c _. rewrite lowerByte_val.
    destruct ((65 <=? byte_val c) && (byte_val c <=? 90))%Z eqn:Hup.
    + apply andb_prop in Hup as [H1 H2]. apply negb_true_iff, andb_false_iff.
      right. apply Z.leb_gt. lia.
    + now rewrite Hup.
Qed.

(** A path without extension and with a trailing slash. *)
Lemma pathToURL_shape_example :
  exists u,
    pathToURL "licenses/GPL/" = String "/" u /\
    noByte "/" u = true /\
    string_forallb (fun c => negb ((65 <=? byte_val c) && (byte_val c <=? 90))%Z) u
    = true.
Proof.
  apply (pathToURL_shape "licenses/GPL/"); [reflexivity|].
  vm_compute. discriminate.
Defined.


(** * Further properties of the JSON rendering *)

Lemma hexDigit_safe (z : Z) : htmlSafeByte (json.hexDigit z) = true.
Proof.
  unfold json.hexDigit. generalize (Z.to_nat z). intros n.
  do 17 (destruct n as [|n]; [reflexivity|]). reflexivity.
Qed.

Lemma escapeByte_safe (c : byte) :
  string_forallb htmlSafeByte (json.escapeByte c) = true.
Proof.
  unfold json.escapeByte. cbv zeta.
  destruct ((byte_val c =? 92) || (byte_val c =? 34))%Z eqn:Hq.
  - assert (Hc : htmlSafeByte c = true).
    { unfold htmlSafeByte. cbv zeta.
      apply orb_true_iff in Hq as [Hq|Hq]; apply Z.eqb_eq in Hq; rewrite Hq;
        reflexivity. }
    unfold json.escape. simpl. now rewrite Hc.
  - repeat match goal with
           | |- context [if ?b then _ else _] => destruct b; [reflexivity|]
           end.
    unfold json.escape.
    change ("u00" ++ ?X)%string with (String "u" (String "0" (String "0" X))).
    simpl. now rewrite !hexDigit_safe.
Qed.

(** The bytes of a sequence that [DecodeRuneInString] consumes after a
    first byte that is not ASCII are not ASCII either. *)
Lemma decode_bytes_high (c0 : byte) (s1 : string) :
  (128 <= byte_val c0)%Z ->
  string_forallb (fun c => (128 <=? byte_val c)%Z)
    (string_take (snd (utf8.DecodeRuneInString (String c0 s1))) (String c0 s1)) = true.
Proof.
  intros Hc0.
  assert (H0 : (128 <=? byte_val c0)%Z = true) by now apply Z.leb_le.
  assert (Hone : string_forallb (fun c => (128 <=? byte_val c)%Z)
                   (string_take 1 (String c0 s1)) = true).
  { simpl. rewrite H0. now destruct s1. }
  unfold utf8.DecodeRuneInString, utf8.RuneSelf.
  destruct (byte_val c0 <? 128)%Z; [exact Hone|].
  destruct ((byte_val c0 <? 194) || (244 <? byte_val c0))%Z; [exact Hone|].
  assert (Hlo : (128 <= fst (utf8.acceptRange (byte_val c0)))%Z).
  { unfold utf8.acceptRange.
    repeat match goal with
           | |- context [if ?b then _ else _] => destruct b
           end; simpl; lia. }
  destruct (utf8.acceptRange (byte_val c0)) as [lo hi]. simpl in Hlo.
  destruct s1 as [|c1 s2]; [exact Hone|].
  assert (H1 : forall t, (t <? lo)%Z || (hi <? t)%Z = false -> (128 <=? t)%Z = true).
  { intros t Hr. apply orb_false_iff in Hr as [Hr _].
    apply Z.ltb_ge in Hr. apply Z.leb_le. lia. }
  assert (Hcont : forall b, negb (utf8.isCont b) = false -> (128 <=? b)%Z = true).
  { intros b Hb. apply negb_false_iff in Hb. unfold utf8.isCont in Hb.
    now apply andb_prop in Hb as [Hb _]. }
  destruct (byte_val c0 <? 224)%Z.
  { destruct ((byte_val c1 <? lo) || (hi <? byte_val c1))%Z eqn:E1; [exact Hone|].
    simpl. rewrite H0, (H1 _ E1). now destruct s2. }
  destruct s2 as [|c2 s3]; [exact Hone|].
  destruct (byte_val c0 <? 240)%Z.
  { destruct ((byte_val c1 <? lo) || (hi <? byte_val c1))%Z eqn:E1; [exact Hone|].
    destruct (negb (utf8.isCont (byte_val c2))) eqn:E2; [exact Hone|].
    simpl. rewrite H0, (H1 _ E1), (Hcont _ E2). now destruct s3. }
  destruct s3 as [|c3 s4]; [exact Hone|].
  destruct ((byte_val c1 <? lo) || (hi <? byte_val c1))%Z eqn:E1; [exact Hone|].
  destruct (negb (utf8.isCont (byte_val c2))) eqn:E2; [exact Hone|].
  destruct (negb (utf8.isCont (byte_val c3))) eqn:E3; [exact Hone|].
  simpl. rewrite H0, (H1 _ E1), (Hcont _ E2), (Hcont _ E3). now destruct s4.
Qed.

Lemma appendBody_safe (n : nat) : forall s,
  string_forallb htmlSafeByte (json.appendBody n s) = true.
Proof.
  induction n as [|n IH]; intros s; [now destruct s|].
  destruct s as [|c s1]; [reflexivity|].
  cbn [json.appendBody]. cbv zeta.
  destruct (byte_val c <? utf8.RuneSelf)%Z eqn:Hascii.
  - rewrite string_forallb_app, IH, andb_true_r.
    destruct (json.htmlSafeSet (byte_val c)) eqn:Hsafe.
    + simpl. rewrite andb_true_r. unfold htmlSafeByte, json.htmlSafeSet in *.
      cbv zeta. apply andb_prop in Hsafe as [H32 Hnot]. rewrite H32. simpl.
      apply negb_true_iff in Hnot. apply negb_true_iff.
      repeat (apply orb_false_iff in Hnot as [Hnot ?]).
      rewrite !orb_false_iff. auto.
    + apply escapeByte_safe.
  - apply Z.ltb_ge in Hascii. unfold utf8.RuneSelf in Hascii.
    pose proof (decode_bytes_high c s1 Hascii) as Hhigh.
    destruct (utf8.DecodeRuneInString (String c s1)) as [r size].
    cbn [snd] in Hhigh.
    destruct ((r =? utf8.RuneError)%Z && (size =? 1)%nat).
    + rewrite string_forallb_app, IH. reflexivity.
    + destruct ((r =? 8232) || (r =? 8233))%Z.
      * rewrite string_forallb_app, IH, andb_true_r.
        unfold json.escape.
        change ("u202" ++ ?X)%string
          with (String "u" (String "2" (String "0" (String "2" X)))).
        simpl. now rewrite hexDigit_safe.
      * rewrite string_forallb_app, IH, andb_true_r.
        apply string_forallb_impl with (2 := Hhigh).
        intros d Hd. apply Z.leb_le in Hd. unfold htmlSafeByte. cbv zeta.
        apply andb_true_iff. split; [apply Z.leb_le; lia|].
        apply negb_true_iff.
        rewrite !orb_false_iff. repeat split; apply Z.eqb_neq; lia.
Qed.

Lemma appendString_safe (s : string) :
  string_forallb htmlSafeByte (json.appendString s) = true.
Proof.
  unfold json.appendString.
  change (string_forallb htmlSafeByte (String quote ?X))
    with (htmlSafeByte quote && string_forallb htmlSafeByte X).
  now rewrite string_forallb_app, appendBody_safe.
Qed.

(** X15: the JSON rendering of a license holds no control character and
    none of the bytes [<], [>] and [&], whatever the title, the text and
    the URL hold: those bytes are written as escapes. *)
Theorem toJSON_html_safe (l : LicenseData) :
  string_forallb htmlSafeByte (fst (toJSON l)) = true.
Proof.
  unfold toJSON, json.Marshal. cbn [fst].
  repeat (rewrite string_forallb_app; apply andb_true_iff; split);
    try apply appendString_safe; reflexivity.
Qed.

(** X16: licenses whose fields are valid UTF-8 have different JSON
    renderings as soon as they differ. *)
Theorem toJSON_injective (l1 l2 : LicenseData) :
  ValidString (Title l1) = true -> ValidString (Text l1) = true ->
  ValidString (URL l1) = true ->
  ValidString (Title l2) = true -> ValidString (Text l2) = true ->
  ValidString (URL l2) = true ->
  l1 <> l2 -> fst (toJSON l1) <> fst (toJSON l2).
Proof.
  intros Ht1 Hx1 Hu1 Ht2 Hx2 Hu2 Hne Heq. apply Hne.
  apply (f_equal jsondec.decodeObject) in Heq.
  rewrite !decodeObject_toJSON in Heq.
  rewrite !toValidUTF8_valid in Heq by assumption.
  destruct l1, l2. simpl in *. congruence.
Qed.

(** Two licenses that differ in a letter of the text. *)
Lemma toJSON_injective_example :
  fst (toJSON {| Title := "MIT"; Text := "MIT License text"; URL := "/mit" |})
  <> fst (toJSON {| Title := "MIT"; Text := "MIT license text"; URL := "/mit" |}).
Proof.
  apply (toJSON_injective
           {| Title := "MIT"; Text := "MIT License text"; URL := "/mit" |}
           {| Title := "MIT"; Text := "MIT license text"; URL := "/mit" |});
    try reflexivity.
  discriminate.
Defined.


(** * Further properties: the listening address and the logging *)


Lemma fold_call_logging {W : Type} `{Writer W} (cs : list WriterCall) :
  forall l : loggingResponseWriter W,
  fold_left call cs l
  = {| ResponseWriter := fold_left call cs (ResponseWriter l);
       code := lastCode cs (code l) |}.
Proof.
  induction cs as [|c cs IH]; intros l; [now destruct l|].
  cbn [fold_left lastCode]. rewrite IH. destruct c; reflexivity.
Qed.

(** X18: logging does not change what a handler does to the response.
    Whatever calls a handler makes on the writer it is given, under
    [withLogging] the writer of the server receives the same calls in the
    same order, and one message is logged after them: the method, the
    argument of the last [WriteHeader] call (200 when the handler made
    none) and the URL. *)
Theorem withLogging_forwards (URL_String : http.Request -> string)
    (cs : http.Request -> list WriterCall)
    (W : Type) `{Writer W} (r : http.Request) (w : W) (logged : list string) :
  withLogging URL_String (calls cs) W r w logged
  = (calls cs W _ r w,
     (logged ++ [logMessage (http.Method r) (lastCode (cs r) 200) (URL_String r)])%list).
Proof.
  unfold withLogging, calls. cbv zeta. now rewrite fold_call_logging.
Qed.

Lemma licenseHandlerOn_recorder `{GoLibrary} (plainData htmlData jsonData : string)
    (r : http.Request) (w : http.ResponseWriter) :
  licenseHandlerOn plainData htmlData jsonData http.ResponseWriter _ r w
  = licenseHandler plainData htmlData jsonData r w.
Proof. reflexivity. Qed.

(** X19: a license handler under [withLogging] answers as it does without
    it, and logs one message for the request: the method, the code 200
    and the URL. *)
Theorem withLogging_license `{GoLibrary} (URL_String : http.Request -> string)
    (plainData htmlData jsonData : string)
    (r : http.Request) (w : http.ResponseWriter) (logged : list string) :
  withLogging URL_String (licenseHandlerOn plainData htmlData jsonData)
    http.ResponseWriter r w logged
  = (licenseHandler plainData htmlData jsonData r w,
     (logged ++ [(http.Method r ++ " [200] " ++ URL_String r)%string])%list).
Proof.
  unfold withLogging, licenseHandlerOn, licenseHandler. cbv zeta.
  destruct (mostAcceptable_closed (http.Header_Get (http.Header r) "Accept"))
    as [-> | [-> | ->]]; reflexivity.
Qed.


(** X20: the order of the tokens matters for ties only.  With a stable
    sort and no NaN weight, two headers whose candidates are the same up
    to their order negotiate the same type, provided that supported
    candidates of equal weight map to the same type. *)
Theorem order_matters_for_ties_only `{GoLibrary} (accept1 accept2 : string) :
  SortStable -> SortPermutes ->
  noNaN (candidates accept1) ->
  Permutation (candidates accept1) (candidates accept2) ->
  (forall x y, In x (candidates accept1) -> In y (candidates accept1) ->
     supported x = true -> supported y = true ->
     f64_gt (RelativeWeight x) (RelativeWeight y) = false ->
     f64_gt (RelativeWeight y) (RelativeWeight x) = false ->
     mapped x = mapped y) ->
  mostAcceptable accept1 = mostAcceptable accept2.
Proof.
  intros Hst Hperm Hnan Hp Htie.
  assert (Hnan2 : noNaN (candidates accept2)).
  { unfold noNaN in *. rewrite List.Forall_forall in Hnan |- *.
    intros a Ha. apply Hnan. now apply (Permutation_in _ (Permutation_sym Hp)). }
  rewrite !mostAcceptable_winner.
  destruct (winner accept1) as [m1|] eqn:Hw1.
  - pose proof (winner_In _ _ Hperm Hw1) as Hin1.
    pose proof (winner_supported _ _ Hw1) as Hs1.
    destruct (winner_exists accept2 m1 Hperm (Permutation_in _ Hp Hin1) Hs1)
      as [m2 Hw2].
    rewrite Hw2.
    pose proof (winner_In _ _ Hperm Hw2) as Hin2.
    pose proof (winner_supported _ _ Hw2) as Hs2.
    apply (Permutation_in _ (Permutation_sym Hp)) in Hin2.
    rewrite (Htie m1 m2 Hin1 Hin2 Hs1 Hs2); [reflexivity| |].
    + apply (winner_maximal accept2 m2 m1 Hst Hnan2 Hw2);
        [now apply (Permutation_in _ Hp)|assumption].
    + now apply (winner_maximal accept1 m1 m2 Hst Hnan Hw1).
  - destruct (winner accept2) as [m2|] eqn:Hw2; [|reflexivity].
    pose proof (winner_In _ _ Hperm Hw2) as Hin2.
    pose proof (winner_supported _ _ Hw2) as Hs2.
    apply (Permutation_in _ (Permutation_sym Hp)) in Hin2.
    destruct (winner_exists accept1 m2 Hperm Hin2 Hs2) as [m1 Hm1]. congruence.
Qed.

(** The two orders of a header without ties. *)
Lemma order_matters_for_ties_only_example :
  mostAcceptable "text/plain;q=0.8, text/html;q=0.9"
  = mostAcceptable "text/html;q=0.9, text/plain;q=0.8".
Proof.
  assert (Hc : exists p h,
            candidates "text/plain;q=0.8, text/html;q=0.9" = [p; h] /\
            candidates "text/html;q=0.9, text/plain;q=0.8" = [h; p] /\
            is_nan (RelativeWeight p) = false /\ is_nan (RelativeWeight h) = false /\
            f64_gt (RelativeWeight h) (RelativeWeight p) = true).
  { eexists _, _. split; [vm_compute; reflexivity|]. repeat split. }
  destruct Hc as (p & h & Hc1 & Hc2 & Hp & Hh & Hgt).
  apply (order_matters_for_ties_only _ _ go_SortStable go_SortPermutes).
  - rewrite Hc1. repeat constructor; assumption.
  - rewrite Hc1, Hc2. apply perm_swap.
  - rewrite Hc1. intros x y [<-|[<-|[]]] [<-|[<-|[]]] _ _ H1 H2;
      try reflexivity; congruence.
Defined.

Lemma string_take_length_le (n : nat) (s : string) :
  (String.length (string_take n s) + String.length (string_drop n s)
   = String.length s)%nat.
Proof. rewrite <- string_length_app. now rewrite string_take_drop. Qed.

(** Making a string valid never shortens it, and lengthens it when it was
    not valid. *)
Lemma coerced_length (n : nat) : forall s,
  (String.length s <= n)%nat ->
  (String.length s <= String.length (coerced n s))%nat /\
  (validLoop n s = false -> (String.length s < String.length (coerced n s))%nat).
Proof.
  induction n as [|n IH]; intros s Hlen.
  - destruct s; simpl in *; [|lia]. split; [lia|discriminate].
  - destruct s as [|c s1]; [simpl; split; [lia|discriminate]|].
    cbn [validLoop coerced].
    pose proof (decode_size_positive c s1) as Hpos.
    pose proof (string_take_length_le
                  (snd (utf8.DecodeRuneInString (String c s1))) (String c s1)) as Hsplit.
    destruct (utf8.DecodeRuneInString (String c s1)) as [r size].
    cbn [snd] in *.
    assert (Hfuel : (String.length (string_drop size (String c s1)) <= n)%nat).
    { rewrite string_drop_length. simpl in *. lia. }
    destruct (IH _ Hfuel) as [Hle Hlt].
    destruct ((r =? utf8.RuneError)%Z && (size =? 1)%nat) eqn:Hinv.
    + apply andb_prop in Hinv as [_ Hone]. apply Nat.eqb_eq in Hone. subst size.
      rewrite string_length_app.
      change (String.length (utf8.EncodeRune utf8.RuneError)) with 3%nat.
      simpl in *. split; [lia|]. intros _. lia.
    + rewrite string_length_app. split; [lia|].
      intros Hv. specialize (Hlt Hv). lia.
Qed.

Lemma toValidUTF8_fixed (s : string) : toValidUTF8 s = s <-> ValidString s = true.
Proof.
  split; [|apply toValidUTF8_valid].
  unfold toValidUTF8, ValidString. intros Heq.
  destruct (validLoop (String.length s) s) eqn:Hv; [reflexivity|].
  destruct (coerced_length (String.length s) s (Nat.le_refl _)) as [_ Hlt].
  specialize (Hlt Hv). rewrite Heq in Hlt. lia.
Qed.

(** X21: decoding the JSON rendering of a license gives back its title,
    text and URL exactly when the three of them are valid UTF-8. *)
Theorem toJSON_round_trip_iff (l : LicenseData) :
  jsondec.decodeObject (fst (toJSON l))
  = Some [("title", Title l); ("content", Text l); ("url", URL l)]
  <-> ValidString (Title l) && ValidString (Text l) && ValidString (URL l) = true.
Proof.
  rewrite decodeObject_toJSON, !andb_true_iff, <- !toValidUTF8_fixed. split.
  - intros [= -> -> ->]. auto.
  - intros [[-> ->] ->]. reflexivity.
Qed.


Lemma handlerFor_licenseError `{GoLibrary} (e : Embedded) (tmpl : Template)
    (lpath : string) :
  licenseReady e tmpl lpath = false ->
  handlerFor lpath (fs_ReadFile e) tmpl = inr (licenseError e tmpl lpath).
Proof.
  unfold licenseReady, handlerFor, licenseError, licenseOf, toHTML.
  destruct (fs_ReadFile e lpath) as [text|err]; [|reflexivity].
  destruct (ExecuteTemplate tmpl _ _) as [html [err|]]; [reflexivity|discriminate].
Qed.

Lemma registerLicenses_error_inv `{GoLibrary} (licenses : list string) :
  forall (e : Embedded) (tmpl : Template) (mux : ServeMux) (sup : list LicenseData)
         (err : error),
  registerLicenses licenses e tmpl mux sup = inr err ->
  exists ready lpath rest,
    licenses = (ready ++ lpath :: rest)%list /\
    forallb (licenseReady e tmpl) ready = true /\
    licenseReady e tmpl lpath = false /\
    err = wrap "could not init handler" (licenseError e tmpl lpath).
Proof.
  induction licenses as [|p licenses IH]; intros e tmpl mux sup err; [discriminate|].
  cbn [registerLicenses].
  destruct (licenseReady e tmpl p) eqn:Hp.
  - rewrite (handlerFor_ready e tmpl p Hp). intros Hreg.
    destruct (IH _ _ _ _ _ Hreg) as (ready & lpath & rest & -> & Hall & Hbad & ->).
    exists (p :: ready), lpath, rest. cbn [forallb]. rewrite Hp, Hall. auto.
  - rewrite (handlerFor_licenseError e tmpl p Hp). intros [= <-].
    exists [], p, licenses. auto.
Qed.

(** X22: the error of a start-up that fails on a license.  When the
    templates parse, the public tree and the glob are obtained and
    [appHandler] returns an error, that error is the one of the first
    license of the glob that cannot be read or rendered, whatever the
    licenses after it do: its read error when the file cannot be read, its
    rendering error otherwise, wrapped in [could not init handler].  (A
    panic of [mux.Handle] on the pattern of an earlier license is not a
    return.) *)
Theorem appHandler_first_failure `{GoLibrary} (e : Embedded) (tmpl : Template)
    (public : http.Handler) (licenses : list string) (err : error) :
  template_ParseFS e = inl tmpl -> fs_Sub e = inl public ->
  fs_Glob e = inl licenses ->
  appHandler e = inr err ->
  exists ready lpath rest,
    licenses = (ready ++ lpath :: rest)%list /\
    forallb (licenseReady e tmpl) ready = true /\
    licenseReady e tmpl lpath = false /\
    err = ("could not init handler: " ++
           match fs_ReadFile e lpath with
           | inr err => "could not read license: " ++ err
           | inl _ =>
               match snd (ExecuteTemplate tmpl "license.html.tmpl"
                            (OneLicense (licenseOf e lpath))) with
               | Some err =>
                   "could not render HTML: could not render html template: " ++ err
               | None => EmptyString
               end
           end)%string.
Proof.
  intros Ht Hs Hg. unfold appHandler. rewrite Ht, Hs, Hg.
  destruct (registerLicenses licenses e tmpl [] []) as [[mux' sup]|err'] eqn:Hreg;
    [discriminate|].
  intros [= <-].
  destruct (registerLicenses_error_inv _ _ _ _ _ _ Hreg)
    as (ready & lpath & rest & Hl & Hall & Hbad & ->).
  exists ready, lpath, rest. repeat (split; [assumption|]).
  unfold licenseError, wrap.
  destruct (fs_ReadFile e lpath) as [text|err0]; [|reflexivity].
  destruct (snd (ExecuteTemplate tmpl _ _)) as [err0|]; reflexivity.
Qed.

(** The unreadable second license is reported, not the third, which does
    not render. *)
Lemma appHandler_first_failure_example :
  appHandler brokenLicenses
  = inr "could not init handler: could not read license: permission denied" /\
  exists ready lpath rest,
    ["licenses/MIT.txt"; "licenses/GPL.txt"; "licenses/WTFPL.txt"]
    = (ready ++ lpath :: rest)%list /\
    forallb (licenseReady brokenLicenses failsOnWTFPL) ready = true /\
    licenseReady brokenLicenses failsOnWTFPL lpath = false /\
    "could not init handler: could not read license: permission denied"
    = ("could not init handler: " ++
       match fs_ReadFile brokenLicenses lpath with
       | inr err => "could not read license: " ++ err
       | inl _ =>
           match snd (ExecuteTemplate failsOnWTFPL "license.html.tmpl"
                        (OneLicense (licenseOf brokenLicenses lpath))) with
           | Some err =>
               "could not render HTML: could not render html template: " ++ err
           | None => EmptyString
           end
       end)%string.
Proof.
  split; [reflexivity|].
  apply (appHandler_first_failure brokenLicenses failsOnWTFPL noFiles
           ["licenses/MIT.txt"; "licenses/GPL.txt"; "licenses/WTFPL.txt"]
           "could not init handler: could not read license: permission denied");
    reflexivity.
Defined.

(** ** The JSON rendering is valid UTF-8 *)

Lemma validLoop_fuel (n : nat) : forall m s,
  (String.length s <= n)%nat -> (String.length s <= m)%nat ->
  validLoop n s = validLoop m s.
Proof.
  induction n as [|n IH]; intros m s Hn Hm.
  - destruct s; simpl in Hn; [|lia]. now destruct m.
  - destruct s as [|c s1]; [now destruct m|].
    destruct m as [|m]; [simpl in Hm; lia|].
    cbn [validLoop].
    pose proof (decode_size_positive c s1) as Hpos.
    destruct (utf8.DecodeRuneInString (String c s1)) as [r size].
    destruct ((r =? utf8.RuneError)%Z && (size =? 1)%nat); [reflexivity|].
    cbn [snd] in Hpos.
    apply IH; rewrite string_drop_length; simpl in *; lia.
Qed.

(** The first rune of a string that starts with a valid sequence, and
    what is left after it, do not depend on what follows the string. *)
Lemma decode_append (c : byte) (s1 t : string) (r : Z) (size : nat) :
  utf8.DecodeRuneInString (String c s1) = (r, size) ->
  (r =? utf8.RuneError)%Z && (size =? 1)%nat = false ->
  utf8.DecodeRuneInString (String c (s1 ++ t)) = (r, size) /\
  string_drop size (String c (s1 ++ t)) = (string_drop size (String c s1) ++ t)%string /\
  (size <= String.length (String c s1))%nat.
Proof.
  intros Hdec Hvalid.
  destruct (byte_val c <? utf8.RuneSelf)%Z eqn:Hascii.
  - unfold utf8.DecodeRuneInString in *. rewrite Hascii in *.
    injection Hdec as <- <-. simpl. split; [reflexivity|]. split; [reflexivity|lia].
  - apply Z.ltb_ge in Hascii. unfold utf8.RuneSelf in Hascii.
    destruct (decode_valid c s1 r size Hascii Hdec Hvalid)
      as (cs & tail & Hs1 & Hsize & Hlen & _ & _ & Hprefix).
    subst s1 size. rewrite string_app_assoc. split; [apply Hprefix|].
    assert (Hdrop : forall u, string_drop (S (length cs))
                                (String c (List.fold_right String EmptyString cs ++ u))
                              = u).
    { intros u. simpl. clear. induction cs as [|x cs IHc]; simpl; [reflexivity|].
      exact IHc. }
    rewrite !Hdrop. split; [reflexivity|].
    simpl. rewrite string_length_app.
    assert (Hl : String.length (List.fold_right String EmptyString cs) = length cs).
    { clear. induction cs as [|x cs IHc]; simpl; [reflexivity|]. now rewrite IHc. }
    rewrite Hl. lia.
Qed.

Lemma validLoop_app (n : nat) : forall a b,
  (String.length a <= n)%nat ->
  validLoop n a = true -> ValidString b = true ->
  ValidString (a ++ b) = true.
Proof.
  induction n as [|n IH]; intros a b Hlen Ha Hb.
  - destruct a; simpl in Hlen; [exact Hb|lia].
  - destruct a as [|c a1]; [exact Hb|].
    cbn [validLoop] in Ha.
    destruct (utf8.DecodeRuneInString (String c a1)) as [r size] eqn:Hdec.
    destruct ((r =? utf8.RuneError)%Z && (size =? 1)%nat) eqn:Hinv; [discriminate|].
    destruct (decode_append c a1 b r size Hdec Hinv) as (Hdec' & Hdrop & Hsize).
    pose proof (decode_size_positive c a1) as Hpos. rewrite Hdec in Hpos.
    cbn [snd] in Hpos.
    unfold ValidString. rewrite string_app_cons.
    cbn [String.length validLoop]. rewrite Hdec', Hinv, Hdrop.
    assert (Hfuel : (String.length (string_drop size (String c a1)) <= n)%nat).
    { rewrite string_drop_length. simpl in *. lia. }
    specialize (IH _ b Hfuel Ha Hb). unfold ValidString in IH.
    rewrite <- IH. apply validLoop_fuel; [|lia].
    rewrite !string_length_app, string_drop_length. simpl in *. lia.
Qed.

Lemma ValidString_app (a b : string) :
  ValidString a = true -> ValidString b = true -> ValidString (a ++ b) = true.
Proof. intros Ha Hb. now apply (validLoop_app (String.length a)). Qed.

Lemma ValidString_ascii (s : string) :
  strings.isASCII s = true -> ValidString s = true.
Proof.
  unfold strings.isASCII. induction s as [|c s IH]; [reflexivity|].
  simpl. intros Hs. apply andb_prop in Hs as [Hc Hs].
  change (String c s) with (String c EmptyString ++ s)%string.
  apply ValidString_app; [|now apply IH].
  unfold ValidString. cbn [String.length validLoop].
  unfold utf8.DecodeRuneInString. rewrite Hc.
  replace (byte_val c =? utf8.RuneError)%Z with false; [reflexivity|].
  symmetry. apply Z.eqb_neq. apply Z.ltb_lt in Hc.
  unfold utf8.RuneSelf, utf8.RuneError in *. lia.
Qed.

Lemma hexDigit_ascii (z : Z) : (byte_val (json.hexDigit z) <? utf8.RuneSelf)%Z = true.
Proof.
  unfold json.hexDigit. generalize (Z.to_nat z). intros n.
  do 17 (destruct n as [|n]; [reflexivity|]). reflexivity.
Qed.

Lemma escapeByte_ascii (c : byte) :
  (byte_val c <? utf8.RuneSelf)%Z = true ->
  strings.isASCII (json.escapeByte c) = true.
Proof.
  intros Hc. unfold json.escapeByte, strings.isASCII. cbv zeta.
  destruct ((byte_val c =? 92) || (byte_val c =? 34))%Z.
  - unfold json.escape. simpl. now rewrite Hc.
  - repeat match goal with
           | |- context [if ?b then _ else _] => destruct b; [reflexivity|]
           end.
    unfold json.escape.
    change ("u00" ++ ?X)%string with (String "u" (String "0" (String "0" X))).
    simpl. now rewrite !hexDigit_ascii.
Qed.

Lemma appendBody_valid (n : nat) : forall s, ValidString (json.appendBody n s) = true.
Proof.
  induction n as [|n IH]; intros s; [now destruct s|].
  destruct s as [|c s1]; [reflexivity|].
  cbn [json.appendBody]. cbv zeta.
  destruct (byte_val c <? utf8.RuneSelf)%Z eqn:Hascii.
  - apply ValidString_app; [|apply IH].
    apply ValidString_ascii.
    destruct (json.htmlSafeSet (byte_val c)); [|now apply escapeByte_ascii].
    unfold strings.isASCII. simpl. now rewrite Hascii.
  - destruct (utf8.DecodeRuneInString (String c s1)) as [r size] eqn:Hdec.
    destruct ((r =? utf8.RuneError)%Z && (size =? 1)%nat) eqn:Hinv.
    + apply ValidString_app; [reflexivity|apply IH].
    + destruct ((r =? 8232) || (r =? 8233))%Z.
      * apply ValidString_app; [|apply IH].
        apply ValidString_ascii. unfold json.escape, strings.isASCII.
        change ("u202" ++ ?X)%string
          with (String "u" (String "2" (String "0" (String "2" X)))).
        simpl. now rewrite hexDigit_ascii.
      * apply ValidString_app; [|apply IH].
        apply Z.ltb_ge in Hascii. unfold utf8.RuneSelf in Hascii.
        destruct (decode_valid c s1 r size Hascii Hdec Hinv)
          as (cs & tail & Hs1 & Hsize & Hlen & _ & _ & Hprefix).
        assert (Htake : string_take size (String c s1)
                        = String c (List.fold_right String EmptyString cs)).
        { subst size s1. simpl. f_equal. clear.
          induction cs as [|x cs IHc]; simpl; [now destruct tail|]. now rewrite IHc. }
        rewrite Htake. unfold ValidString. cbn [String.length validLoop].
        specialize (Hprefix EmptyString). rewrite string_app_nil_r in Hprefix.
        rewrite Hprefix, Hinv.
        assert (Hdrop : string_drop size (String c (List.fold_right String EmptyString cs))
                        = EmptyString).
        { subst size. simpl. clear. induction cs as [|x cs IHc]; simpl; auto. }
        rewrite Hdrop. now destruct (String.length _).
Qed.

Lemma appendString_valid (s : string) : ValidString (json.appendString s) = true.
Proof.
  unfold json.appendString.
  change (String quote ?X) with (String quote EmptyString ++ X)%string.
  repeat apply ValidString_app; try reflexivity. apply appendBody_valid.
Qed.

(** X23: the JSON rendering of a license is valid UTF-8, whether the
    title, the text and the URL are or not. *)
Theorem toJSON_valid_utf8 (l : LicenseData) : ValidString (fst (toJSON l)) = true.
Proof.
  unfold toJSON, json.Marshal. cbn [fst].
  repeat (apply ValidString_app; [try apply appendString_valid; reflexivity|]).
  reflexivity.
Qed.


(** ** A space before a token *)

Lemma Cut_space (v : string) :
  strings.Cut (String " " v) ";"
  = let '(before, after, found) := strings.Cut v ";" in
    (String " " (if found then before else v),
     if found then after else EmptyString, found).
Proof.
  cbn [strings.Cut]. change (Ascii.eqb " " ";") with false. cbv iota.
  destruct (strings.Cut v ";") as [[before after] found].
  destruct found; reflexivity.
Qed.

Lemma Cut_before (v : string) : forall before after,
  strings.Cut v ";" = (before, after, false) -> before = v.
Proof.
  induction v as [|c v IH]; intros before after; [now intros [= <- _]|].
  cbn [strings.Cut]. destruct (Ascii.eqb c ";"); [discriminate|].
  destruct (strings.Cut v ";") as [[before' after'] found].
  destruct found; [discriminate|]. now intros [= <- _].
Qed.

Lemma ToLower_space (s : string) :
  strings.ToLower (String " " s) = String " " (strings.ToLower s).
Proof.
  unfold strings.ToLower, strings.isASCII.
  change (string_forallb ?p (String " " s)) with (string_forallb p s).
  destruct (string_forallb _ s); reflexivity.
Qed.

Lemma TrimSpace_space (s : string) :
  strings.TrimSpace (String " " s) = strings.TrimSpace s.
Proof. reflexivity. Qed.

(** [mime.ParseMediaType] does not see a space before the media type. *)
Lemma ParseMediaType_space (v : string) :
  mime.ParseMediaType (String " " v) = mime.ParseMediaType v.
Proof.
  unfold mime.ParseMediaType. rewrite Cut_space.
  destruct (strings.Cut v ";") as [[before after] found] eqn:Hcut.
  assert (Hbase : (if found then before else v) = before).
  { destruct found; [reflexivity|]. symmetry. now apply (Cut_before v before after). }
  rewrite Hbase, ToLower_space, TrimSpace_space.
  reflexivity.
Qed.

(** X24: a space before a token of the [Accept] header changes nothing.
    Two headers whose comma-separated tokens are the same, up to one space
    in front of some of them, have the same candidates and negotiate the
    same type. *)
Theorem space_before_token_ignored (accept1 accept2 : string) :
  Forall2 (fun v1 v2 => v1 = v2 \/ v1 = String " " v2)
    (strings.Split accept1 ",") (strings.Split accept2 ",") ->
  candidates accept1 = candidates accept2 /\
  mostAcceptable accept1 = mostAcceptable accept2.
Proof.
  intros Htokens.
  assert (Hc : candidates accept1 = candidates accept2).
  { rewrite !candidates_flat_map.
    induction Htokens as [|v1 v2 l1 l2 Hv _ IH]; [reflexivity|].
    cbn [flat_map]. rewrite IH. f_equal.
    destruct Hv as [->| ->]; [reflexivity|].
    unfold candidateOf, consider. cbn [mime_ParseMediaType go].
    now rewrite ParseMediaType_space. }
  split; [exact Hc|]. unfold mostAcceptable. now rewrite Hc.
Qed.

(** The header of the tests, with and without its spaces after the
    commas. *)
Lemma space_before_token_ignored_example :
  mostAcceptable "text/css, text/plain; q=0.8, text/html; q=0.9"
  = mostAcceptable "text/css,text/plain; q=0.8,text/html; q=0.9".
Proof.
  apply (space_before_token_ignored
           "text/css, text/plain; q=0.8, text/html; q=0.9"
           "text/css,text/plain; q=0.8,text/html; q=0.9").
  change (Forall2 (fun v1 v2 => v1 = v2 \/ v1 = String " " v2)
            ["text/css"; " text/plain; q=0.8"; " text/html; q=0.9"]
            ["text/css"; "text/plain; q=0.8"; "text/html; q=0.9"]).
  constructor; [left; reflexivity|].
  constructor; [right; reflexivity|].
  constructor; [right; reflexivity|].
  constructor.
Defined.

(** ** The two ways of writing U+FFFD *)

(** The escape of U+FFFD and the three bytes of U+FFFD are read back to
    the same piece of the string. *)
Lemma unquote_replacement (X : string) :
  jsondec.unquoteBody (json.escape "ufffd" ++ X)
  = jsondec.unquoteBody (utf8.EncodeRune utf8.RuneError ++ X).
Proof.
  change (jsondec.unquoteBody (json.escape "ufffd" ++ X))
    with (jsondec.emit (utf8.EncodeRune utf8.RuneError) (jsondec.unquoteBody X)).
  change (utf8.EncodeRune utf8.RuneError ++ X)%string
    with (String (byte_of 239) (String (byte_of 191) (String (byte_of 189) X))).
  rewrite unquote_raw by (vm_compute; discriminate).
  reflexivity.
Qed.
